(** * A shallow embedding of the Steam client library

    The development follows the layering of the TypeScript sources:
    - [TokenBucket]           infrastructure/TokenBucket.ts
    - [TitleNormalizer]       utils/TitleNormalizer.ts
    - [PriceFormatter]        utils/PriceFormatter.ts
    - [MetadataExtractor]     services/MetadataExtractor.ts
    - [AdultContentDetector]  services/AdultContentDetector.ts
    - [Cache]                 infrastructure/Cache.ts
    - [ApiClient]             infrastructure/ApiClient.ts
    - [GameMatcher]           services/GameMatcher.ts
    - [SteamClient]           client/SteamClient.ts

    JavaScript numbers are modelled by exact rationals ([Q]), counts and
    identifiers by integers; millisecond timestamps read from [Date.now()]
    are integers ([Z]).  The token bucket is given twice: over exact
    rationals ([TokenBucket]), where its invariants are proved for every run
    and on which the client is built, and in IEEE double precision
    ([TokenBucket64]), the arithmetic of the code, where the times it
    answers are settled to the millisecond.  The asynchronous methods run
    one at a time on the state of the client ([World]); the clock does not
    move during a call.  The packages the library builds on (lru-cache,
    fuse.js, axios) are modelled by their contracts: [LRUCache], [Fuse] and
    the answers of the service in [Remote]. *)

From Stdlib Require Import ZArith QArith Qround Lia Lqa List String Ascii Bool
  Sorted SpecFloat.
Import ListNotations.

(* ================================================================== *)
(** * Numbers *)

(** [Math.min(a, b)]. *)
Definition math_min (a b : Q) : Q :=
  if Qle_bool a b then a else b.

(** [a >= b] on numbers. *)
Definition num_ge (a b : Q) : bool := Qle_bool b a.

(* ================================================================== *)
(** * Token bucket rate limiter (TokenBucket.ts) *)

Module TokenBucket.

Record t : Type := mk {
  capacity : Q;        (* private readonly capacity: number *)
  refillInterval : Q;  (* private readonly refillInterval: number *)
  tokens : Q;          (* private tokens: number *)
  lastRefill : Z       (* private lastRefill: number (a Date.now() reading) *)
}.

(** [constructor(capacity, refillInterval)]; [now] is the value read from
    [Date.now()]. *)
Definition create (capacity refillInterval : Q) (now : Z) : t :=
  mk capacity refillInterval capacity now.

(** [private refill(): void]; [now] is the value read from [Date.now()]. *)
Definition refill (now : Z) (b : t) : t :=
  let elapsed := (now - lastRefill b)%Z in
  if (0 <? elapsed)%Z then
    let tokensToAdd := (inject_Z elapsed / refillInterval b) * capacity b in
    mk (capacity b) (refillInterval b)
       (math_min (capacity b) (tokens b + tokensToAdd))
       now
  else b.

(** [tryConsume(): boolean]. *)
Definition tryConsume (now : Z) (b : t) : bool * t :=
  let b1 := refill now b in
  if num_ge (tokens b1) 1 then
    (true, mk (capacity b1) (refillInterval b1) (tokens b1 - 1) (lastRefill b1))
  else
    (false, b1).

(** [getRetryAfter(): number].  [now] is the clock reading taken inside
    [refill], [now'] the reading taken for the returned timestamp.  [None]
    stands for a result that is not a finite number: with a capacity of 0
    the quotient [refillInterval / capacity] is an infinity or NaN, and so
    are the product and the sum. *)
Definition getRetryAfter (now now' : Z) (b : t) : option Z * t :=
  let b1 := refill now b in
  if num_ge (tokens b1) 1 then
    (Some now', b1)
  else if Qeq_bool (capacity b1) 0 then
    (None, b1)
  else
    let timePerToken := refillInterval b1 / capacity b1 in
    let tokensNeeded := 1 - tokens b1 in
    let timeUntilNextToken := Qceiling (tokensNeeded * timePerToken) in
    (Some (now' + timeUntilNextToken)%Z, b1).

(** [getAvailableTokens(): number]. *)
Definition getAvailableTokens (now : Z) (b : t) : Z * t :=
  let b1 := refill now b in
  (Qfloor (tokens b1), b1).

(** A bucket together with the wall clock it reads. *)
Record timed : Type := mkTimed { clock : Z; bucket : t }.

(** What a client of the bucket can do; [Advance d] lets [d] milliseconds
    of wall-clock time pass. *)
Inductive op : Type :=
| Advance (d : Z)
| TryConsume
| GetRetryAfter
| GetAvailableTokens.

Definition step (s : timed) (o : op) : timed :=
  match o with
  | Advance d => mkTimed (clock s + d)%Z (bucket s)
  | TryConsume => mkTimed (clock s) (snd (tryConsume (clock s) (bucket s)))
  | GetRetryAfter =>
      mkTimed (clock s) (snd (getRetryAfter (clock s) (clock s) (bucket s)))
  | GetAvailableTokens =>
      mkTimed (clock s) (snd (getAvailableTokens (clock s) (bucket s)))
  end.

Definition run (ops : list op) (s : timed) : timed := fold_left step ops s.

(** [new TokenBucket(capacity, refillInterval)] at time [t0]. *)
Definition fresh (capacity refillInterval : Q) (t0 : Z) : timed :=
  mkTimed t0 (create capacity refillInterval t0).

(** The token count is within [0, capacity]. *)
Definition in_range (b : t) : Prop :=
  0 <= tokens b /\ tokens b <= capacity b.

(** The invariant carried along every run of a bucket built with the
    capacity [cap] and the refill interval [itv]. *)
Definition bucket_ok (cap itv : Q) (s : timed) : Prop :=
  capacity (bucket s) = cap /\ refillInterval (bucket s) = itv /\
  in_range (bucket s).

End TokenBucket.

(* ================================================================== *)
(** * Numbers in double precision

    The numbers of the code are IEEE 754 binary64 values.  [Float64] gives
    them with their arithmetic, rounded to nearest with ties to even, on
    the specification of floating-point numbers of the standard library. *)

Module Float64.

Definition prec : Z := 53.
Definition emax : Z := 1024.

Definition t : Type := spec_float.

(** An integer as a number; integers up to 2^53 in magnitude are exact. *)
Definition of_Z (z : Z) : t := binary_normalize prec emax z 0 false.

Definition zero : t := S754_zero false.
Definition one : t := of_Z 1.

(** [a + b], [a - b], [a * b] and [a / b]. *)
Definition add : t -> t -> t := SFadd prec emax.
Definition sub : t -> t -> t := SFsub prec emax.
Definition mul : t -> t -> t := SFmul prec emax.
Definition div : t -> t -> t := SFdiv prec emax.

(** [a > b] and [a >= b]; false when an operand is NaN. *)
Definition gt (a b : t) : bool := SFltb b a.
Definition ge (a b : t) : bool := SFleb b a.

(** [Math.min(a, b)]: NaN when an operand is NaN, and -0 is below +0. *)
Definition min (a b : t) : t :=
  match a, b with
  | S754_nan, _ | _, S754_nan => S754_nan
  | S754_zero sa, S754_zero sb => S754_zero (sa || sb)
  | _, _ => if SFleb a b then a else b
  end.

(** The rational a finite number stands for (0 for the others). *)
Definition to_Q (x : t) : Q :=
  match x with
  | S754_finite s m e =>
      let z := if s then Zneg m else Zpos m in
      match e with
      | Zneg p => z # (2 ^ p)
      | _ => inject_Z (z * 2 ^ e)
      end
  | _ => 0
  end.

(** [Math.ceil(x)]: the least integer not below [x], with the sign of [x]
    when it is zero; NaN, the infinities and the zeros are returned as they
    are. *)
Definition ceil (x : t) : t :=
  match x with
  | S754_finite s _ _ => binary_normalize prec emax (Qceiling (to_Q x)) 0 s
  | _ => x
  end.

(** [Math.floor(x)]. *)
Definition floor (x : t) : t :=
  match x with
  | S754_finite s _ _ => binary_normalize prec emax (Qfloor (to_Q x)) 0 s
  | _ => x
  end.

(** Neither NaN nor an infinity. *)
Definition is_finite (x : t) : bool :=
  match x with
  | S754_zero _ | S754_finite _ _ _ => true
  | _ => false
  end.

End Float64.

(* ================================================================== *)
(** * Token bucket in double precision (TokenBucket.ts)

    The class as the code computes it: every member and every intermediate
    result is a double, and [Date.now()] is an integer number of
    milliseconds. *)

Module TokenBucket64.

Record t : Type := mk {
  capacity : Float64.t;        (* private readonly capacity: number *)
  refillInterval : Float64.t;  (* private readonly refillInterval: number *)
  tokens : Float64.t;          (* private tokens: number *)
  lastRefill : Float64.t       (* private lastRefill: number *)
}.

(** [constructor(capacity, refillInterval)]; [now] is the value read from
    [Date.now()]. *)
Definition create (capacity refillInterval : Float64.t) (now : Z) : t :=
  mk capacity refillInterval capacity (Float64.of_Z now).

(** [private refill(): void]; [now] is the value read from [Date.now()]. *)
Definition refill (now : Z) (b : t) : t :=
  let now := Float64.of_Z now in
  let elapsed := Float64.sub now (lastRefill b) in
  if Float64.gt elapsed Float64.zero then
    let tokensToAdd :=
      Float64.mul (Float64.div elapsed (refillInterval b)) (capacity b) in
    mk (capacity b) (refillInterval b)
       (Float64.min (capacity b) (Float64.add (tokens b) tokensToAdd))
       now
  else b.

(** [tryConsume(): boolean]. *)
Definition tryConsume (now : Z) (b : t) : bool * t :=
  let b1 := refill now b in
  if Float64.ge (tokens b1) Float64.one then
    (true, mk (capacity b1) (refillInterval b1)
              (Float64.sub (tokens b1) Float64.one) (lastRefill b1))
  else
    (false, b1).

(** [getRetryAfter(): number].  [now] is the clock reading taken inside
    [refill], [now'] the reading taken for the returned timestamp. *)
Definition getRetryAfter (now now' : Z) (b : t) : Float64.t * t :=
  let b1 := refill now b in
  if Float64.ge (tokens b1) Float64.one then
    (Float64.of_Z now', b1)
  else
    let timePerToken := Float64.div (refillInterval b1) (capacity b1) in
    let tokensNeeded := Float64.sub Float64.one (tokens b1) in
    let timeUntilNextToken :=
      Float64.ceil (Float64.mul tokensNeeded timePerToken) in
    (Float64.add (Float64.of_Z now') timeUntilNextToken, b1).

(** [getAvailableTokens(): number]. *)
Definition getAvailableTokens (now : Z) (b : t) : Float64.t * t :=
  let b1 := refill now b in
  (Float64.floor (tokens b1), b1).

(** [n] calls of [tryConsume] in a row, all at the time [now]: the bucket
    they leave. *)
Definition consume_times (n : nat) (now : Z) (b : t) : t :=
  Nat.iter n (fun b => snd (tryConsume now b)) b.

(** A bucket together with the wall clock it reads, and a run of the
    operations of a client of the bucket. *)
Record timed : Type := mkTimed { clock : Z; bucket : t }.

Definition step (s : timed) (o : TokenBucket.op) : timed :=
  match o with
  | TokenBucket.Advance d => mkTimed (clock s + d)%Z (bucket s)
  | TokenBucket.TryConsume =>
      mkTimed (clock s) (snd (tryConsume (clock s) (bucket s)))
  | TokenBucket.GetRetryAfter =>
      mkTimed (clock s) (snd (getRetryAfter (clock s) (clock s) (bucket s)))
  | TokenBucket.GetAvailableTokens =>
      mkTimed (clock s) (snd (getAvailableTokens (clock s) (bucket s)))
  end.

Definition run (ops : list TokenBucket.op) (s : timed) : timed :=
  fold_left step ops s.

(** [new TokenBucket(capacity, refillInterval)] at time [t0]. *)
Definition fresh (capacity refillInterval : Float64.t) (t0 : Z) : timed :=
  mkTimed t0 (create capacity refillInterval t0).

(** A zero of either sign, or NaN. *)
Definition zero_or_nan (x : Float64.t) : Prop :=
  match x with
  | S754_zero _ | S754_nan => True
  | _ => False
  end.

(** [new TokenBucket(200, 300000)] at the time 0, the bucket of a client
    with the default configuration. *)
Definition default_bucket : t :=
  create (Float64.of_Z 200) (Float64.of_Z 300000) 0.

(** The value the claimed formula gives on a bucket, in exact arithmetic:
    the time [now'] plus the ceiling of
    [(1 - tokens) * refillInterval / capacity]. *)
Definition exact_retry_time (now' : Z) (b : t) : Z :=
  (now' + Qceiling ((1 - Float64.to_Q (tokens b)) * Float64.to_Q (refillInterval b)
                     / Float64.to_Q (capacity b)))%Z.

(** The same formula with every operation rounded to a double, taken from
    left to right as it is written. *)
Definition rounded_retry_time (now' : Z) (b : t) : Float64.t :=
  Float64.add (Float64.of_Z now')
    (Float64.ceil
       (Float64.div (Float64.mul (Float64.sub Float64.one (tokens b))
                                 (refillInterval b))
                    (capacity b))).

End TokenBucket64.

(* ================================================================== *)
(** * Strings

    A JavaScript string is modelled by [string]: the sequence of its code
    units, restricted to code units below 256. *)

Module JsString.

Definition code (c : ascii) : nat := nat_of_ascii c.

Definition in_range (lo hi : nat) (c : ascii) : bool :=
  (lo <=? code c)%nat && (code c <=? hi)%nat.

(** The regular-expression class [\s] (and the characters removed by
    [trim]): TAB, LF, VT, FF, CR, SPACE and NBSP. *)
Definition is_space (c : ascii) : bool :=
  in_range 9 13 c || (code c =? 32)%nat || (code c =? 160)%nat.

(** The class [\w] used by the word boundary [\b]: [A-Za-z0-9_]. *)
Definition is_word (c : ascii) : bool :=
  in_range 65 90 c || in_range 97 122 c || in_range 48 57 c || (code c =? 95)%nat.

(** [toLowerCase] on one code unit: A-Z and the Latin-1 capitals. *)
Definition lower (c : ascii) : ascii :=
  if in_range 65 90 c || in_range 192 214 c || in_range 216 222 c
  then ascii_of_nat (code c + 32) else c.

(** Canonical form of a code unit under the [i] flag (upper-casing); the
    patterns of this library only hold ASCII characters, for which only the
    letters a-z are folded. *)
Definition canon (c : ascii) : ascii :=
  if in_range 97 122 c then ascii_of_nat (code c - 32) else c.

Definition eqb_ci (p c : ascii) : bool := Ascii.eqb (canon p) (canon c).

Fixpoint toLowerCase (s : string) : string :=
  match s with
  | EmptyString => EmptyString
  | String c s' => String (lower c) (toLowerCase s')
  end.

Fixpoint drop_while (p : ascii -> bool) (s : string) : string :=
  match s with
  | EmptyString => EmptyString
  | String c s' => if p c then drop_while p s' else s
  end.

Definition is_empty (s : string) : bool :=
  match s with EmptyString => true | _ => false end.

(** Removes the longest suffix made of characters satisfying [p]. *)
Fixpoint drop_while_end (p : ascii -> bool) (s : string) : string :=
  match s with
  | EmptyString => EmptyString
  | String c s' =>
      let r := drop_while_end p s' in
      if is_empty r && p c then EmptyString else String c r
  end.

(** [s.trim()]. *)
Definition trim (s : string) : string :=
  drop_while_end is_space (drop_while is_space s).

Fixpoint starts_with (pat s : string) : bool :=
  match pat, s with
  | EmptyString, _ => true
  | String p pat', String c s' => Ascii.eqb p c && starts_with pat' s'
  | String _ _, EmptyString => false
  end.

(** [s.includes(pat)]. *)
Fixpoint includes (pat s : string) : bool :=
  starts_with pat s ||
  match s with
  | EmptyString => false
  | String _ s' => includes pat s'
  end.

(** [String(n)] for an integer [n]: its decimal digits. *)
Fixpoint digits_of_pos (fuel : nat) (n : N) (acc : string) : string :=
  match fuel with
  | O => acc
  | S fuel' =>
      let d := ascii_of_N (48 + N.modulo n 10) in
      let q := N.div n 10 in
      if N.eqb q 0 then String d acc else digits_of_pos fuel' q (String d acc)
  end.

Definition of_Z (z : Z) : string :=
  let n := Z.abs_N z in
  let ds := digits_of_pos (S (N.to_nat (N.log2 n))) n EmptyString in
  if (z <? 0)%Z then String "-"%char ds else ds.

(** The characters of a string. *)
Definition chars (s : string) : list ascii := list_ascii_of_string s.

(** Empty, or made of white space only. *)
Definition whitespace_only (s : string) : Prop :=
  forall c, In c (chars s) -> is_space c = true.

End JsString.

(* ================================================================== *)
(** * Regular expressions

    The fragment of JavaScript regular expressions used by the title
    normalizer, all under the flags [gi]. *)

Module Regex.

Import JsString.

Inductive atom : Type :=
| Chr (c : ascii)      (* a literal character, compared case-insensitively *)
| WordB                (* the assertion \b *)
| StarNot (c : ascii). (* the greedy class repetition [^c]*; in every
                          pattern below it is followed by the literal c,
                          so it never has to give characters back *)

Definition t : Type := list atom.

Fixpoint lit (s : string) : t :=
  match s with
  | EmptyString => []
  | String c s' => Chr c :: lit s'
  end.

Definition is_word_opt (o : option ascii) : bool :=
  match o with Some c => is_word c | None => false end.

Definition head (s : string) : option ascii :=
  match s with EmptyString => None | String c _ => Some c end.

(** Skips the longest prefix without [x]: its length, the last character
    passed and the rest. *)
Fixpoint skip_not (x : ascii) (prev : option ascii) (s : string)
  : nat * option ascii * string :=
  match s with
  | EmptyString => (O, prev, s)
  | String c s' =>
      if Ascii.eqb c x then (O, prev, s)
      else let '(n, prev', rest) := skip_not x (Some c) s' in (S n, prev', rest)
  end.

(** [match_at r prev s]: the length of the match of [r] that starts at the
    beginning of [s], where [prev] is the character before it. *)
Fixpoint match_at (r : t) (prev : option ascii) (s : string) : option nat :=
  match r with
  | [] => Some O
  | Chr p :: r' =>
      match s with
      | String c s' =>
          if eqb_ci p c then option_map S (match_at r' (Some c) s') else None
      | EmptyString => None
      end
  | WordB :: r' =>
      if xorb (is_word_opt prev) (is_word_opt (head s))
      then match_at r' prev s else None
  | StarNot x :: r' =>
      let '(n, prev', rest) := skip_not x prev s in
      option_map (Nat.add n) (match_at r' prev' rest)
  end.

(** [s.replace(r, '')] for a global pattern: every match, found from left to
    right, is removed.  [skip] counts the characters of the current match
    still to be dropped. *)
Fixpoint remove_from (r : t) (skip : nat) (prev : option ascii) (s : string)
  : string :=
  match s with
  | EmptyString => EmptyString
  | String c s' =>
      match skip with
      | S k => remove_from r k (Some c) s'
      | O =>
          match match_at r prev s with
          | Some (S k) => remove_from r k (Some c) s'
          | _ => String c (remove_from r O (Some c) s')
          end
      end
  end.

Definition remove_all (r : t) (s : string) : string := remove_from r O None s.

End Regex.

(* ================================================================== *)
(** * Title normalizer (TitleNormalizer.ts) *)

Module TitleNormalizer.

Import JsString Regex.

Definition REPACK_PATTERNS : list Regex.t :=
  [ lit "(FitGirl Repack" ++ [StarNot ")"%char; Chr ")"%char];
    lit "[FitGirl Repack" ++ [StarNot "]"%char; Chr "]"%char];
    lit "(Repack)";
    lit "[Repack]";
    lit "- Repack" ].

Definition word (s : string) : Regex.t := WordB :: lit s ++ [WordB].

Definition EDITION_PATTERNS : list Regex.t :=
  [ word "Complete Edition";
    word "GOTY";
    word "Game of the Year";
    word "Definitive Edition";
    word "Ultimate Edition";
    word "Deluxe Edition";
    word "Premium Edition";
    word "Enhanced Edition";
    word "Remastered";
    word "Remake" ].

(** [private static removeRepackMarkers(title)]. *)
Definition removeRepackMarkers (title : string) : string :=
  fold_left (fun result pattern => remove_all pattern result)
            REPACK_PATTERNS title.

(** [private static removeEditionSuffixes(title)]. *)
Definition removeEditionSuffixes (title : string) : string :=
  fold_left (fun result pattern => remove_all pattern result)
            EDITION_PATTERNS title.

(** The class [[a-zA-Z0-9\s\-']]. *)
Definition allowed (c : ascii) : bool :=
  in_range 97 122 c || in_range 65 90 c || in_range 48 57 c ||
  is_space c || (code c =? 45)%nat || (code c =? 39)%nat.

(** [private static removeSpecialCharacters(title)]:
    [title.replace(/[^a-zA-Z0-9\s\-']/g, ' ')]. *)
Fixpoint removeSpecialCharacters (title : string) : string :=
  match title with
  | EmptyString => EmptyString
  | String c s' =>
      String (if allowed c then c else " "%char) (removeSpecialCharacters s')
  end.

(** [s.replace(/\s+/g, ' ')]; [in_run] tells that the previous character
    was white space. *)
Fixpoint collapse_spaces (in_run : bool) (s : string) : string :=
  match s with
  | EmptyString => EmptyString
  | String c s' =>
      if is_space c
      then if in_run then collapse_spaces true s'
           else String " "%char (collapse_spaces true s')
      else String c (collapse_spaces false s')
  end.

(** The class [[-\s]]. *)
Definition hyphen_or_space (c : ascii) : bool :=
  (code c =? 45)%nat || is_space c.

(** [static normalize(title: string): string]. *)
Definition normalize (title : string) : string :=
  if is_empty title then EmptyString
  else
    let normalized := title in
    let normalized := removeRepackMarkers normalized in
    let normalized := removeEditionSuffixes normalized in
    let normalized := removeSpecialCharacters normalized in
    let normalized := toLowerCase (trim (collapse_spaces false normalized)) in
    let normalized :=
      drop_while hyphen_or_space (drop_while_end hyphen_or_space normalized) in
    normalized.

End TitleNormalizer.

(* ================================================================== *)
(** * Data types (src/types) *)

(** [SteamGame]: an entry of the catalog, with the score attached by the
    matcher. *)
Module SteamGame.
Record t : Type := mk {
  appId : string;
  name : string;
  matchScore : option Q
}.
End SteamGame.

Module PriceOverview.
Record t : Type := mk {
  currency : string;
  initial : Z;
  final : Z;
  discountPercent : Z;
  initialFormatted : string;
  finalFormatted : string
}.
End PriceOverview.

Module Category.
Record t : Type := mk { id : Z; description : string }.
End Category.

Module Genre.
Record t : Type := mk { id : string; description : string }.
End Genre.

Module Screenshot.
Record t : Type := mk { id : Z; pathThumbnail : string; pathFull : string }.
End Screenshot.

(** [SteamGameDetails]; optional members are [option]s. *)
Module SteamGameDetails.
Record t : Type := mk {
  appId : string;
  name : string;
  type : string;
  requiredAge : Z;
  isFree : bool;
  headerImage : string;
  priceOverview : option PriceOverview.t;
  releaseDate : string;               (* releaseDate.date *)
  categories : list Category.t;
  genres : list Genre.t;
  screenshots : list Screenshot.t;
  metacritic : option Z;              (* metacritic?.score *)
  recommendations : option Z;         (* recommendations?.total *)
  contentDescriptors : list Z         (* contentDescriptors.ids *)
}.

Definition with_appId (a : string) (d : t) : t :=
  mk a (name d) (type d) (requiredAge d) (isFree d) (headerImage d)
     (priceOverview d) (releaseDate d) (categories d) (genres d)
     (screenshots d) (metacritic d) (recommendations d) (contentDescriptors d).
End SteamGameDetails.

Module SteamRating.
Record t : Type := mk { percent : Z; total : Z }.
End SteamRating.

Module Rating.
Record t : Type := mk { metacritic : option Z; steam : option SteamRating.t }.
End Rating.

Module EnrichedGameData.
Record t : Type := mk {
  steamId : option string;
  steamUrl : option string;
  coverUrl : option string;
  price : option string;
  releaseDate : option string;
  categories : option (list string);
  rating : option Rating.t;
  screenshots : option (list string);
  isAdult : option bool
}.
End EnrichedGameData.

(** [SearchOptions]: every member may be left out. *)
Module SearchOptions.
Record t : Type := mk {
  fuzzyThreshold : option Q;
  includeAdult : option bool;
  bypassCache : option bool
}.
Definition none : t := mk None None None.
End SearchOptions.

Module CacheStats.
Record t : Type := mk {
  appListSize : nat;
  detailsCacheSize : nat;
  hitRate : Q
}.
End CacheStats.

(* ================================================================== *)
(** * Errors (src/errors/SteamErrors.ts) *)

Inductive SteamClientError : Type :=
| SteamApiError (message : string) (statusCode : Z)
| GameNotFoundError (title : string)
| RateLimitError (retryAfter : Z)
| InvalidApiKeyError.

(** What a [catch] clause can receive: one of the library's own errors, an
    error raised by the HTTP transport (with the status of the response when
    there was one), or any other exception (with its message). *)
Inductive Thrown : Type :=
| Custom (e : SteamClientError)
| AxiosError (message : string) (status : option Z)
| OtherError (message : string).

(** The largest time value of a [Date], in milliseconds from the epoch. *)
Definition MAX_TIME_VALUE : Z := 8640000000000000.

(** The [RangeError] of [toISOString]. *)
Definition invalid_time : Thrown := OtherError "Invalid time value".

(** [new RateLimitError(retryAfter)], as the [throw] that evaluates it sees
    it.  The constructor writes the time into its message with
    [new Date(retryAfter).toISOString()], which throws a [RangeError] when
    [retryAfter] is not a time value: a number that is not finite ([None]),
    or one further than [MAX_TIME_VALUE] from the epoch. *)
Definition newRateLimitError (retryAfter : option Z) : Thrown :=
  match retryAfter with
  | Some t =>
      if (Z.abs t <=? MAX_TIME_VALUE)%Z then Custom (RateLimitError t)
      else invalid_time
  | None => invalid_time
  end.

(* ================================================================== *)
(** * The price formatter and the metadata extractor *)

Module PriceFormatter.

(** [static format(priceOverview)]. *)
Definition format (priceOverview : PriceOverview.t) : string :=
  PriceOverview.finalFormatted priceOverview.

(** [static formatFree()]. *)
Definition formatFree : string := "Free to Play".

End PriceFormatter.

Module MetadataExtractor.

Definition DEFAULT_SCREENSHOT_LIMIT : nat := 3.

(** [s || undefined] on a string. *)
Definition nonempty (s : string) : option string :=
  if JsString.is_empty s then None else Some s.

(** [formatPrice(priceOverview?, isFree?)]. *)
Definition formatPrice (priceOverview : option PriceOverview.t)
                       (isFree : option bool) : option string :=
  match isFree with
  | Some true => Some PriceFormatter.formatFree
  | _ =>
      match priceOverview with
      | Some p => Some (PriceFormatter.format p)
      | None => None
      end
  end.

(** [extractScreenshots(details, limit)]. *)
Definition extractScreenshots (details : SteamGameDetails.t) (limit : nat)
  : list string :=
  match SteamGameDetails.screenshots details with
  | [] => []
  | shots => map Screenshot.pathFull (firstn limit shots)
  end.

(** [private extractCategories(details)]. *)
Definition extractCategories (details : SteamGameDetails.t) : list string :=
  map Genre.description (SteamGameDetails.genres details) ++
  map Category.description (SteamGameDetails.categories details).

(** [calculateSteamRating(recommendations?)]. *)
Definition calculateSteamRating (recommendations : option Z)
  : option SteamRating.t :=
  match recommendations with
  | None => None
  | Some total =>
      if (total =? 0)%Z then None else Some (SteamRating.mk 0 total)
  end.

(** [private extractRating(details)]. *)
Definition extractRating (details : SteamGameDetails.t) : option Rating.t :=
  let metacritic := SteamGameDetails.metacritic details in
  let steam := calculateSteamRating (SteamGameDetails.recommendations details) in
  let no_metacritic :=
    match metacritic with None => true | Some m => (m =? 0)%Z end in
  let no_steam := match steam with None => true | Some _ => false end in
  if no_metacritic && no_steam then None
  else Some (Rating.mk metacritic steam).

(** [extractMetadata(details)]. *)
Definition extractMetadata (details : SteamGameDetails.t) : EnrichedGameData.t :=
  EnrichedGameData.mk
    (Some (SteamGameDetails.appId details))
    (Some ("https://store.steampowered.com/app/" ++
           SteamGameDetails.appId details ++ "/")%string)
    (nonempty (SteamGameDetails.headerImage details))
    (formatPrice (SteamGameDetails.priceOverview details)
                 (Some (SteamGameDetails.isFree details)))
    (nonempty (SteamGameDetails.releaseDate details))
    (Some (extractCategories details))
    (extractRating details)
    (Some (extractScreenshots details DEFAULT_SCREENSHOT_LIMIT))
    None.

End MetadataExtractor.

(* ================================================================== *)
(** * Adult content detector (AdultContentDetector.ts) *)

Module AdultContentDetector.

Definition ADULT_DESCRIPTOR_ID : Z := 3.
Definition ADULT_AGE_THRESHOLD : Z := 18.

Definition hasAgeRestriction (requiredAge : Z) : bool :=
  (ADULT_AGE_THRESHOLD <=? requiredAge)%Z.

Definition hasAdultDescriptor (descriptorIds : list Z) : bool :=
  existsb (Z.eqb ADULT_DESCRIPTOR_ID) descriptorIds.

Definition hasAdultCategory (categories : list Category.t) : bool :=
  existsb (fun cat =>
             JsString.includes "adult only"
               (JsString.toLowerCase (Category.description cat)))
          categories.

Definition isAdult (details : SteamGameDetails.t) : bool :=
  if hasAgeRestriction (SteamGameDetails.requiredAge details) then true
  else if hasAdultDescriptor (SteamGameDetails.contentDescriptors details) then true
  else if hasAdultCategory (SteamGameDetails.categories details) then true
  else false.

End AdultContentDetector.

(* ================================================================== *)
(** * The LRU store behind the cache (package lru-cache) *)

Module LRUCache.

Section WithValue.

Variable V : Type.

(** Modelled from the spec: the lru-cache package is not part of the
    sources.  An entry holds a value and the time it expires at; it is
    visible while [now < expiresAt]. *)
Record entry : Type := mkEntry { key : string; value : V; expiresAt : Z }.

(** Modelled from the spec: the store of the lru-cache package, configured
    with [max], [ttl], [updateAgeOnGet: false] and [updateAgeOnHas: false].
    [entries] is kept in recency order, the most recently used entry
    first. *)
Record t : Type := mk { max : nat; ttl : Z; entries : list entry }.

Definition create (max : nat) (ttl : Z) : t := mk max ttl [].

Definition live (now : Z) (e : entry) : bool := (now <? expiresAt e)%Z.

Definition lookup (k : string) (es : list entry) : option entry :=
  find (fun e => String.eqb (key e) k) es.

Definition remove (k : string) (es : list entry) : list entry :=
  filter (fun e => negb (String.eqb (key e) k)) es.

(** Modelled from the spec: [get] returns absent when the key was never set
    or its time to live has elapsed; a hit resets the recency of the entry
    and leaves its expiry alone; an expired entry is dropped. *)
Definition get (k : string) (now : Z) (c : t) : option V * t :=
  match lookup k (entries c) with
  | None => (None, c)
  | Some e =>
      if live now e
      then (Some (value e), mk (max c) (ttl c) (e :: remove k (entries c)))
      else (None, mk (max c) (ttl c) (remove k (entries c)))
  end.

(** Modelled from the spec: [set] inserts or replaces, with the default time
    to live when none is given; going beyond the capacity evicts the least
    recently used entries. *)
Definition set (k : string) (v : V) (ttl' : option Z) (now : Z) (c : t) : t :=
  let life := match ttl' with Some x => x | None => ttl c end in
  mk (max c) (ttl c)
     (firstn (max c) (mkEntry k v (now + life)%Z :: remove k (entries c))).

(** Modelled from the spec: [has] honours the time to live and changes
    nothing. *)
Definition has (k : string) (now : Z) (c : t) : bool :=
  match lookup k (entries c) with
  | Some e => live now e
  | None => false
  end.

Definition clear (c : t) : t := mk (max c) (ttl c) [].

Definition size (c : t) : nat := List.length (entries c).

(** What a [get] would return, without its effects. *)
Definition peek (k : string) (now : Z) (c : t) : option V :=
  match lookup k (entries c) with
  | Some e => if live now e then Some (value e) else None
  | None => None
  end.

End WithValue.

Arguments key {V} _.
Arguments value {V} _.
Arguments expiresAt {V} _.
Arguments mkEntry {V} _ _ _.
Arguments max {V} _.
Arguments ttl {V} _.
Arguments entries {V} _.
Arguments mk {V} _ _ _.
Arguments live {V} _ _.
Arguments lookup {V} _ _.
Arguments remove {V} _ _.
Arguments get {V} _ _ _.
Arguments set {V} _ _ _ _ _.
Arguments has {V} _ _ _.
Arguments clear {V} _.
Arguments size {V} _.
Arguments peek {V} _ _ _.

End LRUCache.

(* ================================================================== *)
(** * Cache with statistics (Cache.ts) *)

Module Cache.

Section WithValue.

Variable V : Type.

Record t : Type := mk {
  cache : LRUCache.t V;  (* private cache: LRUCache<K, V> *)
  hits : nat;            (* private hits: number = 0 *)
  misses : nat           (* private misses: number = 0 *)
}.

(** [constructor(maxSize, ttl)]. *)
Definition create (maxSize : nat) (ttl : Z) : t :=
  mk (LRUCache.create V maxSize ttl) 0 0.

(** [get(key)], at the time [now]. *)
Definition get (key : string) (now : Z) (c : t) : option V * t :=
  let (value, lru) := LRUCache.get key now (cache c) in
  match value with
  | Some _ => (value, mk lru (S (hits c)) (misses c))
  | None => (value, mk lru (hits c) (S (misses c)))
  end.

(** [set(key, value, ttl?)], at the time [now]. *)
Definition set (key : string) (value : V) (ttl : option Z) (now : Z) (c : t) : t :=
  mk (LRUCache.set key value ttl now (cache c)) (hits c) (misses c).

(** [has(key)], at the time [now]. *)
Definition has (key : string) (now : Z) (c : t) : bool :=
  LRUCache.has key now (cache c).

(** [clear()]. *)
Definition clear (c : t) : t := mk (LRUCache.clear (cache c)) 0 0.

(** [getStats()]: the size and the hit rate. *)
Definition getStats (c : t) : nat * Q :=
  let totalRequests := (hits c + misses c)%nat in
  let hitRate :=
    if (0 <? totalRequests)%nat
    then inject_Z (Z.of_nat (hits c)) / inject_Z (Z.of_nat totalRequests)
    else 0 in
  (LRUCache.size (cache c), hitRate).

(** The operations of a cache, to talk about sequences of calls. *)
Inductive op : Type :=
| OpGet (key : string)
| OpSet (key : string) (value : V) (ttl : option Z)
| OpHas (key : string)
| OpClear
| OpAdvance (d : Z).

(** What a caller observes of one operation. *)
Inductive obs : Type :=
| GetHit (key : string)
| GetMiss (key : string)
| HasResult (key : string) (present : bool)
| SetDone
| Cleared
| Passed.

Definition step (s : Z * t) (o : op) : obs * (Z * t) :=
  let (now, c) := s in
  match o with
  | OpGet k =>
      let (r, c') := get k now c in
      (match r with Some _ => GetHit k | None => GetMiss k end, (now, c'))
  | OpSet k v ttl => (SetDone, (now, set k v ttl now c))
  | OpHas k => (HasResult k (has k now c), (now, c))
  | OpClear => (Cleared, (now, clear c))
  | OpAdvance d => (Passed, ((now + d)%Z, c))
  end.

(** Runs the operations in order; the observations come out in the order of
    the calls. *)
Fixpoint run (ops : list op) (s : Z * t) : list obs * (Z * t) :=
  match ops with
  | [] => ([], s)
  | o :: ops' =>
      let (ob, s') := step s o in
      let (obs', s'') := run ops' s' in
      (ob :: obs', s'')
  end.

(** The numbers of [get] calls that found, respectively did not find, a
    value since the last [clear], read off a list of observations; [h] and
    [m] are the counts so far. *)
Fixpoint tally (log : list obs) (h m : nat) : nat * nat :=
  match log with
  | [] => (h, m)
  | GetHit _ :: log' => tally log' (S h) m
  | GetMiss _ :: log' => tally log' h (S m)
  | Cleared :: log' => tally log' 0%nat 0%nat
  | _ :: log' => tally log' h m
  end.

End WithValue.

Arguments cache {V} _.
Arguments hits {V} _.
Arguments misses {V} _.
Arguments mk {V} _ _ _.
Arguments get {V} _ _ _.
Arguments set {V} _ _ _ _ _.
Arguments has {V} _ _ _.
Arguments clear {V} _.
Arguments getStats {V} _.
Arguments OpGet {V} _.
Arguments OpSet {V} _ _ _.
Arguments OpHas {V} _.
Arguments OpClear {V}.
Arguments OpAdvance {V} _.
Arguments step {V} _ _.
Arguments run {V} _ _.

End Cache.

(* ================================================================== *)
(** * Approximate string search (package fuse.js) *)

Module Fuse.

(** A candidate found by the search: the document, its position in the
    indexed collection and its distance to the pattern (0 is a perfect
    match). *)
Record hit : Type := mkHit { h_item : SteamGame.t; h_idx : nat; h_score : Q }.

(** [FuseResult<SteamGame>]. *)
Record result : Type := mkResult {
  item : SteamGame.t;
  refIndex : nat;
  score : option Q
}.

(** The index: the collection it was built over.  The options are the
    constant [FUSE_OPTIONS] of the matcher. *)
Record t : Type := mk { docs : list SteamGame.t }.

(** [a] is ranked before [b]: it is closer to the pattern, or as close and
    earlier in the catalog. *)
Definition before (a b : hit) : Prop :=
  h_score a < h_score b \/
  (h_score a == h_score b /\ (h_idx a < h_idx b)%nat).

Section WithSearcher.

(** The distance the library computes between a pattern and a text under
    [FUSE_OPTIONS]; [None] when the text does not match. *)
Variable distance : string -> string -> option Q.

(** The candidates of a collection, in the order of the collection. *)
Fixpoint scan (pattern : string) (idx : nat) (ds : list SteamGame.t) : list hit :=
  match ds with
  | [] => []
  | g :: ds' =>
      match distance pattern (SteamGame.name g) with
      | Some d => mkHit g idx d :: scan pattern (S idx) ds'
      | None => scan pattern (S idx) ds'
      end
  end.

(** Modelled from the spec: the order of the results, best first (ascending
    distance), ties broken by the order of the catalog. *)
Definition sortFn (a b : hit) : bool :=
  if Qeq_bool (h_score a) (h_score b)
  then (h_idx a <? h_idx b)%nat
  else negb (Qle_bool (h_score b) (h_score a)).

Fixpoint insert (x : hit) (l : list hit) : list hit :=
  match l with
  | [] => [x]
  | y :: l' => if sortFn x y then x :: l else y :: insert x l'
  end.

Definition sort (l : list hit) : list hit := fold_right insert [] l.

(** With [includeScore: true] every result carries its score. *)
Definition format (h : hit) : result :=
  mkResult (h_item h) (h_idx h) (Some (h_score h)).

(** Modelled from the spec: fuse.js is not part of the sources.
    [fuse.search(pattern, { limit })] returns the candidates sorted best
    first, cut to [limit] entries when a limit is given ([-1] stands for no
    limit). *)
Definition search (f : t) (pattern : string) (limit : Z) : list result :=
  let results := sort (scan pattern 0 (docs f)) in
  let results :=
    if (-1 <? limit)%Z then firstn (Z.to_nat limit) results else results in
  map format results.

End WithSearcher.

End Fuse.

(* ================================================================== *)
(** * The remote service and the state of a client *)

Module Remote.

(** A row of the catalog as the service sends it. *)
Record RawApp : Type := mkApp { appid : Z; name : string }.

(** The answer to one request for a page of the catalog. *)
Inductive page : Type :=
| PageOk (apps : list RawApp) (have_more_results : bool)
| PageFail (e : Thrown).

(** The answer to a request for the details of an application: a failure
    of the transport, a payload without data for the application, or its
    data (already in the shape of [SteamGameDetails]). *)
Inductive details : Type :=
| DetailsFail (e : Thrown)
| DetailsMissing
| DetailsData (data : SteamGameDetails.t).

(** The service as a client sees it at a given time: the answers to the
    successive page requests of one catalog download, and the answer to a
    details request. *)
Record t : Type := mk {
  appListPages : Z -> list page;
  appDetails : Z -> string -> details
}.

End Remote.

(** The HTTP requests a client sends. *)
Inductive request : Type :=
| GetAppListPage
| GetAppDetails (appId : string).

(** Everything a [SteamClient] owns, with the clock it reads and the service
    it talks to.  The matcher shares the rate limiter and the catalog cache
    of the client. *)
Record World : Type := mkWorld {
  now : Z;                                   (* Date.now() *)
  remote : Remote.t;
  requests : list request;                   (* sent so far, latest first *)
  rateLimiter : TokenBucket.t;               (* ApiClient.rateLimiter *)
  appListCache : Cache.t (list SteamGame.t); (* SteamClient.appListCache *)
  detailsCache : Cache.t SteamGameDetails.t; (* SteamClient.detailsCache *)
  fuse : option Fuse.t                       (* GameMatcher.fuse *)
}.

Definition set_now (x : Z) (w : World) : World :=
  mkWorld x (remote w) (requests w) (rateLimiter w) (appListCache w)
          (detailsCache w) (fuse w).

Definition set_requests (x : list request) (w : World) : World :=
  mkWorld (now w) (remote w) x (rateLimiter w) (appListCache w)
          (detailsCache w) (fuse w).

Definition set_rateLimiter (x : TokenBucket.t) (w : World) : World :=
  mkWorld (now w) (remote w) (requests w) x (appListCache w)
          (detailsCache w) (fuse w).

Definition set_appListCache (x : Cache.t (list SteamGame.t)) (w : World) : World :=
  mkWorld (now w) (remote w) (requests w) (rateLimiter w) x
          (detailsCache w) (fuse w).

Definition set_detailsCache (x : Cache.t SteamGameDetails.t) (w : World) : World :=
  mkWorld (now w) (remote w) (requests w) (rateLimiter w) (appListCache w)
          x (fuse w).

Definition set_fuse (x : option Fuse.t) (w : World) : World :=
  mkWorld (now w) (remote w) (requests w) (rateLimiter w) (appListCache w)
          (detailsCache w) x.

(* ================================================================== *)
(** * Computations: state and exceptions *)

Inductive outcome (A : Type) : Type :=
| Ok (a : A)
| Err (e : Thrown).

Arguments Ok {A} _.
Arguments Err {A} _.

(** An asynchronous method of the client: it runs on the state and either
    returns or throws. *)
Definition M (A : Type) : Type := World -> outcome A * World.

Definition ret {A : Type} (a : A) : M A := fun w => (Ok a, w).

Definition throw {A : Type} (e : Thrown) : M A := fun w => (Err e, w).

Definition bind {A B : Type} (m : M A) (k : A -> M B) : M B :=
  fun w =>
    match m w with
    | (Ok a, w') => k a w'
    | (Err e, w') => (Err e, w')
    end.

(** [try { m } catch (error) { h error }]. *)
Definition try_catch {A : Type} (m : M A) (h : Thrown -> M A) : M A :=
  fun w =>
    match m w with
    | (Ok a, w') => (Ok a, w')
    | (Err e, w') => h e w'
    end.

Notation "x <- m ;; k" := (bind m (fun x => k))
  (at level 61, m at next level, right associativity).
Notation "m ;;; k" := (bind m (fun _ => k))
  (at level 61, right associativity).

(* ================================================================== *)
(** * HTTP client with rate limiting (ApiClient.ts) *)

Module ApiClient.

(** [canMakeRequest()]. *)
Definition canMakeRequest : M bool :=
  fun w =>
    let (ok, b) := TokenBucket.tryConsume (now w) (rateLimiter w) in
    (Ok ok, set_rateLimiter b w).

(** [getRetryAfter()]. *)
Definition getRetryAfter : M (option Z) :=
  fun w =>
    let (t, b) := TokenBucket.getRetryAfter (now w) (now w) (rateLimiter w) in
    (Ok t, set_rateLimiter b w).

(** [private checkRateLimit()]. *)
Definition checkRateLimit : M unit :=
  ok <- canMakeRequest ;;
  if negb ok then
    retryAfter <- getRetryAfter ;;
    throw (newRateLimitError retryAfter)
  else ret tt.

(** [private handleError(error, context): never]. *)
Definition handleError {A : Type} (error : Thrown) (context : string) : M A :=
  match error with
  | AxiosError message status =>
      match status with
      | Some 401%Z => throw (Custom InvalidApiKeyError)
      | _ =>
          throw (Custom (SteamApiError
                           (context ++ ": " ++ message)%string
                           (match status with Some st => st | None => 0%Z end)))
      end
  | Custom e => throw (Custom e)
  | OtherError message =>
      throw (Custom (SteamApiError (context ++ ": " ++ message)%string 0%Z))
  end.

(** Sends a request: it is recorded as sent. *)
Definition send (r : request) : M unit :=
  fun w => (Ok tt, set_requests (r :: requests w) w).

(** The loop of [getAppList] over the answers of the service, one request
    per page; a request without an answer fails in the transport. *)
Fixpoint fetchPages (pages : list Remote.page) (allApps : list Remote.RawApp)
  : M (list Remote.RawApp) :=
  match pages with
  | [] =>
      send GetAppListPage ;;;
      throw (OtherError "no response")
  | Remote.PageFail e :: _ =>
      send GetAppListPage ;;;
      throw e
  | Remote.PageOk apps hasMoreResults :: rest =>
      send GetAppListPage ;;;
      let allApps := (allApps ++ apps)%list in
      if hasMoreResults then checkRateLimit ;;; fetchPages rest allApps
      else ret allApps
  end.

(** [getAppList()]. *)
Definition getAppList : M (list Remote.RawApp) :=
  checkRateLimit ;;;
  try_catch
    (fun w => fetchPages (Remote.appListPages (remote w) (now w)) [] w)
    (fun error => handleError error "Failed to fetch Steam app list").

(** [getGameDetails(appId)]. *)
Definition getGameDetails (appId : string) : M SteamGameDetails.t :=
  checkRateLimit ;;;
  try_catch
    (send (GetAppDetails appId) ;;;
     fun w =>
       match Remote.appDetails (remote w) (now w) appId with
       | Remote.DetailsFail e => throw e w
       | Remote.DetailsMissing =>
           throw (Custom (GameNotFoundError ("App ID: " ++ appId)%string)) w
       | Remote.DetailsData data =>
           ret (SteamGameDetails.with_appId appId data) w
       end)
    (fun error =>
       match error with
       | Custom (GameNotFoundError _) => throw error
       | _ => handleError error
                ("Failed to fetch game details for app ID: " ++ appId)%string
       end).

End ApiClient.

(* ================================================================== *)
(** * Exact and fuzzy matching (GameMatcher.ts) *)

Module GameMatcher.

Definition APP_LIST_CACHE_KEY : string := "steam_app_list".

(** [!title || title.trim().length === 0]. *)
Definition blank (title : string) : bool :=
  JsString.is_empty title || (String.length (JsString.trim title) =? 0)%nat.

(** [private getAppList()]. *)
Definition getAppList : M (list SteamGame.t) :=
  cached <- (fun w =>
               let (v, c) := Cache.get APP_LIST_CACHE_KEY (now w) (appListCache w) in
               (Ok v, set_appListCache c w)) ;;
  match cached with
  | Some appList => ret appList
  | None =>
      rawAppList <- ApiClient.getAppList ;;
      let appList :=
        map (fun app =>
               SteamGame.mk (JsString.of_Z (Remote.appid app)) (Remote.name app) None)
            rawAppList in
      (fun w =>
         (Ok tt,
          set_appListCache
            (Cache.set APP_LIST_CACHE_KEY appList (Some 86400000%Z) (now w)
                       (appListCache w)) w)) ;;;
      ret appList
  end.

(** [private ensureFuseInitialized()]. *)
Definition ensureFuseInitialized : M unit :=
  fun w =>
    match fuse w with
    | Some _ => ret tt w
    | None =>
        (appList <- getAppList ;;
         fun w' => (Ok tt, set_fuse (Some (Fuse.mk appList)) w')) w
    end.

(** [getExactMatch(title)]. *)
Definition getExactMatch (title : string) : M (option SteamGame.t) :=
  appList <- getAppList ;;
  let normalizedTitle := TitleNormalizer.normalize title in
  let match_ :=
    find (fun app =>
            String.eqb (TitleNormalizer.normalize (SteamGame.name app))
                       normalizedTitle)
         appList in
  ret match_.

Section WithSearcher.

Variable distance : string -> string -> option Q.

(** The filter and the transformation of [findMatches]. *)
Definition withinThreshold (threshold : Q) (r : Fuse.result) : bool :=
  match Fuse.score r with
  | Some sc => Qle_bool sc threshold
  | None => false
  end.

Definition toGame (r : Fuse.result) : SteamGame.t :=
  SteamGame.mk
    (SteamGame.appId (Fuse.item r))
    (SteamGame.name (Fuse.item r))
    (Some (match Fuse.score r with Some sc => 1 - sc | None => 0 end)).

(** [findMatches(title, limit, threshold)]. *)
Definition findMatches (title : string) (limit : Z) (threshold : Q)
  : M (list SteamGame.t) :=
  if blank title then ret []
  else
    ensureFuseInitialized ;;;
    fun w =>
      match fuse w with
      | None => ret [] w
      | Some f =>
          let normalizedTitle := TitleNormalizer.normalize title in
          let results := Fuse.search distance f normalizedTitle limit in
          ret (map toGame (filter (withinThreshold threshold) results)) w
      end.

(** [findBestMatch(title, threshold)]. *)
Definition findBestMatch (title : string) (threshold : Q)
  : M (option SteamGame.t) :=
  if blank title then ret None
  else
    exactMatch <- getExactMatch title ;;
    match exactMatch with
    | Some g =>
        ret (Some (SteamGame.mk (SteamGame.appId g) (SteamGame.name g) (Some 1)))
    | None =>
        matches <- findMatches title 1 threshold ;;
        ret (List.hd_error matches)
    end.

End WithSearcher.

End GameMatcher.

(* ================================================================== *)
(** * The client (client/SteamClient.ts) *)

Module SteamClient.

(** [SteamClientConfig], without the members of the HTTP transport. *)
Record Config : Type := mkConfig {
  cacheTTL : option Z;
  cacheSize : option nat;
  rateLimit : option (Q * Q)   (* requests, perMs *)
}.

Definition DEFAULT_cacheTTL : Z := 3600000.
Definition DEFAULT_cacheSize : nat := 1000.
Definition DEFAULT_rateLimit : Q * Q := (200, 300000).
Definition DEFAULT_fuzzyThreshold : Q := 3 # 10.
Definition DEFAULT_includeAdult : bool := false.

(** [constructor(config)], at the time [t0] and talking to [service]. *)
Definition create (config : Config) (service : Remote.t) (t0 : Z) : World :=
  let ttl := match cacheTTL config with Some x => x | None => DEFAULT_cacheTTL end in
  let size := match cacheSize config with Some x => x | None => DEFAULT_cacheSize end in
  let rl := match rateLimit config with Some x => x | None => DEFAULT_rateLimit end in
  mkWorld t0 service []
          (TokenBucket.create (fst rl) (snd rl) t0)
          (Cache.create (list SteamGame.t) 1 86400000)
          (Cache.create SteamGameDetails.t size ttl)
          None.

(** [getGameDetails(appId)]. *)
Definition getGameDetails (appId : string) : M SteamGameDetails.t :=
  cached <- (fun w =>
               let (v, c) := Cache.get appId (now w) (detailsCache w) in
               (Ok v, set_detailsCache c w)) ;;
  match cached with
  | Some details => ret details
  | None =>
      details <- ApiClient.getGameDetails appId ;;
      (fun w =>
         (Ok tt,
          set_detailsCache
            (Cache.set appId details None (now w) (detailsCache w)) w)) ;;;
      ret details
  end.

(** [isAdultContent(game)]. *)
Definition isAdultContent (game : SteamGame.t) : M bool :=
  try_catch
    (details <- getGameDetails (SteamGame.appId game) ;;
     ret (AdultContentDetector.isAdult details))
    (fun _ => ret false).

(** [private isAdultContentFiltered(game)]. *)
Definition isAdultContentFiltered (game : SteamGame.t) : M bool :=
  b <- isAdultContent game ;;
  ret (negb b).

(** [clearCache()]. *)
Definition clearCache : M unit :=
  fun w =>
    (Ok tt,
     set_detailsCache (Cache.clear (detailsCache w))
       (set_appListCache (Cache.clear (appListCache w)) w)).

(** [getCacheStats()]. *)
Definition getCacheStats (w : World) : CacheStats.t :=
  let appListStats := Cache.getStats (appListCache w) in
  let detailsStats := Cache.getStats (detailsCache w) in
  let totalHits :=
    snd appListStats * inject_Z (Z.of_nat (fst appListStats)) +
    snd detailsStats * inject_Z (Z.of_nat (fst detailsStats)) in
  let totalSize := (fst appListStats + fst detailsStats)%nat in
  let combinedHitRate :=
    if (0 <? totalSize)%nat
    then totalHits / inject_Z (Z.of_nat totalSize)
    else 0 in
  CacheStats.mk (fst appListStats) (fst detailsStats) combinedHitRate.

Section WithSearcher.

Variable distance : string -> string -> option Q.

(** [searchGame(title, options?)]. *)
Definition searchGame (title : string) (options : SearchOptions.t)
  : M (option SteamGame.t) :=
  let fuzzyThreshold :=
    match SearchOptions.fuzzyThreshold options with
    | Some x => x | None => DEFAULT_fuzzyThreshold end in
  let includeAdult :=
    match SearchOptions.includeAdult options with
    | Some x => x | None => DEFAULT_includeAdult end in
  match_ <- GameMatcher.findBestMatch distance title fuzzyThreshold ;;
  match match_ with
  | None => ret None
  | Some game =>
      if negb includeAdult then
        filtered <- isAdultContentFiltered game ;;
        if negb filtered then ret None else ret (Some game)
      else ret (Some game)
  end.

(** [searchGames(title, limit = 5)]. *)
Definition searchGames (title : string) (limit : Z) : M (list SteamGame.t) :=
  GameMatcher.findMatches distance title limit DEFAULT_fuzzyThreshold.

(** The calls made on a client and its matcher, and the passing of time. *)
Inductive op : Type :=
| Advance (d : Z)
| ClearCache
| GetExactMatch (title : string)
| FindBestMatch (title : string) (threshold : Q)
| FindMatches (title : string) (limit : Z) (threshold : Q)
| SearchGame (title : string) (options : SearchOptions.t)
| SearchGames (title : string) (limit : Z)
| GetGameDetails (appId : string)
| IsAdultContent (game : SteamGame.t).

Definition step (w : World) (o : op) : World :=
  match o with
  | Advance d => set_now (now w + d)%Z w
  | ClearCache => snd (clearCache w)
  | GetExactMatch title => snd (GameMatcher.getExactMatch title w)
  | FindBestMatch title th => snd (GameMatcher.findBestMatch distance title th w)
  | FindMatches title limit th =>
      snd (GameMatcher.findMatches distance title limit th w)
  | SearchGame title options => snd (searchGame title options w)
  | SearchGames title limit => snd (searchGames title limit w)
  | GetGameDetails appId => snd (getGameDetails appId w)
  | IsAdultContent game => snd (isAdultContent game w)
  end.

Definition run (ops : list op) (w : World) : World := fold_left step ops w.

End WithSearcher.

End SteamClient.

(* ================================================================== *)
(** * Relating the state before and after a computation *)

Section Respects.

Variable R : World -> World -> Prop.

(** Whatever its outcome, [m] takes a state to one related to it by [R]. *)
Definition respects {A : Type} (m : M A) : Prop :=
  forall w, R w (snd (m w)).

End Respects.

(** Only the state of the HTTP client (the rate limiter and the log of the
    requests sent) may differ. *)
Definition api_frame (w w' : World) : Prop :=
  now w' = now w /\ remote w' = remote w /\
  appListCache w' = appListCache w /\ detailsCache w' = detailsCache w /\
  fuse w' = fuse w.

(** An index over the collection [f] that is there stays there. *)
Definition keeps_index (f : Fuse.t) (w w' : World) : Prop :=
  fuse w = Some f -> fuse w' = Some f.

(** The number of [get] calls a cache has counted. *)
Definition lookups {V : Type} (c : Cache.t V) : nat :=
  (Cache.hits c + Cache.misses c)%nat.

(** The catalog a [get] on the catalog cache would find now. *)
Definition cached_catalog (w : World) : option (list SteamGame.t) :=
  LRUCache.peek GameMatcher.APP_LIST_CACHE_KEY (now w)
                (Cache.cache (appListCache w)).

(** [m] is the first entry of [appList] whose normalized name is the
    normalized [title], or nothing when no entry has that normalized
    name. *)
Definition first_exact_match (title : string) (appList : list SteamGame.t)
           (m : option SteamGame.t) : Prop :=
  match m with
  | Some g =>
      exists i,
        nth_error appList i = Some g /\
        TitleNormalizer.normalize (SteamGame.name g)
        = TitleNormalizer.normalize title /\
        forall j g',
          (j < i)%nat -> nth_error appList j = Some g' ->
          TitleNormalizer.normalize (SteamGame.name g')
          <> TitleNormalizer.normalize title
  | None =>
      forall g',
        In g' appList ->
        TitleNormalizer.normalize (SteamGame.name g')
        <> TitleNormalizer.normalize title
  end.

(** The catalog entry made of a row of the service. *)
Definition catalog_entry (app : Remote.RawApp) : SteamGame.t :=
  SteamGame.mk (JsString.of_Z (Remote.appid app)) (Remote.name app) None.

(* ================================================================== *)
(** * Scenarios *)

Module Scenario.

(** A stand-in for the distance of the search library, to run scenarios: a
    name that contains the pattern, ignoring case, is a perfect match, and
    no other name matches. *)
Definition distance (pattern text : string) : option Q :=
  if JsString.includes pattern (JsString.toLowerCase text)
  then Some 0 else None.

Definition dota : Remote.RawApp := Remote.mkApp 570 "Dota 2".
Definition portal : Remote.RawApp := Remote.mkApp 400 "Portal".
Definition symbols : Remote.RawApp := Remote.mkApp 7 "???".

(** A service whose catalog changes after one second, and whose details
    requests time out. *)
Definition service : Remote.t :=
  Remote.mk
    (fun t => if (t <? 1000)%Z
              then [Remote.PageOk [dota; symbols] false]
              else [Remote.PageOk [portal] false])
    (fun _ _ => Remote.DetailsFail (AxiosError "timeout" None)).

Definition defaults : SteamClient.Config := SteamClient.mkConfig None None None.

(** [new SteamClient({ apiKey })] at time 0. *)
Definition client : World := SteamClient.create defaults service 0.

Definition free_game : SteamGameDetails.t :=
  SteamGameDetails.mk "570" "Dota 2" "game" 0 true ""
    (Some (PriceOverview.mk "USD" 999 999 0 "$9.99" "$9.99"))
    "Jul 9, 2013" [] [] [] None None [].

Definition unpriced_game : SteamGameDetails.t :=
  SteamGameDetails.mk "400" "Portal" "game" 0 false "" None
    "Oct 10, 2007" [] [] [] None None [].

(** A details cache that holds [free_game] until the time 3600000. *)
Definition warm_client : World :=
  set_detailsCache
    (Cache.set "570" free_game None 0 (detailsCache client)) client.

End Scenario.

(* ================================================================== *)
(** * Runs of a token bucket *)

Module BucketRun.

Import TokenBucket.

(** [k] calls of [tryConsume] in a row, all at the time [now]: their
    answers, in order, and the bucket they leave. *)
Fixpoint consume_times (k : nat) (now : Z) (b : t) : list bool * t :=
  match k with
  | O => ([], b)
  | S k' =>
      let (ok, b1) := tryConsume now b in
      let (oks, b2) := consume_times k' now b1 in
      (ok :: oks, b2)
  end.




End BucketRun.

(* ================================================================== *)
(** * Shapes of titles *)

Module TitleShape.

Import JsString.

(** The characters of a normalized title: a-z, 0-9, the space, the hyphen
    and the apostrophe. *)
Definition normal_char (c : ascii) : bool :=
  in_range 97 122 c || in_range 48 57 c ||
  (code c =? 32)%nat || (code c =? 45)%nat || (code c =? 39)%nat.

(** A letter, a digit or an apostrophe: what survives normalization. *)
Definition significant (c : ascii) : bool :=
  in_range 97 122 c || in_range 65 90 c || in_range 48 57 c ||
  (code c =? 39)%nat.

(** No two spaces in a row; [after_space] tells that the character before
    the string is a space. *)
Fixpoint single_spaced (after_space : bool) (s : string) : bool :=
  match s with
  | EmptyString => true
  | String c s' =>
      if (code c =? 32)%nat
      then negb after_space && single_spaced true s'
      else single_spaced false s'
  end.

(** The string with its letters a-z in upper case. *)
Fixpoint fold_case (s : string) : string :=
  match s with
  | EmptyString => EmptyString
  | String c s' => String (canon c) (fold_case s')
  end.

(** The class repetitions of the pattern exclude a bracket only. *)
Definition case_closed (r : Regex.t) : bool :=
  forallb (fun a =>
             match a with
             | Regex.StarNot x => Ascii.eqb x ")" || Ascii.eqb x "]"
             | _ => true
             end) r.

End TitleShape.

(* ================================================================== *)
(** * Outcomes of the HTTP client *)

(** One of the library's own errors. *)
Definition own_error (e : Thrown) : Prop := exists c, e = Custom c.

(** [m] keeps the property [P] of the state, whatever its outcome. *)
Definition keeps {A : Type} (P : World -> Prop) (m : M A) : Prop :=
  forall w, P w -> P (snd (m w)).

(** From a state with the property [P], [m] keeps [P] and throws errors of
    the kind [E] only. *)
Definition throws_within {A : Type} (P : World -> Prop) (E : Thrown -> Prop)
           (m : M A) : Prop :=
  forall w, P w -> P (snd (m w)) /\ forall e, fst (m w) = Err e -> E e.

(** A rate limiter with a positive capacity and a positive window, a token
    count within its bounds, and a clock and a time per token far enough
    from the largest time value for every retry time to be a date. *)
Definition limiter_sane (w : World) : Prop :=
  let b := rateLimiter w in
  0 < TokenBucket.capacity b /\ 0 < TokenBucket.refillInterval b /\
  TokenBucket.in_range b /\
  (0 <= now w <= 4000000000000000)%Z /\
  TokenBucket.refillInterval b / TokenBucket.capacity b
  <= inject_Z 4000000000000000.

(** The pages one download of the catalog reads from the answers of the
    service: up to the first page without more results.  [None] when the
    answers fail or run out before that page. *)
Fixpoint read_pages (pages : list Remote.page)
  : option (list (list Remote.RawApp)) :=
  match pages with
  | [] => None
  | Remote.PageFail _ :: _ => None
  | Remote.PageOk apps more :: rest =>
      if more then option_map (cons apps) (read_pages rest)
      else Some [apps]
  end.

(** The tokens of the rate limiter of a client. *)
Definition tokens_left (w : World) : Q := TokenBucket.tokens (rateLimiter w).

(* ================================================================== *)
(** * More scenarios *)

Module Scenario2.

(** A service that sends its catalog in two pages. *)
Definition paged_service : Remote.t :=
  Remote.mk
    (fun _ => [Remote.PageOk [Scenario.dota] true;
               Remote.PageOk [Scenario.portal] false])
    (fun _ _ => Remote.DetailsMissing).

Definition paged_client : World :=
  SteamClient.create Scenario.defaults paged_service 0.

(** A game for adults only, and a service that knows it. *)
Definition adult_game : SteamGameDetails.t :=
  SteamGameDetails.mk "999" "Night Shift" "game" 18 false "" None
    "Jan 1, 2020" [] [] [] None None [].

Definition adult_service : Remote.t :=
  Remote.mk
    (fun _ => [Remote.PageOk [Remote.mkApp 999 "Night Shift"] false])
    (fun _ _ => Remote.DetailsData adult_game).

Definition adult_client : World :=
  SteamClient.create Scenario.defaults adult_service 0.

(** A service that knows "Dota 2" and its details. *)
Definition dota_service : Remote.t :=
  Remote.mk
    (fun _ => [Remote.PageOk [Scenario.dota] false])
    (fun _ _ => Remote.DetailsData Scenario.free_game).

Definition dota_client : World :=
  SteamClient.create Scenario.defaults dota_service 0.

End Scenario2.

(* ================================================================== *)
(** * A scenario with graded matches *)

Module Scenario3.

(** A stand-in for the distance of the search library that grades its
    matches: a name that contains the pattern, ignoring case, is at the
    distance 1 - |pattern| / |name|, and no other name matches. *)
Definition distance (pattern text : string) : option Q :=
  if JsString.includes (JsString.toLowerCase pattern) (JsString.toLowerCase text)
  then Some (1 - inject_Z (Z.of_nat (String.length pattern))
                 / inject_Z (Z.of_nat (String.length text)))
  else None.

Definition catalog : list Remote.RawApp :=
  [ Remote.mkApp 1 "Portal Stories: Mel";
    Remote.mkApp 2 "Portal 2";
    Remote.mkApp 3 "Half-Life";
    Remote.mkApp 4 "Portal 3";
    Remote.mkApp 5 "Portal" ].

Definition service : Remote.t :=
  Remote.mk (fun _ => [Remote.PageOk catalog false])
            (fun _ _ => Remote.DetailsMissing).

Definition client : World := SteamClient.create Scenario.defaults service 0.

End Scenario3.

(* ================================================================== *)
(** * Entries that stay in a cache *)

(** The cache holds [v] under [k] until the time [T], with room for [room]
    more entries in front of it: the entry of [k] comes after entries of
    other keys only, and it would still be within the capacity with [room]
    more of them. *)
Definition held {V : Type} (k : string) (v : V) (T : Z) (room : nat)
           (c : Cache.t V) : Prop :=
  exists front e back,
    LRUCache.entries (Cache.cache c) = (front ++ e :: back)%list /\
    LRUCache.key e = k /\ LRUCache.value e = v /\ LRUCache.expiresAt e = T /\
    Forall (fun x => LRUCache.key x <> k) front /\
    (List.length front + room < LRUCache.max (Cache.cache c))%nat.

(** An operation that neither clears the caches nor sets the clock back. *)
Definition quiet (o : SteamClient.op) : Prop :=
  match o with
  | SteamClient.ClearCache => False
  | SteamClient.Advance d => (0 <= d)%Z
  | _ => True
  end.

(** The number of details lookups for an application other than [appId] an
    operation can make: one at most. *)
Definition other_lookups (appId : string) (o : SteamClient.op) : nat :=
  match o with
  | SteamClient.GetGameDetails id => if String.eqb id appId then 0 else 1
  | SteamClient.IsAdultContent game =>
      if String.eqb (SteamGame.appId game) appId then 0 else 1
  | SteamClient.SearchGame _ options =>
      match SearchOptions.includeAdult options with
      | Some true => 0
      | _ => 1
      end
  | _ => 0
  end%nat.

(* ================================================================== *)
(** * Properties of the token bucket *)

Section TokenBucketFacts.

Import TokenBucket.

Lemma math_min_le_l (a b : Q) : math_min a b <= a.
Proof.
  unfold math_min. destruct (Qle_bool a b) eqn:E.
  - apply Qle_refl.
  - apply Qlt_le_weak. apply Qnot_le_lt. intro H.
    apply Qle_bool_iff in H. congruence.
Qed.

Lemma math_min_glb (a b c : Q) : c <= a -> c <= b -> c <= math_min a b.
Proof.
  intros Ha Hb. unfold math_min. destruct (Qle_bool a b); assumption.
Qed.

Lemma num_ge_true (a b : Q) : num_ge a b = true <-> b <= a.
Proof. unfold num_ge. apply Qle_bool_iff. Qed.

Lemma num_ge_false (a b : Q) : num_ge a b = false <-> a < b.
Proof.
  unfold num_ge. split; intro H.
  - apply Qnot_le_lt. intro H'. apply Qle_bool_iff in H'. congruence.
  - destruct (Qle_bool b a) eqn:E; [|reflexivity].
    apply Qle_bool_iff in E. exfalso. exact (Qlt_not_le _ _ H E).
Qed.

Lemma refill_capacity now b : capacity (refill now b) = capacity b.
Proof. unfold refill. destruct (0 <? now - lastRefill b)%Z; reflexivity. Qed.

Lemma refill_interval now b : refillInterval (refill now b) = refillInterval b.
Proof. unfold refill. destruct (0 <? now - lastRefill b)%Z; reflexivity. Qed.

Lemma refill_in_range now b :
  0 <= capacity b -> 0 < refillInterval b ->
  in_range b -> in_range (refill now b).
Proof.
  intros Hc Hi [H0 H1]. unfold refill, in_range.
  destruct (0 <? now - lastRefill b)%Z eqn:E; simpl; [|split; assumption].
  apply Z.ltb_lt in E. split.
  - apply math_min_glb; [assumption|].
    rewrite <- (Qplus_0_r 0). apply Qplus_le_compat; [assumption|].
    apply Qmult_le_0_compat; [|assumption].
    apply Qle_shift_div_l; [assumption|].
    rewrite Qmult_0_l. change 0 with (inject_Z 0). rewrite <- Zle_Qle. lia.
  - apply math_min_le_l.
Qed.

(** Refilling never lowers the token count and is monotone in the clock
    reading. *)
Lemma refill_tokens_ge now b :
  0 <= capacity b -> 0 < refillInterval b ->
  in_range b -> tokens b <= tokens (refill now b).
Proof.
  intros Hc Hi [H0 H1]. unfold refill.
  destruct (0 <? now - lastRefill b)%Z eqn:E; simpl; [|apply Qle_refl].
  apply Z.ltb_lt in E.
  apply math_min_glb; [assumption|].
  rewrite <- (Qplus_0_r (tokens b)) at 1. apply Qplus_le_compat; [apply Qle_refl|].
  apply Qmult_le_0_compat; [|assumption].
  apply Qle_shift_div_l; [assumption|].
  rewrite Qmult_0_l. change 0 with (inject_Z 0). rewrite <- Zle_Qle. lia.
Qed.

Lemma tryConsume_in_range now b :
  0 <= capacity b -> 0 < refillInterval b ->
  in_range b -> in_range (snd (tryConsume now b)).
Proof.
  intros Hc Hi Hr. pose proof (refill_in_range now b Hc Hi Hr) as [H0 H1].
  unfold tryConsume.
  destruct (num_ge (tokens (refill now b)) 1) eqn:E; simpl; [|split; assumption].
  apply num_ge_true in E. unfold in_range; simpl. split.
  - unfold Qminus. rewrite <- (Qplus_opp_r 1).
    apply Qplus_le_compat; [assumption|apply Qle_refl].
  - apply Qle_trans with (tokens (refill now b)); [|assumption].
    rewrite <- (Qplus_0_r (tokens (refill now b))) at 2.
    unfold Qminus. apply Qplus_le_compat; [apply Qle_refl|]. discriminate.
Qed.

Lemma tryConsume_capacity now b : capacity (snd (tryConsume now b)) = capacity b.
Proof.
  unfold tryConsume. destruct (num_ge _ _); simpl; apply refill_capacity.
Qed.

Lemma tryConsume_interval now b :
  refillInterval (snd (tryConsume now b)) = refillInterval b.
Proof.
  unfold tryConsume. destruct (num_ge _ _); simpl; apply refill_interval.
Qed.

Lemma getRetryAfter_state now now' b : snd (getRetryAfter now now' b) = refill now b.
Proof.
  unfold getRetryAfter. destruct (num_ge _ _); [reflexivity|].
  destruct (Qeq_bool _ _); reflexivity.
Qed.

Lemma step_ok cap itv s o :
  0 <= cap -> 0 < itv -> bucket_ok cap itv s -> bucket_ok cap itv (step s o).
Proof.
  intros Hc Hi (Ec & Ei & Hr).
  assert (Hc' : 0 <= capacity (bucket s)) by (rewrite Ec; assumption).
  assert (Hi' : 0 < refillInterval (bucket s)) by (rewrite Ei; assumption).
  destruct o; simpl; unfold bucket_ok; simpl.
  - auto.
  - rewrite tryConsume_capacity, tryConsume_interval.
    auto using tryConsume_in_range.
  - rewrite getRetryAfter_state, refill_capacity, refill_interval.
    auto using refill_in_range.
  - rewrite refill_capacity, refill_interval. auto using refill_in_range.
Qed.

Lemma run_ok cap itv ops : forall s,
  0 <= cap -> 0 < itv -> bucket_ok cap itv s -> bucket_ok cap itv (run ops s).
Proof.
  unfold run. induction ops as [|o ops IH]; intros s Hc Hi Hs; simpl.
  - assumption.
  - apply IH; auto using step_ok.
Qed.

Lemma fresh_ok cap itv t0 : 0 <= cap -> bucket_ok cap itv (fresh cap itv t0).
Proof.
  intro Hc. unfold bucket_ok, fresh, in_range; simpl.
  repeat split; [assumption|apply Qle_refl].
Qed.

End TokenBucketFacts.


(** C4.  A bucket starts full, and after any sequence of clock advances,
    [tryConsume], [getRetryAfter] and [getAvailableTokens] calls its token
    count lies within [0, capacity]: [getAvailableTokens] never reports more
    than the capacity, and [tryConsume] succeeds exactly when the refilled
    count is at least one, taking exactly one token off that count. *)
Theorem token_count_within_capacity
  (cap itv : Q) (t0 : Z) (ops : list TokenBucket.op) :
  0 <= cap -> 0 < itv ->
  let b0 := TokenBucket.bucket (TokenBucket.fresh cap itv t0) in
  let b := TokenBucket.bucket (TokenBucket.run ops (TokenBucket.fresh cap itv t0)) in
  TokenBucket.tokens b0 = cap /\
  TokenBucket.capacity b = cap /\
  0 <= TokenBucket.tokens b /\ TokenBucket.tokens b <= cap /\
  (forall now,
      (0 <= fst (TokenBucket.getAvailableTokens now b))%Z /\
      inject_Z (fst (TokenBucket.getAvailableTokens now b)) <= cap) /\
  (forall now,
      fst (TokenBucket.tryConsume now b) = true <->
      1 <= TokenBucket.tokens (TokenBucket.refill now b)) /\
  (forall now,
      fst (TokenBucket.tryConsume now b) = true ->
      TokenBucket.tokens (snd (TokenBucket.tryConsume now b)) =
      TokenBucket.tokens (TokenBucket.refill now b) - 1) /\
  (forall now,
      fst (TokenBucket.tryConsume now b) = false ->
      snd (TokenBucket.tryConsume now b) = TokenBucket.refill now b).
Proof.
  intros Hc Hi b0 b.
  destruct (run_ok cap itv ops (TokenBucket.fresh cap itv t0) Hc Hi
              (fresh_ok cap itv t0 Hc)) as (Ec & Ei & Hr).
  fold b in Ec, Ei, Hr.
  assert (Hc' : 0 <= TokenBucket.capacity b) by (rewrite Ec; assumption).
  assert (Hi' : 0 < TokenBucket.refillInterval b) by (rewrite Ei; assumption).
  split; [reflexivity|]. split; [assumption|].
  pose proof Hr as [H0 H1]. rewrite Ec in H1.
  split; [assumption|]. split; [assumption|].
  split; [|split; [|split]].
  - intro now. simpl.
    destruct (refill_in_range now b Hc' Hi' Hr) as [R0 R1].
    rewrite refill_capacity, Ec in R1. split.
    + change 0%Z with (Qfloor (inject_Z 0)). rewrite Qfloor_Z.
      rewrite <- (Qfloor_Z 0). apply Qfloor_resp_le. exact R0.
    + apply Qle_trans with (TokenBucket.tokens (TokenBucket.refill now b));
        [apply Qfloor_le | exact R1].
  - intro now. unfold TokenBucket.tryConsume.
    destruct (num_ge (TokenBucket.tokens (TokenBucket.refill now b)) 1) eqn:E; simpl.
    + apply num_ge_true in E. tauto.
    + apply num_ge_false in E. split; [discriminate|].
      intro H. exfalso. exact (Qlt_not_le _ _ E H).
  - intro now. unfold TokenBucket.tryConsume.
    destruct (num_ge (TokenBucket.tokens (TokenBucket.refill now b)) 1); simpl;
      [reflexivity|discriminate].
  - intro now. unfold TokenBucket.tryConsume.
    destruct (num_ge (TokenBucket.tokens (TokenBucket.refill now b)) 1); simpl;
      [discriminate|reflexivity].
Qed.

(** The scenario of a bucket of two tokens refilled over ten seconds. *)
Lemma token_count_within_capacity_witness :
  let ops := [TokenBucket.TryConsume; TokenBucket.TryConsume;
              TokenBucket.TryConsume; TokenBucket.Advance 5000;
              TokenBucket.GetRetryAfter; TokenBucket.TryConsume;
              TokenBucket.GetAvailableTokens] in
  0 <= 2 /\ 0 < 10000 /\
  TokenBucket.tokens
    (TokenBucket.bucket (TokenBucket.run ops (TokenBucket.fresh 2 10000 0))) <= 2.
Proof.
  intro ops.
  assert (H1 : 0 <= 2) by (unfold Qle; simpl; lia).
  assert (H2 : 0 < 10000) by (unfold Qlt; simpl; lia).
  split; [exact H1|]. split; [exact H2|].
  exact (proj1 (proj2 (proj2 (proj2
           (token_count_within_capacity 2 10000 0 ops H1 H2))))).
Defined.

(* ================================================================== *)
(** * The retry time, in double precision *)

Section RetryTimeFacts.

Import TokenBucket64.

Lemma refill64_capacity now b : capacity (refill now b) = capacity b.
Proof. unfold refill. destruct (Float64.gt _ _); reflexivity. Qed.

Lemma refill64_interval now b : refillInterval (refill now b) = refillInterval b.
Proof. unfold refill. destruct (Float64.gt _ _); reflexivity. Qed.

Lemma getRetryAfter64_state now now' b :
  snd (getRetryAfter now now' b) = refill now b.
Proof. unfold getRetryAfter. destruct (Float64.ge _ _); reflexivity. Qed.

End RetryTimeFacts.

(** C5, as the code has it.  [getRetryAfter] first refills; it then returns
    the current time when at least one token is there, and otherwise the
    current time plus the ceiling of the product of [1 - tokens] and
    [refillInterval / capacity], where the difference, the quotient and the
    product are each rounded to a double. *)
Theorem retry_after_timestamp (b : TokenBucket64.t) (now now' : Z) :
  let b1 := TokenBucket64.refill now b in
  let r := TokenBucket64.getRetryAfter now now' b in
  snd r = b1 /\
  (Float64.ge (TokenBucket64.tokens b1) Float64.one = true ->
   fst r = Float64.of_Z now') /\
  (Float64.ge (TokenBucket64.tokens b1) Float64.one = false ->
   fst r =
   Float64.add (Float64.of_Z now')
     (Float64.ceil
        (Float64.mul
           (Float64.sub Float64.one (TokenBucket64.tokens b1))
           (Float64.div (TokenBucket64.refillInterval b)
                        (TokenBucket64.capacity b))))).
Proof.
  intros b1 r. split; [apply getRetryAfter64_state|].
  unfold r, TokenBucket64.getRetryAfter. fold b1.
  destruct (Float64.ge (TokenBucket64.tokens b1) Float64.one); simpl.
  - split; [reflexivity|discriminate].
  - split; [discriminate|]. intros _. unfold b1.
    rewrite refill64_capacity, refill64_interval. reflexivity.
Qed.

(** The default bucket, emptied at the time 0 and asked at the time 270:
    the next token is announced for the time 1500. *)
Lemma retry_after_timestamp_witness :
  let b := TokenBucket64.consume_times 200 0 TokenBucket64.default_bucket in
  Float64.ge (TokenBucket64.tokens (TokenBucket64.refill 270 b)) Float64.one
  = false /\
  fst (TokenBucket64.getRetryAfter 270 270 b) = Float64.of_Z 1500.
Proof.
  intro b.
  assert (H : Float64.ge (TokenBucket64.tokens (TokenBucket64.refill 270 b))
                         Float64.one = false) by (vm_compute; reflexivity).
  split; [exact H|].
  rewrite (proj2 (proj2 (retry_after_timestamp b 270 270)) H).
  vm_compute. reflexivity.
Defined.

(** C5 fails in the arithmetic of the code.  The default bucket (200 tokens
    per 300000 ms) is emptied at the time 0 and asked at the time 270: the
    refill leaves the double nearest to 0.18, which is below 0.18, so the
    exact value of [(1 - tokens) * refillInterval / capacity] is above 1230
    and its ceiling is 1231; the code rounds [1 - tokens] to 0.82 and
    returns 270 + 1230.  Rounding the formula as it is written, from left to
    right, gives 1501 as well. *)
Lemma retry_after_is_rounded :
  let b := TokenBucket64.consume_times 200 0 TokenBucket64.default_bucket in
  let b1 := TokenBucket64.refill 270 b in
  TokenBucket64.tokens b = Float64.zero /\
  TokenBucket64.tokens b1 = Float64.div (Float64.of_Z 18) (Float64.of_Z 100) /\
  Float64.to_Q (TokenBucket64.tokens b1) < 18 # 100 /\
  Float64.ge (TokenBucket64.tokens b1) Float64.one = false /\
  fst (TokenBucket64.getRetryAfter 270 270 b) = Float64.of_Z 1500 /\
  TokenBucket64.exact_retry_time 270 b1 = 1501%Z /\
  TokenBucket64.rounded_retry_time 270 b1 = Float64.of_Z 1501 /\
  ~ (forall b now now',
       let b1 := TokenBucket64.refill now b in
       Float64.ge (TokenBucket64.tokens b1) Float64.one = false ->
       fst (TokenBucket64.getRetryAfter now now' b)
       = Float64.of_Z (TokenBucket64.exact_retry_time now' b1)) /\
  ~ (forall b now now',
       let b1 := TokenBucket64.refill now b in
       Float64.ge (TokenBucket64.tokens b1) Float64.one = false ->
       fst (TokenBucket64.getRetryAfter now now' b)
       = TokenBucket64.rounded_retry_time now' b1).
Proof.
  intros b b1.
  split; [vm_compute; reflexivity|].
  split; [vm_compute; reflexivity|].
  split; [vm_compute; reflexivity|].
  split; [vm_compute; reflexivity|].
  split; [vm_compute; reflexivity|].
  split; [vm_compute; reflexivity|].
  split; [vm_compute; reflexivity|].
  split; intro claim;
    specialize (claim b 270%Z 270%Z ltac:(vm_compute; reflexivity));
    vm_compute in claim; discriminate claim.
Qed.

(* ================================================================== *)
(** * A bucket without a capacity *)

Section ZeroCapacityFacts.

Import TokenBucket64.

Lemma one_is_finite : Float64.one = S754_finite false 4503599627370496 (-52).
Proof. vm_compute. reflexivity. Qed.

Lemma mul_zero_r x s : zero_or_nan (Float64.mul x (S754_zero s)).
Proof. destruct x; exact I. Qed.

Lemma add_zero_or_nan a b :
  zero_or_nan a -> zero_or_nan b -> zero_or_nan (Float64.add a b).
Proof.
  destruct a as [sa| | |]; destruct b as [sb| | |]; simpl; try tauto.
  intros _ _. destruct sa, sb; exact I.
Qed.

Lemma min_zero_or_nan s b :
  zero_or_nan b -> zero_or_nan (Float64.min (S754_zero s) b).
Proof. destruct b; simpl; tauto. Qed.

Lemma zero_or_nan_below_one x :
  zero_or_nan x -> Float64.ge x Float64.one = false.
Proof. rewrite one_is_finite. destruct x; simpl; tauto. Qed.

(** What a bucket without a capacity keeps: no capacity and no token. *)
Lemma refill_without_capacity now b :
  zero_or_nan (tokens b) -> (exists s, capacity b = S754_zero s) ->
  zero_or_nan (tokens (refill now b)) /\
  capacity (refill now b) = capacity b /\
  refillInterval (refill now b) = refillInterval b.
Proof.
  intros Ht [s Hc]. unfold refill.
  destruct (Float64.gt _ _); simpl; [|auto].
  split; [|auto]. rewrite Hc.
  apply min_zero_or_nan, add_zero_or_nan; [exact Ht|apply mul_zero_r].
Qed.

Lemma step_without_capacity itv s0 o :
  (zero_or_nan (tokens (bucket s0)) /\
   (exists s, capacity (bucket s0) = S754_zero s) /\
   refillInterval (bucket s0) = itv) ->
  zero_or_nan (tokens (bucket (step s0 o))) /\
  (exists s, capacity (bucket (step s0 o)) = S754_zero s) /\
  refillInterval (bucket (step s0 o)) = itv.
Proof.
  intros (Ht & Hc & Hi).
  assert (R : forall now,
             zero_or_nan (tokens (refill now (bucket s0))) /\
             (exists s, capacity (refill now (bucket s0)) = S754_zero s) /\
             refillInterval (refill now (bucket s0)) = itv).
  { intro now. destruct (refill_without_capacity now _ Ht Hc) as (A & B & C).
    rewrite B, C. auto. }
  destruct o; simpl.
  - auto.
  - unfold tryConsume. destruct (R (clock s0)) as (A & B & C).
    rewrite (zero_or_nan_below_one _ A). simpl. auto.
  - rewrite getRetryAfter64_state. apply R.
  - apply R.
Qed.

Lemma run_without_capacity itv ops : forall s0,
  (zero_or_nan (tokens (bucket s0)) /\
   (exists s, capacity (bucket s0) = S754_zero s) /\
   refillInterval (bucket s0) = itv) ->
  zero_or_nan (tokens (bucket (run ops s0))) /\
  (exists s, capacity (bucket (run ops s0)) = S754_zero s) /\
  refillInterval (bucket (run ops s0)) = itv.
Proof.
  unfold run. induction ops as [|o ops IH]; intros s0 H; simpl; [exact H|].
  apply IH, step_without_capacity, H.
Qed.

(** Dividing by a zero never gives a finite number, and neither do a
    product and a sum built on the quotient. *)
Lemma div_by_zero x s : Float64.is_finite (Float64.div x (S754_zero s)) = false.
Proof. destruct x; reflexivity. Qed.

Lemma mul_not_finite x y :
  Float64.is_finite y = false -> Float64.is_finite (Float64.mul x y) = false.
Proof. destruct x, y; simpl; congruence. Qed.

Lemma ceil_not_finite y :
  Float64.is_finite y = false -> Float64.is_finite (Float64.ceil y) = false.
Proof. destruct y; simpl; congruence. Qed.

Lemma add_not_finite x y :
  Float64.is_finite y = false -> Float64.is_finite (Float64.add x y) = false.
Proof.
  destruct x as [sx|sx| |sx mx ex], y as [sy|sy| |sy my ey]; simpl;
    try congruence; intros _; try reflexivity.
  destruct sx, sy; reflexivity.
Qed.

End ZeroCapacityFacts.

(** X3.  A bucket built with a capacity of zero never grants a request:
    whatever its refill interval and whatever calls are made on it, at
    whatever times, [tryConsume] refuses, and the time [getRetryAfter]
    answers is an infinity or NaN, not a date. *)
Theorem zero_capacity_never_grants
  (sign : bool) (itv : Float64.t) (t0 : Z) (ops : list TokenBucket.op)
  (now now' : Z) :
  let b := TokenBucket64.bucket
             (TokenBucket64.run ops
                (TokenBucket64.fresh (S754_zero sign) itv t0)) in
  fst (TokenBucket64.tryConsume now b) = false /\
  Float64.is_finite (fst (TokenBucket64.getRetryAfter now now' b)) = false.
Proof.
  intro b.
  destruct (run_without_capacity itv ops
              (TokenBucket64.fresh (S754_zero sign) itv t0))
    as (Ht & Hc & Hi).
  { simpl. split; [exact I|]. split; [exists sign|]; reflexivity. }
  fold b in Ht, Hc, Hi.
  destruct (refill_without_capacity now b Ht Hc) as (Rt & Rc & Ri).
  pose proof (zero_or_nan_below_one _ Rt) as G.
  split.
  - unfold TokenBucket64.tryConsume. rewrite G. reflexivity.
  - unfold TokenBucket64.getRetryAfter. rewrite G. simpl.
    rewrite Rc. destruct Hc as [s ->].
    apply add_not_finite, ceil_not_finite, mul_not_finite, div_by_zero.
Qed.


(** C6.  The five reference titles of the normalizer. *)
Theorem normalize_reference_titles :
  TitleNormalizer.normalize "Cyberpunk 2077 (FitGirl Repack, Selective Download)"
    = "cyberpunk 2077"%string /\
  TitleNormalizer.normalize "Grand Theft Auto V: Premium Edition"
    = "grand theft auto v"%string /\
  TitleNormalizer.normalize "Spider-Man" = "spider-man"%string /\
  TitleNormalizer.normalize "" = ""%string /\
  TitleNormalizer.normalize "!@#$%" = ""%string.
Proof. repeat split; vm_compute; reflexivity. Qed.

(** C10.  A free game is priced "Free to Play" whatever its price record,
    and a game that is not free and has no price record has no price. *)
Theorem free_flag_takes_precedence (details : SteamGameDetails.t) :
  (SteamGameDetails.isFree details = true ->
   EnrichedGameData.price (MetadataExtractor.extractMetadata details)
     = Some "Free to Play"%string /\
   MetadataExtractor.formatPrice (SteamGameDetails.priceOverview details)
                                 (Some true)
     = Some "Free to Play"%string) /\
  (SteamGameDetails.isFree details = false ->
   SteamGameDetails.priceOverview details = None ->
   EnrichedGameData.price (MetadataExtractor.extractMetadata details) = None /\
   MetadataExtractor.formatPrice None (Some false) = None /\
   MetadataExtractor.formatPrice None None = None).
Proof.
  split.
  - intro H. unfold MetadataExtractor.extractMetadata; simpl. rewrite H.
    split; reflexivity.
  - intros H1 H2. unfold MetadataExtractor.extractMetadata; simpl.
    rewrite H1, H2. repeat split.
Qed.


(* ================================================================== *)
(** * Computations and the relations they respect *)

Section RespectsFacts.

Variable R : World -> World -> Prop.
Hypothesis R_refl : forall w, R w w.
Hypothesis R_trans : forall w1 w2 w3, R w1 w2 -> R w2 w3 -> R w1 w3.

Lemma respects_ret {A : Type} (a : A) : respects R (ret a).
Proof. intro w. apply R_refl. Qed.

Lemma respects_throw {A : Type} (e : Thrown) : respects R (@throw A e).
Proof. intro w. apply R_refl. Qed.

Lemma respects_bind {A B : Type} (m : M A) (k : A -> M B) :
  respects R m -> (forall a, respects R (k a)) -> respects R (bind m k).
Proof.
  intros Hm Hk w. unfold bind. specialize (Hm w).
  destruct (m w) as [[a|e] w']; simpl in *.
  - apply R_trans with w'; [assumption|apply Hk].
  - assumption.
Qed.

Lemma respects_try_catch {A : Type} (m : M A) (h : Thrown -> M A) :
  respects R m -> (forall e, respects R (h e)) -> respects R (try_catch m h).
Proof.
  intros Hm Hh w. unfold try_catch. specialize (Hm w).
  destruct (m w) as [[a|e] w']; simpl in *.
  - assumption.
  - apply R_trans with w'; [assumption|apply Hh].
Qed.

Lemma respects_handleError {A : Type} (error : Thrown) (context : string) :
  respects R (@ApiClient.handleError A error context).
Proof.
  unfold ApiClient.handleError.
  destruct error as [e|message [[|p|p]|]|message];
    try apply respects_throw.
  destruct (Pos.eq_dec p 401) as [->|Hp]; [apply respects_throw|].
  intro w. assert (E : forall (X Y : M A), snd (X w) = w -> snd (Y w) = w ->
    snd ((match p with 401%positive => X | _ => Y end) w) = w).
  { intros X Y HX HY.
    repeat (destruct p as [p|p|]; try exact HY; try exact HX). }
  rewrite E; [apply R_refl|reflexivity|reflexivity].
Qed.

(** The steps that respect [R], assumed for the primitive updates of the
    state of the HTTP client. *)
Hypothesis R_rateLimiter : forall b w, R w (set_rateLimiter b w).
Hypothesis R_requests : forall rs w, R w (set_requests rs w).

Lemma respects_canMakeRequest : respects R ApiClient.canMakeRequest.
Proof.
  intro w. unfold ApiClient.canMakeRequest.
  destruct (TokenBucket.tryConsume (now w) (rateLimiter w)); simpl.
  apply R_rateLimiter.
Qed.

Lemma respects_getRetryAfter : respects R ApiClient.getRetryAfter.
Proof.
  intro w. unfold ApiClient.getRetryAfter.
  destruct (TokenBucket.getRetryAfter (now w) (now w) (rateLimiter w)); simpl.
  apply R_rateLimiter.
Qed.

Lemma respects_checkRateLimit : respects R ApiClient.checkRateLimit.
Proof.
  unfold ApiClient.checkRateLimit.
  apply respects_bind; [apply respects_canMakeRequest|].
  intros [|]; simpl; [apply respects_ret|].
  apply respects_bind; [apply respects_getRetryAfter|].
  intro t. apply respects_throw.
Qed.

Lemma respects_send (r : request) : respects R (ApiClient.send r).
Proof. intro w. unfold ApiClient.send; simpl. apply R_requests. Qed.

Lemma respects_fetchPages pages : forall allApps,
  respects R (ApiClient.fetchPages pages allApps).
Proof.
  induction pages as [|[apps more|e] rest IH]; intro allApps; simpl.
  - apply respects_bind; [apply respects_send|]. intros _. apply respects_throw.
  - apply respects_bind; [apply respects_send|]. intros _.
    destruct more; [|apply respects_ret].
    apply respects_bind; [apply respects_checkRateLimit|]. intros _. apply IH.
  - apply respects_bind; [apply respects_send|]. intros _. apply respects_throw.
Qed.

Lemma respects_api_getAppList : respects R ApiClient.getAppList.
Proof.
  unfold ApiClient.getAppList.
  apply respects_bind; [apply respects_checkRateLimit|]. intros _.
  apply respects_try_catch.
  - intro w. apply respects_fetchPages.
  - intro e. apply respects_handleError.
Qed.

Lemma respects_api_getGameDetails appId :
  respects R (ApiClient.getGameDetails appId).
Proof.
  unfold ApiClient.getGameDetails.
  apply respects_bind; [apply respects_checkRateLimit|]. intros _.
  apply respects_try_catch.
  - apply respects_bind; [apply respects_send|]. intros _ w.
    destruct (Remote.appDetails (remote w) (now w) appId); apply R_refl.
  - intros [[]| |]; try apply respects_handleError. apply respects_throw.
Qed.

End RespectsFacts.

(* ================================================================== *)
(** * The cache and its statistics *)

Section CacheFacts.

Variable V : Type.

Lemma cache_get_lookups (k : string) (t : Z) (c : Cache.t V) :
  lookups (snd (Cache.get k t c)) = S (lookups c).
Proof.
  unfold Cache.get, lookups.
  destruct (LRUCache.get k t (Cache.cache c)) as [[v|] lru]; simpl; lia.
Qed.

Lemma cache_set_lookups k (v : V) ttl t c :
  lookups (Cache.set k v ttl t c) = lookups c.
Proof. reflexivity. Qed.

Lemma cache_get_counts (k : string) (t : Z) (c : Cache.t V) :
  match fst (Cache.get k t c) with
  | Some _ => Cache.hits (snd (Cache.get k t c)) = S (Cache.hits c) /\
              Cache.misses (snd (Cache.get k t c)) = Cache.misses c
  | None => Cache.hits (snd (Cache.get k t c)) = Cache.hits c /\
            Cache.misses (snd (Cache.get k t c)) = S (Cache.misses c)
  end.
Proof.
  unfold Cache.get.
  destruct (LRUCache.get k t (Cache.cache c)) as [[v|] lru]; simpl; auto.
Qed.

(** The counters of a cache are the numbers of hits and misses of the [get]
    calls made since the last [clear]. *)
Lemma run_tally (ops : list (Cache.op V)) : forall t c log t' c',
  Cache.run ops (t, c) = (log, (t', c')) ->
  Cache.tally log (Cache.hits c) (Cache.misses c)
  = (Cache.hits c', Cache.misses c').
Proof.
  induction ops as [|o ops IH]; intros t c log t' c' H; simpl in H.
  - inversion H; subst. reflexivity.
  - destruct o as [k|k v ttl|k| |d]; simpl in H.
    + pose proof (cache_get_counts k t c) as Hc.
      destruct (Cache.get k t c) as [[v|] c1]; simpl in Hc;
        destruct (Cache.run ops (t, c1)) as [log1 [t1 c2]] eqn:E;
        inversion H; subst; simpl;
        destruct Hc as [<- <-]; exact (IH _ _ _ _ _ E).
    + destruct (Cache.run ops (t, Cache.set k v ttl t c))
        as [log1 [t1 c2]] eqn:E.
      inversion H; subst; simpl. exact (IH _ _ _ _ _ E).
    + destruct (Cache.run ops (t, c)) as [log1 [t1 c2]] eqn:E.
      inversion H; subst; simpl. exact (IH _ _ _ _ _ E).
    + destruct (Cache.run ops (t, Cache.clear c)) as [log1 [t1 c2]] eqn:E.
      inversion H; subst; simpl. exact (IH _ _ _ _ _ E).
    + destruct (Cache.run ops ((t + d)%Z, c)) as [log1 [t1 c2]] eqn:E.
      inversion H; subst; simpl. exact (IH _ _ _ _ _ E).
Qed.

Lemma has_changes_nothing (k : string) (s : Z * Cache.t V) :
  snd (Cache.step s (Cache.OpHas k)) = s.
Proof. destruct s; reflexivity. Qed.

Lemma getStats_hitRate (c : Cache.t V) :
  (lookups c = 0%nat -> snd (Cache.getStats c) = 0) /\
  ((0 < lookups c)%nat ->
   snd (Cache.getStats c) =
   inject_Z (Z.of_nat (Cache.hits c)) / inject_Z (Z.of_nat (lookups c))).
Proof.
  unfold Cache.getStats, lookups; simpl. split; intro H.
  - rewrite H. reflexivity.
  - destruct (Cache.hits c + Cache.misses c)%nat; [lia|]. reflexivity.
Qed.

End CacheFacts.

(** C8.  The combined hit rate is the mean of the hit rates of the two
    caches weighted by their sizes, and 0 when both are empty; the hit rate
    of a cache is hits / (hits + misses), and 0 before any lookup, where the
    counters are those of the [get] calls since the last [clear] and [has]
    counts nothing. *)
Theorem combined_hit_rate :
  (forall w : World,
     let a := Cache.getStats (appListCache w) in
     let d := Cache.getStats (detailsCache w) in
     let stats := SteamClient.getCacheStats w in
     CacheStats.appListSize stats = fst a /\
     CacheStats.detailsCacheSize stats = fst d /\
     ((0 < fst a + fst d)%nat ->
      CacheStats.hitRate stats ==
      (snd a * inject_Z (Z.of_nat (fst a)) + snd d * inject_Z (Z.of_nat (fst d)))
      / (inject_Z (Z.of_nat (fst a)) + inject_Z (Z.of_nat (fst d)))) /\
     (fst a = 0%nat -> fst d = 0%nat -> CacheStats.hitRate stats = 0)) /\
  (forall (V : Type) (c : Cache.t V),
     (lookups c = 0%nat -> snd (Cache.getStats c) = 0) /\
     ((0 < lookups c)%nat ->
      snd (Cache.getStats c) =
      inject_Z (Z.of_nat (Cache.hits c)) / inject_Z (Z.of_nat (lookups c)))) /\
  (forall (V : Type) (maxSize : nat) (ttl t0 : Z) (ops : list (Cache.op V))
          log t c,
     Cache.run ops (t0, Cache.create V maxSize ttl) = (log, (t, c)) ->
     (Cache.hits c, Cache.misses c) = Cache.tally log 0 0) /\
  (forall (V : Type) (k : string) (s : Z * Cache.t V),
     snd (Cache.step s (Cache.OpHas k)) = s).
Proof.
  split; [|split; [|split]].
  - intros w a d stats. unfold stats, SteamClient.getCacheStats.
    cbv zeta. fold a d.
    cbn [CacheStats.appListSize CacheStats.detailsCacheSize CacheStats.hitRate].
    repeat split.
    + intro H. apply Nat.ltb_lt in H. rewrite H.
      rewrite (Nat2Z.inj_add (fst a) (fst d)), inject_Z_plus. apply Qeq_refl.
    + intros Ha Hd. rewrite Ha, Hd. reflexivity.
  - intros V c. apply getStats_hitRate.
  - intros V maxSize ttl t0 ops log t c H. symmetry.
    exact (run_tally V ops _ _ _ _ _ H).
  - intros V k s. apply has_changes_nothing.
Qed.

(** One miss, one entry stored, one hit: the hit rate is one half. *)
Lemma combined_hit_rate_witness :
  let ops := [Cache.OpGet "a"; Cache.OpSet "a" 1%nat None; Cache.OpHas "a";
              Cache.OpGet "a"] in
  let c := snd (snd (Cache.run ops (0%Z, Cache.create nat 5 1000))) in
  (0 < lookups c)%nat /\ snd (Cache.getStats c) = 1 # 2.
Proof.
  intros ops c.
  assert (H : (0 < lookups c)%nat) by (vm_compute; lia).
  split; [exact H|].
  rewrite (proj2 (proj1 (proj2 combined_hit_rate) nat c) H). reflexivity.
Defined.

(* ================================================================== *)
(** * Blank titles *)

Section BlankFacts.

Import JsString.

Lemma drop_while_all p s :
  (forall c, In c (chars s) -> p c = true) -> drop_while p s = EmptyString.
Proof.
  induction s as [|c s IH]; intro H; simpl; [reflexivity|].
  rewrite (H c (or_introl eq_refl)). apply IH.
  intros c' Hc'. apply H. right. exact Hc'.
Qed.

Lemma drop_while_head p s c r :
  drop_while p s = String c r -> p c = false.
Proof.
  induction s as [|c' s IH]; simpl; [discriminate|].
  destruct (p c') eqn:E; [exact IH|].
  intro H. inversion H; subst. exact E.
Qed.

Lemma drop_while_empty p s :
  drop_while p s = EmptyString -> forall c, In c (chars s) -> p c = true.
Proof.
  induction s as [|c' s IH]; simpl; [intros _ c []|].
  destruct (p c') eqn:E; [|discriminate].
  intros H c [<-|Hc]; [exact E|exact (IH H c Hc)].
Qed.

Lemma drop_while_end_empty p s :
  drop_while_end p s = EmptyString -> forall c, In c (chars s) -> p c = true.
Proof.
  induction s as [|c' s IH]; simpl; [intros _ c []|].
  destruct (drop_while_end p s) eqn:E; simpl; [|discriminate].
  destruct (p c') eqn:Ep; [|discriminate].
  intros _ c [<-|Hc]; [exact Ep|exact (IH eq_refl c Hc)].
Qed.

Lemma trim_empty s : trim s = EmptyString <-> whitespace_only s.
Proof.
  unfold trim, whitespace_only. split.
  - intro H. destruct (drop_while is_space s) as [|c r] eqn:E.
    + exact (drop_while_empty _ _ E).
    + pose proof (drop_while_head _ _ _ _ E) as Hc.
      pose proof (drop_while_end_empty _ _ H c (or_introl eq_refl)). congruence.
  - intro H. rewrite (drop_while_all _ _ H). reflexivity.
Qed.

(** The guard of the matcher holds exactly for the empty and the
    whitespace-only titles. *)
Lemma blank_iff title :
  GameMatcher.blank title = true <-> whitespace_only title.
Proof.
  unfold GameMatcher.blank. rewrite orb_true_iff, Nat.eqb_eq. split.
  - intros [H|H].
    + destruct title; [intros c []|discriminate].
    + apply trim_empty. destruct (trim title); [reflexivity|discriminate].
  - intro H. right. apply trim_empty in H. rewrite H. reflexivity.
Qed.

End BlankFacts.

(* ================================================================== *)
(** * What the HTTP client leaves alone *)

Lemma api_frame_refl w : api_frame w w.
Proof. unfold api_frame. auto. Qed.

Lemma api_frame_trans w1 w2 w3 :
  api_frame w1 w2 -> api_frame w2 w3 -> api_frame w1 w3.
Proof.
  unfold api_frame. intros (A1 & A2 & A3 & A4 & A5) (B1 & B2 & B3 & B4 & B5).
  repeat split; congruence.
Qed.

Lemma api_getAppList_frame : respects api_frame ApiClient.getAppList.
Proof.
  apply respects_api_getAppList;
    [exact api_frame_refl | exact api_frame_trans | |];
    intros; unfold api_frame; simpl; auto.
Qed.

Lemma api_getGameDetails_frame appId :
  respects api_frame (ApiClient.getGameDetails appId).
Proof.
  apply respects_api_getGameDetails;
    [exact api_frame_refl | exact api_frame_trans | |];
    intros; unfold api_frame; simpl; auto.
Qed.

(** Every call of the private [getAppList] of the matcher reads the catalog
    cache exactly once. *)
Lemma matcher_getAppList_lookups w :
  lookups (appListCache (snd (GameMatcher.getAppList w)))
  = S (lookups (appListCache w)).
Proof.
  unfold GameMatcher.getAppList, bind.
  pose proof (cache_get_lookups _ GameMatcher.APP_LIST_CACHE_KEY (now w)
                (appListCache w)) as L.
  destruct (Cache.get GameMatcher.APP_LIST_CACHE_KEY (now w) (appListCache w))
    as [[appList|] c]; simpl in L |- *; [exact L|].
  pose proof (api_getAppList_frame (set_appListCache c w)) as (_ & _ & F & _).
  destruct (ApiClient.getAppList (set_appListCache c w)) as [[raw|e] w1];
    simpl in F |- *; rewrite F; exact L.
Qed.

(** What [find] returns in [getExactMatch]. *)
Lemma find_first_exact_match (title : string) (appList : list SteamGame.t) :
  first_exact_match title appList
    (find (fun app =>
             String.eqb (TitleNormalizer.normalize (SteamGame.name app))
                        (TitleNormalizer.normalize title))
          appList).
Proof.
  induction appList as [|g l IH]; simpl.
  - intros g' [].
  - destruct (String.eqb_spec (TitleNormalizer.normalize (SteamGame.name g))
                              (TitleNormalizer.normalize title)) as [E|N].
    + exists O. split; [reflexivity|]. split; [exact E|]. intros j g' Hj. lia.
    + destruct (find _ l) as [g0|]; simpl in IH |- *.
      * destruct IH as (i & Hi & He & Hb). exists (S i).
        split; [exact Hi|]. split; [exact He|].
        intros [|j] g' Hj Hn; simpl in Hn.
        -- inversion Hn; subst. exact N.
        -- apply (Hb j g'); [lia|exact Hn].
      * intros g' [<-|Hg]; [exact N|exact (IH g' Hg)].
Qed.

(** C2, as the code has it.  For an empty or whitespace-only title,
    [findBestMatch] returns no match and [findMatches] (and the
    [searchGames] built on it) the empty list, and the state is left as it
    was: the catalog cache is not read and nothing is fetched.
    [getExactMatch] has no such guard.  Whatever the title, it reads the
    catalog cache once; on a hit it answers from the cached catalog; on a
    miss it runs the catalog download of the HTTP client, whose error it
    passes on and whose rows it stores in the cache; and it returns the
    first entry of the catalog whose normalized name is the normalized
    title. *)
Theorem blank_title_guard
  (distance : string -> string -> option Q) (title : string) (w : World) :
  JsString.whitespace_only title ->
  (forall threshold,
     GameMatcher.findBestMatch distance title threshold w = (Ok None, w)) /\
  (forall limit threshold,
     GameMatcher.findMatches distance title limit threshold w = (Ok [], w)) /\
  (forall limit, SteamClient.searchGames distance title limit w = (Ok [], w)) /\
  (forall anyTitle w0,
     let lookup :=
       Cache.get GameMatcher.APP_LIST_CACHE_KEY (now w0) (appListCache w0) in
     let w1 := set_appListCache (snd lookup) w0 in
     lookups (appListCache (snd (GameMatcher.getExactMatch anyTitle w0)))
     = S (lookups (appListCache w0)) /\
     (forall appList,
        fst lookup = Some appList ->
        exists m,
          first_exact_match anyTitle appList m /\
          GameMatcher.getExactMatch anyTitle w0 = (Ok m, w1)) /\
     (fst lookup = None ->
      match ApiClient.getAppList w1 with
      | (Ok raw, w2) =>
          exists m,
            first_exact_match anyTitle (map catalog_entry raw) m /\
            GameMatcher.getExactMatch anyTitle w0
            = (Ok m,
               set_appListCache
                 (Cache.set GameMatcher.APP_LIST_CACHE_KEY
                    (map catalog_entry raw) (Some 86400000%Z) (now w2)
                    (appListCache w2)) w2)
      | (Err e, w2) => GameMatcher.getExactMatch anyTitle w0 = (Err e, w2)
      end)).
Proof.
  intro H. apply blank_iff in H.
  unfold SteamClient.searchGames, GameMatcher.findBestMatch,
    GameMatcher.findMatches.
  rewrite H. split; [intros; reflexivity|]. split; [intros; reflexivity|].
  split; [intros; reflexivity|].
  intros anyTitle w0. split; [|split].
  - unfold GameMatcher.getExactMatch, bind.
    pose proof (matcher_getAppList_lookups w0) as L.
    destruct (GameMatcher.getAppList w0) as [[appList|e] w2]; exact L.
  - intros appList Hit. eexists. split; [apply find_first_exact_match|].
    unfold GameMatcher.getExactMatch, GameMatcher.getAppList, bind, ret.
    destruct (Cache.get GameMatcher.APP_LIST_CACHE_KEY (now w0) (appListCache w0))
      as [v c]; simpl in Hit |- *. subst v. reflexivity.
  - intro Miss.
    unfold GameMatcher.getExactMatch, GameMatcher.getAppList, bind, ret.
    destruct (Cache.get GameMatcher.APP_LIST_CACHE_KEY (now w0) (appListCache w0))
      as [v c]; simpl in Miss |- *. subst v.
    destruct (ApiClient.getAppList (set_appListCache c w0)) as [[raw|e] w2];
      [|reflexivity].
    eexists. split; [apply find_first_exact_match|]. reflexivity.
Qed.

(** A title of three spaces on a client that never fetched anything. *)
Lemma blank_title_guard_witness :
  JsString.whitespace_only "   " /\
  GameMatcher.findMatches Scenario.distance "   " 5 (3 # 10) Scenario.client
  = (Ok [], Scenario.client).
Proof.
  assert (H : JsString.whitespace_only "   ").
  { intros c Hc. simpl in Hc.
    destruct Hc as [<-|[<-|[<-|[]]]]; reflexivity. }
  split; [exact H|].
  exact (proj1 (proj2 (blank_title_guard Scenario.distance "   "
                         Scenario.client H)) 5%Z (3 # 10)).
Defined.

(** C2 fails for [getExactMatch]: on a title of three spaces it reads the
    catalog cache, downloads the catalog and even returns the entry whose
    name normalizes to the empty string. *)
Lemma exact_match_of_blank_title_fetches :
  ~ (forall title w,
       JsString.whitespace_only title ->
       GameMatcher.getExactMatch title w = (Ok None, w)) /\
  JsString.whitespace_only "   " /\
  fst (GameMatcher.getExactMatch "   " Scenario.client)
  = Ok (Some (SteamGame.mk "7" "???" None)) /\
  requests (snd (GameMatcher.getExactMatch "   " Scenario.client))
  = [GetAppListPage] /\
  requests Scenario.client = [] /\
  Cache.misses (appListCache (snd (GameMatcher.getExactMatch "   " Scenario.client)))
  = 1%nat /\
  Cache.misses (appListCache Scenario.client) = 0%nat.
Proof.
  assert (H : JsString.whitespace_only "   ").
  { intros c Hc. simpl in Hc.
    destruct Hc as [<-|[<-|[<-|[]]]]; reflexivity. }
  split; [|split; [exact H|repeat split; vm_compute; reflexivity]].
  intro claim. specialize (claim "   "%string Scenario.client H).
  apply (f_equal fst) in claim. vm_compute in claim. discriminate.
Qed.

(* ================================================================== *)
(** * The store of the cache *)

Section LRUFacts.

Variable V : Type.

Lemma lookup_remove_same (k : string) (es : list (LRUCache.entry V)) :
  LRUCache.lookup k (LRUCache.remove k es) = None.
Proof.
  unfold LRUCache.lookup, LRUCache.remove.
  induction es as [|e es IH]; simpl; [reflexivity|].
  destruct (String.eqb (LRUCache.key e) k) eqn:E; simpl; [exact IH|].
  rewrite E. exact IH.
Qed.

Lemma lookup_remove_other (k k' : string) (es : list (LRUCache.entry V)) :
  k' <> k ->
  LRUCache.lookup k' (LRUCache.remove k es) = LRUCache.lookup k' es.
Proof.
  intro N. unfold LRUCache.lookup, LRUCache.remove.
  induction es as [|e es IH]; simpl; [reflexivity|].
  destruct (String.eqb (LRUCache.key e) k) eqn:E; simpl.
  - apply String.eqb_eq in E.
    destruct (String.eqb (LRUCache.key e) k') eqn:E'; [|exact IH].
    apply String.eqb_eq in E'. congruence.
  - destruct (String.eqb (LRUCache.key e) k'); [reflexivity|exact IH].
Qed.

Lemma remove_absent (k : string) (es : list (LRUCache.entry V)) :
  LRUCache.lookup k es = None -> LRUCache.remove k es = es.
Proof.
  unfold LRUCache.lookup, LRUCache.remove.
  induction es as [|e es IH]; simpl; [reflexivity|].
  destruct (String.eqb (LRUCache.key e) k); simpl; [discriminate|].
  intro H. rewrite (IH H). reflexivity.
Qed.

(** A [get] that finds nothing leaves the store without an entry for the
    key, removes nothing else, and changes nothing that is visible from
    then on. *)
Lemma lru_get_miss (k : string) (t : Z) (c : LRUCache.t V) :
  fst (LRUCache.get k t c) = None ->
  let c' := snd (LRUCache.get k t c) in
  LRUCache.entries c' = LRUCache.remove k (LRUCache.entries c) /\
  LRUCache.lookup k (LRUCache.entries c') = None /\
  (forall k' t', (t <= t')%Z -> LRUCache.peek k' t' c' = LRUCache.peek k' t' c).
Proof.
  unfold LRUCache.get, LRUCache.peek.
  destruct (LRUCache.lookup k (LRUCache.entries c)) as [e|] eqn:E.
  - destruct (LRUCache.live t e) eqn:L; simpl; [discriminate|].
    intros _. split; [reflexivity|]. split; [apply lookup_remove_same|].
    intros k' t' Ht. destruct (String.eqb_spec k' k) as [->|N].
    + rewrite lookup_remove_same, E.
      unfold LRUCache.live in *. apply Z.ltb_ge in L.
      destruct (t' <? LRUCache.expiresAt e)%Z eqn:L'; [|reflexivity].
      apply Z.ltb_lt in L'. lia.
    + rewrite (lookup_remove_other k k' _ N). reflexivity.
  - simpl. intros _. rewrite (remove_absent k _ E). rewrite E. auto.
Qed.

End LRUFacts.

(** C9.  When the fetch inside [getGameDetails] fails, the lookup had
    missed and nothing is written to the details cache: the store is the one
    the lookup left, without an entry for the id, and with the same visible
    contents.  A later call on that cache misses again and goes to the HTTP
    client.  When the lookup hits, the cached details are returned and the
    HTTP client is not used. *)
Theorem failed_fetch_is_not_cached (appId : string) (w : World) :
  (forall e w',
     SteamClient.getGameDetails appId w = (Err e, w') ->
     let c := snd (Cache.get appId (now w) (detailsCache w)) in
     fst (Cache.get appId (now w) (detailsCache w)) = None /\
     ApiClient.getGameDetails appId (set_detailsCache c w) = (Err e, w') /\
     detailsCache w' = c /\
     LRUCache.entries (Cache.cache (detailsCache w'))
     = LRUCache.remove appId (LRUCache.entries (Cache.cache (detailsCache w))) /\
     (forall k t, (now w <= t)%Z ->
        LRUCache.peek k t (Cache.cache (detailsCache w'))
        = LRUCache.peek k t (Cache.cache (detailsCache w))) /\
     (forall w2,
        detailsCache w2 = detailsCache w' ->
        let c2 := snd (Cache.get appId (now w2) (detailsCache w2)) in
        fst (Cache.get appId (now w2) (detailsCache w2)) = None /\
        SteamClient.getGameDetails appId w2
        = match ApiClient.getGameDetails appId (set_detailsCache c2 w2) with
          | (Ok details, w3) =>
              (Ok details,
               set_detailsCache
                 (Cache.set appId details None (now w3) (detailsCache w3)) w3)
          | (Err e2, w3) => (Err e2, w3)
          end)) /\
  (forall details c,
     Cache.get appId (now w) (detailsCache w) = (Some details, c) ->
     SteamClient.getGameDetails appId w = (Ok details, set_detailsCache c w) /\
     requests (set_detailsCache c w) = requests w /\
     rateLimiter (set_detailsCache c w) = rateLimiter w).
Proof.
  split.
  - intros e w' H c.
    unfold SteamClient.getGameDetails, bind in H.
    destruct (Cache.get appId (now w) (detailsCache w)) as [[d|] c0] eqn:G;
      simpl in c; subst c; [discriminate|].
    pose proof (api_getGameDetails_frame appId (set_detailsCache c0 w))
      as (_ & _ & _ & F & _).
    destruct (ApiClient.getGameDetails appId (set_detailsCache c0 w))
      as [[d|e'] w1] eqn:A; simpl in H; [discriminate|].
    inversion H; subst e' w1. simpl in F.
    assert (Lm : fst (LRUCache.get appId (now w) (Cache.cache (detailsCache w)))
                 = None /\
                 Cache.cache c0
                 = snd (LRUCache.get appId (now w) (Cache.cache (detailsCache w)))).
    { unfold Cache.get in G.
      destruct (LRUCache.get appId (now w) (Cache.cache (detailsCache w)))
        as [[v|] lru]; inversion G; subst; auto. }
    destruct Lm as [Lm Lc].
    destruct (lru_get_miss _ appId (now w) _ Lm) as (E1 & E2 & E3).
    rewrite <- Lc in E1, E2, E3.
    split; [reflexivity|]. split; [reflexivity|]. split; [exact F|].
    rewrite F. split; [exact E1|]. split; [exact E3|].
    intros w2 Hw2 c2.
    assert (G2 : fst (Cache.get appId (now w2) (detailsCache w2)) = None).
    { rewrite Hw2. unfold Cache.get, LRUCache.get. rewrite E2. reflexivity. }
    split; [exact G2|].
    unfold SteamClient.getGameDetails, bind. subst c2.
    destruct (Cache.get appId (now w2) (detailsCache w2)) as [[d|] c2];
      simpl in G2 |- *; [discriminate|].
    destruct (ApiClient.getGameDetails appId (set_detailsCache c2 w2))
      as [[d|e2] w3]; reflexivity.
  - intros details c G. unfold SteamClient.getGameDetails, bind.
    rewrite G. repeat split.
Qed.

(** A client whose details requests time out, and one with a warm cache. *)
Lemma failed_fetch_is_not_cached_witness :
  let r := SteamClient.getGameDetails "570" Scenario.client in
  r = (Err (Custom (SteamApiError
                      "Failed to fetch game details for app ID: 570: timeout" 0)),
       snd r) /\
  LRUCache.entries (Cache.cache (detailsCache (snd r))) = [] /\
  SteamClient.getGameDetails "570" Scenario.warm_client
  = (Ok Scenario.free_game,
     set_detailsCache
       (snd (Cache.get "570" 0 (detailsCache Scenario.warm_client)))
       Scenario.warm_client).
Proof.
  intro r.
  assert (H : r = (Err (Custom (SteamApiError
                      "Failed to fetch game details for app ID: 570: timeout" 0)),
                   snd r)) by (vm_compute; reflexivity).
  split; [exact H|]. split.
  - rewrite (proj1 (proj2 (proj2 (proj2
               (proj1 (failed_fetch_is_not_cached "570" Scenario.client)
                      _ _ H))))).
    reflexivity.
  - apply (proj2 (failed_fetch_is_not_cached "570" Scenario.warm_client)).
    vm_compute. reflexivity.
Defined.

(* ================================================================== *)
(** * Searching with the adult-content filter *)

(** [isAdultContent] always returns. *)
Lemma isAdultContent_returns (game : SteamGame.t) (w : World) :
  exists b w', SteamClient.isAdultContent game w = (Ok b, w').
Proof.
  unfold SteamClient.isAdultContent, try_catch, bind, ret.
  destruct (SteamClient.getGameDetails (SteamGame.appId game) w)
    as [[details|e] w']; simpl; eauto.
Qed.

(** C7.  In [searchGame] with the adult filter on, a failure of the details
    fetch for the matched entry is not passed on: the probe answers "not
    adult" and the match is returned.  [isAdultContent] never throws. *)
Theorem adult_probe_fails_open
  (distance : string -> string -> option Q)
  (title : string) (options : SearchOptions.t)
  (w w1 w2 : World) (game : SteamGame.t) (e : Thrown) :
  SearchOptions.includeAdult options <> Some true ->
  GameMatcher.findBestMatch distance title
    (match SearchOptions.fuzzyThreshold options with
     | Some x => x
     | None => SteamClient.DEFAULT_fuzzyThreshold
     end) w = (Ok (Some game), w1) ->
  SteamClient.getGameDetails (SteamGame.appId game) w1 = (Err e, w2) ->
  SteamClient.isAdultContent game w1 = (Ok false, w2) /\
  SteamClient.searchGame distance title options w = (Ok (Some game), w2) /\
  (forall g w0, exists b w0', SteamClient.isAdultContent g w0 = (Ok b, w0')).
Proof.
  intros Hopt Hmatch Hfail.
  assert (Hprobe : SteamClient.isAdultContent game w1 = (Ok false, w2)).
  { unfold SteamClient.isAdultContent, try_catch, bind. rewrite Hfail.
    reflexivity. }
  split; [exact Hprobe|]. split; [|exact isAdultContent_returns].
  unfold SteamClient.searchGame, bind. rewrite Hmatch.
  assert (Hadult : match SearchOptions.includeAdult options with
                   | Some x => x
                   | None => SteamClient.DEFAULT_includeAdult
                   end = false).
  { destruct (SearchOptions.includeAdult options) as [[|]|];
      [congruence|reflexivity|reflexivity]. }
  rewrite Hadult. simpl.
  unfold SteamClient.isAdultContentFiltered, bind. rewrite Hprobe. reflexivity.
Qed.

(** The catalog holds "Dota 2" and every details request times out: the
    search still returns the game. *)
Lemma adult_probe_fails_open_witness :
  let game := SteamGame.mk "570" "Dota 2" (Some 1) in
  let w1 := snd (GameMatcher.findBestMatch Scenario.distance "dota 2"
                   SteamClient.DEFAULT_fuzzyThreshold Scenario.client) in
  let w2 := snd (SteamClient.getGameDetails "570" w1) in
  SearchOptions.includeAdult SearchOptions.none <> Some true /\
  SteamClient.searchGame Scenario.distance "dota 2" SearchOptions.none
    Scenario.client = (Ok (Some game), w2).
Proof.
  intros game w1 w2.
  assert (H : SearchOptions.includeAdult SearchOptions.none <> Some true)
    by discriminate.
  split; [exact H|].
  refine (proj1 (proj2 (adult_probe_fails_open Scenario.distance "dota 2"
            SearchOptions.none Scenario.client w1 w2 game
            (Custom (SteamApiError
               "Failed to fetch game details for app ID: 570: timeout" 0))
            H _ _))).
  - vm_compute. reflexivity.
  - vm_compute. reflexivity.
Defined.

(** A free game with a price record, and a game without either. *)
Lemma free_flag_takes_precedence_witness :
  SteamGameDetails.isFree Scenario.free_game = true /\
  EnrichedGameData.price (MetadataExtractor.extractMetadata Scenario.free_game)
  = Some "Free to Play"%string /\
  SteamGameDetails.isFree Scenario.unpriced_game = false /\
  SteamGameDetails.priceOverview Scenario.unpriced_game = None /\
  EnrichedGameData.price (MetadataExtractor.extractMetadata Scenario.unpriced_game)
  = None.
Proof.
  split; [reflexivity|]. split.
  - exact (proj1 (proj1 (free_flag_takes_precedence Scenario.free_game) eq_refl)).
  - split; [reflexivity|]. split; [reflexivity|].
    exact (proj1 (proj2 (free_flag_takes_precedence Scenario.unpriced_game)
                    eq_refl eq_refl)).
Defined.

(* ================================================================== *)
(** * The order of the search results *)

Section FuseFacts.

Variable distance : string -> string -> option Q.

Lemma sortFn_true a b : Fuse.sortFn a b = true -> Fuse.before a b.
Proof.
  unfold Fuse.sortFn, Fuse.before.
  destruct (Qeq_bool (Fuse.h_score a) (Fuse.h_score b)) eqn:E; intro H.
  - right. split; [apply Qeq_bool_iff; exact E|apply Nat.ltb_lt; exact H].
  - left. apply Qnot_le_lt. intro L. apply Qle_bool_iff in L.
    rewrite L in H. discriminate.
Qed.

Lemma sortFn_false a b :
  Fuse.sortFn a b = false -> Fuse.h_idx a <> Fuse.h_idx b -> Fuse.before b a.
Proof.
  unfold Fuse.sortFn, Fuse.before.
  destruct (Qeq_bool (Fuse.h_score a) (Fuse.h_score b)) eqn:E; intros H N.
  - right. apply Qeq_bool_iff in E. apply Nat.ltb_ge in H.
    split; [symmetry; exact E|lia].
  - left. apply negb_false_iff in H. apply Qle_bool_iff in H.
    apply Qle_lteq in H. destruct H as [H|H]; [exact H|].
    exfalso. apply Qeq_bool_neq in E. apply E. symmetry. exact H.
Qed.

Lemma before_trans a b c :
  Fuse.before a b -> Fuse.before b c -> Fuse.before a c.
Proof.
  unfold Fuse.before. intros [H1|[H1 I1]] [H2|[H2 I2]].
  - left. eapply Qlt_trans; eassumption.
  - left. rewrite <- H2. exact H1.
  - left. rewrite H1. exact H2.
  - right. split; [rewrite H1; exact H2|lia].
Qed.

Lemma In_insert x y l : In y (Fuse.insert x l) <-> y = x \/ In y l.
Proof.
  induction l as [|z l IH]; simpl.
  - intuition.
  - destruct (Fuse.sortFn x z); simpl; [intuition|].
    rewrite IH. intuition.
Qed.

Lemma In_sort y l : In y (Fuse.sort l) <-> In y l.
Proof.
  unfold Fuse.sort. induction l as [|x l IH]; simpl; [reflexivity|].
  rewrite In_insert, IH. intuition.
Qed.

Lemma insert_sorted x l :
  StronglySorted Fuse.before l ->
  Forall (fun y => Fuse.h_idx x <> Fuse.h_idx y) l ->
  StronglySorted Fuse.before (Fuse.insert x l).
Proof.
  induction l as [|y l IH]; intros S D; simpl.
  - constructor; constructor.
  - inversion S as [|? ? Sl Fy]; subst. inversion D as [|? ? Dy Dl]; subst.
    destruct (Fuse.sortFn x y) eqn:E.
    + constructor; [exact S|]. constructor; [exact (sortFn_true _ _ E)|].
      rewrite Forall_forall in *. intros z Hz.
      exact (before_trans _ _ _ (sortFn_true _ _ E) (Fy z Hz)).
    + constructor; [exact (IH Sl Dl)|].
      rewrite Forall_forall in *. intros z Hz. apply In_insert in Hz.
      destruct Hz as [->|Hz]; [exact (sortFn_false _ _ E Dy)|exact (Fy z Hz)].
Qed.

Lemma sort_sorted l :
  NoDup (map Fuse.h_idx l) -> StronglySorted Fuse.before (Fuse.sort l).
Proof.
  induction l as [|x l IH]; intro N; simpl; [constructor|].
  inversion N as [|? ? Nx Nl]; subst.
  apply insert_sorted; [exact (IH Nl)|].
  rewrite Forall_forall. intros y Hy E. apply Nx. rewrite E.
  apply in_map. apply In_sort. exact Hy.
Qed.

(** Every candidate is a document of the collection, at the position it
    records, with the distance the library gives it. *)
Lemma scan_spec pattern ds : forall i h,
  In h (Fuse.scan distance pattern i ds) ->
  (i <= Fuse.h_idx h)%nat /\
  nth_error ds (Fuse.h_idx h - i) = Some (Fuse.h_item h) /\
  distance pattern (SteamGame.name (Fuse.h_item h)) = Some (Fuse.h_score h).
Proof.
  induction ds as [|g ds IH]; intros i h H; simpl in H; [contradiction|].
  assert (T : In h (Fuse.scan distance pattern (S i) ds) ->
              (i <= Fuse.h_idx h)%nat /\
              nth_error (g :: ds) (Fuse.h_idx h - i) = Some (Fuse.h_item h) /\
              distance pattern (SteamGame.name (Fuse.h_item h))
              = Some (Fuse.h_score h)).
  { intro H'. destruct (IH _ _ H') as (L & N & D).
    split; [lia|]. split; [|exact D].
    replace (Fuse.h_idx h - i)%nat with (S (Fuse.h_idx h - S i)) by lia.
    exact N. }
  destruct (distance pattern (SteamGame.name g)) as [d|] eqn:E; [|exact (T H)].
  destruct H as [<-|H]; [|exact (T H)].
  simpl. rewrite Nat.sub_diag. auto.
Qed.

Lemma scan_NoDup pattern ds : forall i,
  NoDup (map Fuse.h_idx (Fuse.scan distance pattern i ds)).
Proof.
  induction ds as [|g ds IH]; intro i; simpl; [constructor|].
  destruct (distance pattern (SteamGame.name g)); [|apply IH].
  simpl. constructor; [|apply IH].
  intro H. apply in_map_iff in H. destruct H as (h & E & H).
  apply scan_spec in H. lia.
Qed.

Lemma In_firstn_In {A : Type} (n : nat) (l : list A) (x : A) :
  In x (firstn n l) -> In x l.
Proof.
  revert l. induction n as [|n IH]; intros [|y l] H; simpl in *;
    try contradiction.
  destruct H as [H|H]; [left; exact H|right; exact (IH _ H)].
Qed.

Lemma firstn_sorted {A : Type} (R : A -> A -> Prop) (n : nat) (l : list A) :
  StronglySorted R l -> StronglySorted R (firstn n l).
Proof.
  revert l. induction n as [|n IH]; intros [|y l] S; simpl; try constructor.
  - inversion S; subst. apply IH. assumption.
  - inversion S as [|? ? Sl F]; subst. rewrite Forall_forall in *.
    intros z Hz. apply F. exact (In_firstn_In _ _ _ Hz).
Qed.

Lemma filter_sorted {A : Type} (R : A -> A -> Prop) (f : A -> bool) (l : list A) :
  StronglySorted R l -> StronglySorted R (filter f l).
Proof.
  induction l as [|y l IH]; intro S; simpl; [constructor|].
  inversion S as [|? ? Sl F]; subst.
  destruct (f y); [|exact (IH Sl)].
  constructor; [exact (IH Sl)|]. rewrite Forall_forall in *.
  intros z Hz. apply filter_In in Hz. apply F. tauto.
Qed.

Lemma filter_length {A : Type} (f : A -> bool) (l : list A) :
  (List.length (filter f l) <= List.length l)%nat.
Proof.
  induction l as [|y l IH]; simpl; [lia|]. destruct (f y); simpl; lia.
Qed.

Lemma filter_format threshold l :
  filter (GameMatcher.withinThreshold threshold) (map Fuse.format l)
  = map Fuse.format
        (filter (fun h => Qle_bool (Fuse.h_score h) threshold) l).
Proof.
  induction l as [|h l IH]; simpl; [reflexivity|].
  unfold GameMatcher.withinThreshold at 1; simpl.
  destruct (Qle_bool (Fuse.h_score h) threshold); simpl; rewrite IH; reflexivity.
Qed.

(** The list [findMatches] returns for an index [f]: its candidates within
    the threshold, ranked, at most [limit] of them. *)
Lemma ranked_results (f : Fuse.t) (pattern : string) (limit : Z) (threshold : Q) :
  (0 <= limit)%Z ->
  exists hits,
    map GameMatcher.toGame
        (filter (GameMatcher.withinThreshold threshold)
                (Fuse.search distance f pattern limit))
    = map (fun h => SteamGame.mk (SteamGame.appId (Fuse.h_item h))
                                 (SteamGame.name (Fuse.h_item h))
                                 (Some (1 - Fuse.h_score h))) hits /\
    (Z.of_nat (List.length hits) <= limit)%Z /\
    Forall (fun h =>
              nth_error (Fuse.docs f) (Fuse.h_idx h) = Some (Fuse.h_item h) /\
              distance pattern (SteamGame.name (Fuse.h_item h))
              = Some (Fuse.h_score h) /\
              Fuse.h_score h <= threshold) hits /\
    StronglySorted Fuse.before hits.
Proof.
  intro L. unfold Fuse.search.
  assert (E : (-1 <? limit)%Z = true) by (apply Z.ltb_lt; lia).
  rewrite E, filter_format, map_map.
  set (sorted := Fuse.sort (Fuse.scan distance pattern 0 (Fuse.docs f))).
  exists (filter (fun h => Qle_bool (Fuse.h_score h) threshold)
                 (firstn (Z.to_nat limit) sorted)).
  split; [reflexivity|]. split; [|split].
  - pose proof (filter_length (fun h => Qle_bool (Fuse.h_score h) threshold)
                  (firstn (Z.to_nat limit) sorted)).
    pose proof (firstn_le_length (Z.to_nat limit) sorted). lia.
  - rewrite Forall_forall. intros h H. apply filter_In in H.
    destruct H as [H T]. apply In_firstn_In in H.
    apply (proj1 (In_sort _ _)) in H.
    apply scan_spec in H. destruct H as (_ & N & D).
    rewrite Nat.sub_0_r in N. repeat split; try assumption.
    apply Qle_bool_iff. exact T.
  - apply filter_sorted, firstn_sorted, sort_sorted, scan_NoDup.
Qed.

(** Every document the library gives a distance is among the candidates, at
    its position. *)
Lemma scan_complete pattern ds : forall i0 i g d,
  nth_error ds i = Some g ->
  distance pattern (SteamGame.name g) = Some d ->
  In (Fuse.mkHit g (i0 + i) d) (Fuse.scan distance pattern i0 ds).
Proof.
  induction ds as [|a ds IH]; intros i0 i g d N D; [destruct i; discriminate|].
  destruct i as [|i]; simpl in N |- *.
  - inversion N; subst a. rewrite D, Nat.add_0_r. left. reflexivity.
  - replace (i0 + S i)%nat with (S i0 + i)%nat by lia.
    destruct (distance pattern (SteamGame.name a));
      [right|]; apply IH; assumption.
Qed.

(** An element of a sorted list is among the first [n], or the first [n]
    are [n] elements that all come before it. *)
Lemma sorted_cut {A : Type} (R : A -> A -> Prop) (n : nat) : forall l x,
  StronglySorted R l -> In x l ->
  In x (firstn n l) \/
  (List.length (firstn n l) = n /\ Forall (fun y => R y x) (firstn n l)).
Proof.
  induction n as [|n IH]; intros l x S H; [right; split; constructor|].
  destruct l as [|y l]; [contradiction|].
  inversion S as [|? ? Sl Fy]; subst. destruct H as [->|H]; [left; left; reflexivity|].
  destruct (IH l x Sl H) as [I|[Len F]]; [left; right; exact I|].
  right. simpl. split; [rewrite Len; reflexivity|].
  constructor; [|exact F]. rewrite Forall_forall in Fy. exact (Fy x H).
Qed.

Lemma filter_all {A : Type} (f : A -> bool) (l : list A) :
  Forall (fun y => f y = true) l -> filter f l = l.
Proof.
  induction 1 as [|y l Hy _ IH]; simpl; [reflexivity|].
  rewrite Hy, IH. reflexivity.
Qed.

Lemma before_score a b : Fuse.before a b -> Fuse.h_score a <= Fuse.h_score b.
Proof. intros [H|[H _]]; [apply Qlt_le_weak; exact H|rewrite H; apply Qle_refl]. Qed.

(** The list [findMatches] returns for an index [f] holds the best ranked
    candidates within the threshold: one of them is left out only when the
    limit is reached by candidates ranked before it. *)
Lemma ranked_results_complete (f : Fuse.t) (pattern : string) (limit : Z)
      (threshold : Q) :
  exists hits,
    map GameMatcher.toGame
        (filter (GameMatcher.withinThreshold threshold)
                (Fuse.search distance f pattern limit))
    = map (fun h => SteamGame.mk (SteamGame.appId (Fuse.h_item h))
                                 (SteamGame.name (Fuse.h_item h))
                                 (Some (1 - Fuse.h_score h))) hits /\
    ((0 <= limit)%Z -> (Z.of_nat (List.length hits) <= limit)%Z) /\
    Forall (fun h =>
              nth_error (Fuse.docs f) (Fuse.h_idx h) = Some (Fuse.h_item h) /\
              distance pattern (SteamGame.name (Fuse.h_item h))
              = Some (Fuse.h_score h) /\
              Fuse.h_score h <= threshold) hits /\
    StronglySorted Fuse.before hits /\
    (forall i g d,
       nth_error (Fuse.docs f) i = Some g ->
       distance pattern (SteamGame.name g) = Some d ->
       d <= threshold ->
       In (Fuse.mkHit g i d) hits \/
       ((0 <= limit)%Z /\ List.length hits = Z.to_nat limit /\
        Forall (fun h => Fuse.before h (Fuse.mkHit g i d)) hits)).
Proof.
  unfold Fuse.search. rewrite filter_format, map_map.
  set (sorted := Fuse.sort (Fuse.scan distance pattern 0 (Fuse.docs f))).
  set (within := fun h => Qle_bool (Fuse.h_score h) threshold).
  assert (Ss : StronglySorted Fuse.before sorted)
    by (apply sort_sorted, scan_NoDup).
  assert (Valid : forall h, In h sorted ->
            nth_error (Fuse.docs f) (Fuse.h_idx h) = Some (Fuse.h_item h) /\
            distance pattern (SteamGame.name (Fuse.h_item h))
            = Some (Fuse.h_score h)).
  { intros h H. apply (proj1 (In_sort _ _)) in H. apply scan_spec in H.
    destruct H as (_ & N & D). rewrite Nat.sub_0_r in N. auto. }
  assert (All : forall i g d,
            nth_error (Fuse.docs f) i = Some g ->
            distance pattern (SteamGame.name g) = Some d ->
            In (Fuse.mkHit g i d) sorted).
  { intros i g d N D. apply In_sort.
    exact (scan_complete pattern (Fuse.docs f) 0 i g d N D). }
  destruct (-1 <? limit)%Z eqn:E.
  - apply Z.ltb_lt in E.
    exists (filter within (firstn (Z.to_nat limit) sorted)).
    split; [reflexivity|]. split; [|split; [|split]].
    + intros _.
      pose proof (filter_length within (firstn (Z.to_nat limit) sorted)).
      pose proof (firstn_le_length (Z.to_nat limit) sorted). lia.
    + rewrite Forall_forall. intros h H. apply filter_In in H.
      destruct H as [H T]. apply In_firstn_In in H.
      destruct (Valid h H) as [N D]. repeat split; try assumption.
      apply Qle_bool_iff. exact T.
    + apply filter_sorted, firstn_sorted. exact Ss.
    + intros i g d N D T.
      destruct (sorted_cut Fuse.before (Z.to_nat limit) sorted _ Ss (All i g d N D))
        as [I|[Len F]].
      * left. apply filter_In. split; [exact I|].
        apply Qle_bool_iff. exact T.
      * right. split; [lia|].
        assert (K : filter within (firstn (Z.to_nat limit) sorted)
                    = firstn (Z.to_nat limit) sorted).
        { apply filter_all. rewrite Forall_forall in *. intros h H.
          apply Qle_bool_iff. apply Qle_trans with d; [|exact T].
          exact (before_score _ _ (F h H)). }
        rewrite K. split; [exact Len|exact F].
  - apply Z.ltb_ge in E.
    exists (filter within sorted).
    split; [reflexivity|]. split; [|split; [|split]].
    + intro L. lia.
    + rewrite Forall_forall. intros h H. apply filter_In in H.
      destruct H as [H T]. destruct (Valid h H) as [N D].
      repeat split; try assumption. apply Qle_bool_iff. exact T.
    + apply filter_sorted. exact Ss.
    + intros i g d N D T. left. apply filter_In.
      split; [exact (All i g d N D)|]. apply Qle_bool_iff. exact T.
Qed.

(** C3, as the code has it.  For a title that is not blank, [findMatches]
    returns candidates of the indexed catalog whose distance is at most the
    threshold, each with the score 1 - distance, best first, ties broken by
    the order of the catalog; for a limit that is not negative it returns at
    most [limit] of them; and it returns the best ones: a candidate within
    the threshold is left out only when [limit] candidates ranked before it
    are returned.  For a blank title it returns the empty list.  It returns
    whenever the index is there or the catalog can be obtained. *)
Theorem fuzzy_matches_ranked
  (title : string) (limit : Z) (threshold : Q) (w : World) :
  let pattern := TitleNormalizer.normalize title in
  (forall res w',
     ~ JsString.whitespace_only title ->
     GameMatcher.findMatches distance title limit threshold w = (Ok res, w') ->
     exists f hits,
       fuse w' = Some f /\
       res = map (fun h => SteamGame.mk (SteamGame.appId (Fuse.h_item h))
                                        (SteamGame.name (Fuse.h_item h))
                                        (Some (1 - Fuse.h_score h))) hits /\
       Forall (fun h =>
                 nth_error (Fuse.docs f) (Fuse.h_idx h) = Some (Fuse.h_item h) /\
                 distance pattern (SteamGame.name (Fuse.h_item h))
                 = Some (Fuse.h_score h) /\
                 Fuse.h_score h <= threshold) hits /\
       StronglySorted Fuse.before hits /\
       ((0 <= limit)%Z -> (Z.of_nat (List.length res) <= limit)%Z) /\
       (forall i g d,
          nth_error (Fuse.docs f) i = Some g ->
          distance pattern (SteamGame.name g) = Some d ->
          d <= threshold ->
          In (Fuse.mkHit g i d) hits \/
          ((0 <= limit)%Z /\ List.length res = Z.to_nat limit /\
           Forall (fun h => Fuse.before h (Fuse.mkHit g i d)) hits))) /\
  (JsString.whitespace_only title ->
   GameMatcher.findMatches distance title limit threshold w = (Ok [], w)) /\
  (forall f, fuse w = Some f ->
     exists res,
       GameMatcher.findMatches distance title limit threshold w = (Ok res, w)) /\
  (forall appList w1,
     fuse w = None -> GameMatcher.getAppList w = (Ok appList, w1) ->
     exists res w',
       GameMatcher.findMatches distance title limit threshold w = (Ok res, w')).
Proof.
  intro pattern. unfold GameMatcher.findMatches.
  destruct (GameMatcher.blank title) eqn:Hb.
  { split; [|split; [|split]].
    - intros res w' B. exfalso. apply B. apply blank_iff. exact Hb.
    - reflexivity.
    - intros f F. eexists. reflexivity.
    - intros appList w1 F G. do 2 eexists. reflexivity. }
  unfold GameMatcher.ensureFuseInitialized. unfold bind, ret.
  split; [|split; [|split]].
  - intros res w' _ H.
    assert (K : exists f,
               fuse w' = Some f /\
               res = map GameMatcher.toGame
                       (filter (GameMatcher.withinThreshold threshold)
                          (Fuse.search distance f pattern limit))).
    { destruct (fuse w) as [f|] eqn:F.
      - rewrite F in H. cbv iota in H. inversion H; subst. eauto.
      - destruct (GameMatcher.getAppList w) as [[appList|e] w1];
          simpl in H; [|discriminate].
        inversion H; subst. simpl. eauto. }
    destruct K as (f & F & ->).
    destruct (ranked_results_complete f pattern limit threshold)
      as (hits & E & Len & P & S & C).
    exists f, hits. rewrite E, length_map. auto 7.
  - intro B. apply blank_iff in B. congruence.
  - intros f F. rewrite F, F. eauto.
  - intros appList w1 F G. rewrite F. unfold bind. rewrite G. simpl. eauto.
Qed.

End FuseFacts.

(** Five games, four of them with "portal" in their name: the sole perfect
    match is the last of the catalog, two are tied at the distance 1/4 and
    one is beyond the threshold.  With a limit of five the three within the
    threshold are returned, ranked; with a limit of two the second of the
    tied ones is cut. *)
Lemma fuzzy_matches_ranked_witness :
  let search := fun limit =>
    GameMatcher.findMatches Scenario3.distance "Portal" limit (3 # 10)
      Scenario3.client in
  ~ JsString.whitespace_only "Portal" /\
  option_map (map SteamGame.name)
    (match fst (search 5%Z) with Ok res => Some res | Err _ => None end)
  = Some ["Portal"; "Portal 2"; "Portal 3"]%string /\
  option_map (map SteamGame.name)
    (match fst (search 2%Z) with Ok res => Some res | Err _ => None end)
  = Some ["Portal"; "Portal 2"]%string /\
  exists res hits,
    fst (search 2%Z) = Ok res /\
    List.length res = 2%nat /\
    StronglySorted Fuse.before hits /\
    Forall (fun h => Fuse.before h
                       (Fuse.mkHit (SteamGame.mk "4" "Portal 3" None) 3
                                   (1 - 6 / 8))) hits.
Proof.
  intro search.
  assert (B : ~ JsString.whitespace_only "Portal").
  { intro H. specialize (H "P"%char (or_introl eq_refl)). discriminate. }
  split; [exact B|].
  split; [vm_compute; reflexivity|]. split; [vm_compute; reflexivity|].
  destruct (search 2%Z) as [[res|e] w'] eqn:R;
    [|exfalso; apply (f_equal fst) in R; vm_compute in R; discriminate R].
  destruct (proj1 (fuzzy_matches_ranked Scenario3.distance "Portal" 2 (3 # 10)
                     Scenario3.client) res w' B R)
    as (f & hits & F & E & V & S & Len & C).
  assert (Ef : f = Fuse.mk (map catalog_entry Scenario3.catalog)).
  { apply (f_equal snd) in R. simpl in R. rewrite <- R in F.
    vm_compute in F. inversion F. reflexivity. }
  assert (Er : List.length res = 2%nat).
  { apply (f_equal fst) in R. vm_compute in R. inversion R. reflexivity. }
  exists res, hits. split; [reflexivity|]. split; [exact Er|].
  split; [exact S|].
  destruct (C 3%nat (SteamGame.mk "4" "Portal 3" None) (1 - 6 / 8)) as [I|(_ & _ & Fb)].
  - rewrite Ef. reflexivity.
  - vm_compute. reflexivity.
  - unfold Qle. simpl. lia.
  - exfalso. apply (in_map (fun h => SteamGame.mk
                               (SteamGame.appId (Fuse.h_item h))
                               (SteamGame.name (Fuse.h_item h))
                               (Some (1 - Fuse.h_score h)))) in I.
    rewrite <- E in I. apply (f_equal fst) in R. vm_compute in R.
    inversion R as [Rr]. rewrite <- Rr in I. simpl in I.
    destruct I as [I|[I|[]]]; discriminate I.
  - exact Fb.
Defined.

(** C3 fails for a negative limit: no list has at most [limit] entries.  A
    search with the limit -1 returns its match. *)
Lemma negative_limit_bounds_nothing :
  let r := GameMatcher.findMatches Scenario.distance "dota 2" (-1) (3 # 10)
             Scenario.client in
  ~ JsString.whitespace_only "dota 2" /\
  fst r = Ok [SteamGame.mk "570" "Dota 2" (Some 1)] /\
  ~ (forall distance title limit threshold w res w',
       ~ JsString.whitespace_only title ->
       GameMatcher.findMatches distance title limit threshold w = (Ok res, w') ->
       (Z.of_nat (List.length res) <= limit)%Z).
Proof.
  intro r.
  assert (B : ~ JsString.whitespace_only "dota 2").
  { intro H. specialize (H "d"%char (or_introl eq_refl)). discriminate. }
  assert (R : r = (Ok [SteamGame.mk "570" "Dota 2" (Some 1)], snd r))
    by (vm_compute; reflexivity).
  split; [exact B|]. split; [rewrite R; reflexivity|].
  intro claim.
  specialize (claim Scenario.distance "dota 2"%string (-1)%Z (3 # 10)
                    Scenario.client _ _ B R).
  simpl in claim. lia.
Qed.

(* ================================================================== *)
(** * The life of the search index *)

Section IndexFacts.

Variable distance : string -> string -> option Q.
Variable f : Fuse.t.

Lemma keeps_refl w : keeps_index f w w.
Proof. intro H. exact H. Qed.

Lemma keeps_trans w1 w2 w3 :
  keeps_index f w1 w2 -> keeps_index f w2 w3 -> keeps_index f w1 w3.
Proof. unfold keeps_index. auto. Qed.

Lemma keeps_same {A : Type} (m : M A) :
  (forall w, fuse (snd (m w)) = fuse w) -> respects (keeps_index f) m.
Proof. intros H w F. rewrite H. exact F. Qed.

Ltac keeps_step :=
  first
    [ apply (respects_ret _ keeps_refl)
    | apply (respects_throw _ keeps_refl)
    | apply (respects_bind _ keeps_trans); [ | intro]
    | apply (respects_try_catch _ keeps_trans); [ | intro] ].

Lemma keeps_api_getAppList : respects (keeps_index f) ApiClient.getAppList.
Proof.
  apply respects_api_getAppList;
    [exact keeps_refl | exact keeps_trans | |]; intros; intro F; exact F.
Qed.

Lemma keeps_api_getGameDetails appId :
  respects (keeps_index f) (ApiClient.getGameDetails appId).
Proof.
  apply respects_api_getGameDetails;
    [exact keeps_refl | exact keeps_trans | |]; intros; intro F; exact F.
Qed.

Lemma keeps_matcher_getAppList :
  respects (keeps_index f) GameMatcher.getAppList.
Proof.
  unfold GameMatcher.getAppList. keeps_step.
  - apply keeps_same. intro w.
    destruct (Cache.get GameMatcher.APP_LIST_CACHE_KEY (now w) (appListCache w));
      reflexivity.
  - destruct a as [appList|]; [keeps_step|].
    keeps_step; [exact keeps_api_getAppList|].
    keeps_step; [apply keeps_same; reflexivity|keeps_step].
Qed.

Lemma keeps_ensureFuseInitialized :
  respects (keeps_index f) GameMatcher.ensureFuseInitialized.
Proof.
  intros w F. unfold GameMatcher.ensureFuseInitialized. rewrite F. exact F.
Qed.

Lemma keeps_getExactMatch title :
  respects (keeps_index f) (GameMatcher.getExactMatch title).
Proof.
  unfold GameMatcher.getExactMatch. keeps_step;
    [exact keeps_matcher_getAppList|keeps_step].
Qed.

Lemma keeps_findMatches title limit threshold :
  respects (keeps_index f) (GameMatcher.findMatches distance title limit threshold).
Proof.
  unfold GameMatcher.findMatches. destruct (GameMatcher.blank title);
    [keeps_step|].
  keeps_step; [exact keeps_ensureFuseInitialized|].
  apply keeps_same. intro w.
  destruct (fuse w) eqn:E; unfold ret; simpl; exact E.
Qed.

Lemma keeps_findBestMatch title threshold :
  respects (keeps_index f) (GameMatcher.findBestMatch distance title threshold).
Proof.
  unfold GameMatcher.findBestMatch. destruct (GameMatcher.blank title);
    [keeps_step|].
  keeps_step; [apply keeps_getExactMatch|].
  destruct a as [g|]; [keeps_step|].
  keeps_step; [apply keeps_findMatches|keeps_step].
Qed.

Lemma keeps_getGameDetails appId :
  respects (keeps_index f) (SteamClient.getGameDetails appId).
Proof.
  unfold SteamClient.getGameDetails. keeps_step.
  - apply keeps_same. intro w.
    destruct (Cache.get appId (now w) (detailsCache w)); reflexivity.
  - destruct a as [details|]; [keeps_step|].
    keeps_step; [apply keeps_api_getGameDetails|].
    keeps_step; [apply keeps_same; reflexivity|keeps_step].
Qed.

Lemma keeps_isAdultContent game :
  respects (keeps_index f) (SteamClient.isAdultContent game).
Proof.
  unfold SteamClient.isAdultContent. keeps_step; [|keeps_step].
  keeps_step; [apply keeps_getGameDetails|keeps_step].
Qed.

Lemma keeps_searchGame title options :
  respects (keeps_index f) (SteamClient.searchGame distance title options).
Proof.
  unfold SteamClient.searchGame. keeps_step; [apply keeps_findBestMatch|].
  destruct a as [game|]; [|keeps_step].
  destruct (negb _); [|keeps_step].
  keeps_step.
  - unfold SteamClient.isAdultContentFiltered.
    keeps_step; [apply keeps_isAdultContent|keeps_step].
  - destruct (negb a); keeps_step.
Qed.

Lemma keeps_step_op (o : SteamClient.op) (w : World) :
  keeps_index f w (SteamClient.step distance w o).
Proof.
  destruct o; simpl.
  - intro F. exact F.
  - intro F. exact F.
  - apply keeps_getExactMatch.
  - apply keeps_findBestMatch.
  - apply keeps_findMatches.
  - apply keeps_searchGame.
  - apply keeps_findMatches.
  - apply keeps_getGameDetails.
  - apply keeps_isAdultContent.
Qed.

Lemma keeps_run (ops : list SteamClient.op) : forall w,
  keeps_index f w (SteamClient.run distance ops w).
Proof.
  unfold SteamClient.run. induction ops as [|o ops IH]; intro w; simpl.
  - apply keeps_refl.
  - apply keeps_trans with (SteamClient.step distance w o);
      [apply keeps_step_op|apply IH].
Qed.

(** With the index there, a fuzzy search is answered from it and touches
    nothing. *)
Lemma findMatches_from_index title limit threshold w :
  ~ JsString.whitespace_only title -> fuse w = Some f ->
  GameMatcher.findMatches distance title limit threshold w
  = (Ok (map GameMatcher.toGame
           (filter (GameMatcher.withinThreshold threshold)
              (Fuse.search distance f (TitleNormalizer.normalize title) limit))),
     w).
Proof.
  intros B F.
  assert (Hb : GameMatcher.blank title = false).
  { destruct (GameMatcher.blank title) eqn:E; [|reflexivity].
    exfalso. apply B. apply blank_iff. exact E. }
  unfold GameMatcher.findMatches. rewrite Hb.
  unfold GameMatcher.ensureFuseInitialized. unfold bind, ret.
  rewrite F, F. reflexivity.
Qed.

End IndexFacts.

(** C1, as the code has it.  The index is built at the first fuzzy search,
    over the catalog obtained then, and is never invalidated: whatever calls
    follow (clearing the caches, the passing of time, searches that fetch the
    catalog again), the index stays the one that was built, and every later
    fuzzy search is answered from it, leaving the state as it was: neither
    the cache is read nor the catalog fetched. *)
Theorem index_is_built_once
  (distance : string -> string -> option Q) (w : World) :
  (forall title limit threshold res w',
     ~ JsString.whitespace_only title -> fuse w = None ->
     GameMatcher.findMatches distance title limit threshold w = (Ok res, w') ->
     exists appList w1,
       GameMatcher.getAppList w = (Ok appList, w1) /\
       w' = set_fuse (Some (Fuse.mk appList)) w1) /\
  (forall f ops,
     fuse w = Some f ->
     let w' := SteamClient.run distance ops w in
     fuse w' = Some f /\
     forall title limit threshold,
       ~ JsString.whitespace_only title ->
       GameMatcher.findMatches distance title limit threshold w'
       = (Ok (map GameMatcher.toGame
                (filter (GameMatcher.withinThreshold threshold)
                   (Fuse.search distance f
                      (TitleNormalizer.normalize title) limit))),
          w')).
Proof.
  split.
  - intros title limit threshold res w' B F H.
    assert (Hb : GameMatcher.blank title = false).
    { destruct (GameMatcher.blank title) eqn:E; [|reflexivity].
      exfalso. apply B. apply blank_iff. exact E. }
    unfold GameMatcher.findMatches in H. rewrite Hb in H.
    unfold GameMatcher.ensureFuseInitialized in H. unfold bind, ret in H.
    rewrite F in H.
    destruct (GameMatcher.getAppList w) as [[appList|e] w1];
      simpl in H; [|discriminate].
    inversion H; subst. eauto.
  - intros f ops F w'.
    assert (F' : fuse w' = Some f) by exact (keeps_run distance f ops w F).
    split; [exact F'|].
    intros title limit threshold B.
    apply findMatches_from_index; assumption.
Qed.

(** The index built by a first search survives a clearing of the caches, two
    seconds and a new download of the catalog. *)
Lemma index_is_built_once_witness :
  let w1 := snd (GameMatcher.findMatches Scenario.distance "dota 2" 5 (3 # 10)
                   Scenario.client) in
  let f := Fuse.mk [SteamGame.mk "570" "Dota 2" None;
                    SteamGame.mk "7" "???" None] in
  let ops := [SteamClient.ClearCache; SteamClient.Advance 2000;
              SteamClient.GetExactMatch "portal"] in
  fuse w1 = Some f /\
  fuse (SteamClient.run Scenario.distance ops w1) = Some f.
Proof.
  intros w1 f ops.
  assert (F : fuse w1 = Some f) by (vm_compute; reflexivity).
  split; [exact F|].
  exact (proj1 (proj2 (index_is_built_once Scenario.distance w1) f ops F)).
Defined.

(** C1 fails.  A first fuzzy search builds the index over the catalog
    ("Dota 2", "???").  The caches are cleared, two seconds pass, and an
    exact-match lookup downloads the catalog again, which now holds "Portal"
    only.  The next fuzzy search still answers "Dota 2", from the index of
    the first catalog, and sends no request.  The same happens when the
    cached catalog expires (twenty-five hours pass) instead of being
    cleared.  Whatever the distance function of the search library, the
    index does not follow the cached catalog. *)
Lemma stale_index_after_clear :
  let search := GameMatcher.findMatches Scenario.distance "dota 2" 5 (3 # 10) in
  let old := [SteamGame.mk "570" "Dota 2" None; SteamGame.mk "7" "???" None] in
  let new := [SteamGame.mk "400" "Portal" None] in
  let w1 := snd (search Scenario.client) in
  let w2 := SteamClient.run Scenario.distance
              [SteamClient.ClearCache; SteamClient.Advance 2000;
               SteamClient.GetExactMatch "portal"] w1 in
  let w3 := SteamClient.run Scenario.distance
              [SteamClient.Advance 90000000;
               SteamClient.GetExactMatch "portal"] w1 in
  (cached_catalog w1 = Some old /\ fuse w1 = Some (Fuse.mk old)) /\
  (cached_catalog w2 = Some new /\
   fst (search w2) = Ok [SteamGame.mk "570" "Dota 2" (Some 1)] /\
   fuse (snd (search w2)) = Some (Fuse.mk old) /\
   requests (snd (search w2)) = requests w2) /\
  (cached_catalog w3 = Some new /\
   fst (search w3) = Ok [SteamGame.mk "570" "Dota 2" (Some 1)] /\
   fuse (snd (search w3)) = Some (Fuse.mk old) /\
   requests (snd (search w3)) = requests w3) /\
  ~ (exists distance,
       forall ops title limit threshold res w' f,
         ~ JsString.whitespace_only title ->
         GameMatcher.findMatches distance title limit threshold
           (SteamClient.run distance ops Scenario.client) = (Ok res, w') ->
         fuse w' = Some f ->
         cached_catalog w' = Some (Fuse.docs f)).
Proof.
  intros search old new w1 w2 w3.
  split; [split; vm_compute; reflexivity|].
  split; [repeat split; vm_compute; reflexivity|].
  split; [repeat split; vm_compute; reflexivity|].
  intros [distance claim].
  assert (B : ~ JsString.whitespace_only "dota 2").
  { intro H. specialize (H "d"%char (or_introl eq_refl)). discriminate. }
  set (ops := [SteamClient.FindMatches "dota 2" 5 (3 # 10);
               SteamClient.ClearCache; SteamClient.Advance 2000;
               SteamClient.GetExactMatch "portal"]).
  set (w := SteamClient.run distance ops Scenario.client).
  assert (F : fuse w = Some (Fuse.mk old)) by (vm_compute; reflexivity).
  assert (E : cached_catalog w = Some new) by (vm_compute; reflexivity).
  pose proof (findMatches_from_index distance (Fuse.mk old) "dota 2" 5 (3 # 10)
                w B F) as S.
  specialize (claim ops "dota 2"%string 5%Z (3 # 10) _ w (Fuse.mk old) B S F).
  rewrite E in claim. discriminate claim.
Qed.

(* ================================================================== *)
(** * The token bucket over time *)

Section BucketRunFacts.

Import TokenBucket BucketRun.

Lemma num_ge_comp (a b c : Q) : a == b -> num_ge a c = num_ge b c.
Proof.
  intro E. destruct (num_ge b c) eqn:H.
  - apply num_ge_true. rewrite E. apply num_ge_true. exact H.
  - apply num_ge_false. rewrite E. apply num_ge_false. exact H.
Qed.

Lemma refill_same_instant now b :
  (now <= lastRefill b)%Z -> refill now b = b.
Proof.
  intro H. unfold refill.
  destruct (0 <? now - lastRefill b)%Z eqn:E; [|reflexivity].
  apply Z.ltb_lt in E. lia.
Qed.

Lemma consume_burst now (k : nat) : forall b,
  lastRefill b = now -> tokens b == inject_Z (Z.of_nat k) ->
  fst (consume_times (S k) now b) = (repeat true k ++ [false])%list.
Proof.
  induction k as [|k IH]; intros b L T.
  - simpl. unfold tryConsume. rewrite (refill_same_instant now b) by lia.
    rewrite (num_ge_comp _ _ 1 T). reflexivity.
  - change (consume_times (S (S k)) now b)
      with (let (ok, b1) := tryConsume now b in
            let (oks, b2) := consume_times (S k) now b1 in (ok :: oks, b2)).
    unfold tryConsume at 1.
    rewrite (refill_same_instant now b) by lia.
    assert (G : num_ge (tokens b) 1 = true).
    { apply num_ge_true. rewrite T. change 1 with (inject_Z 1).
      rewrite <- Zle_Qle. lia. }
    rewrite G.
    set (b1 := mk (capacity b) (refillInterval b) (tokens b - 1) (lastRefill b)).
    specialize (IH b1 L).
    assert (T1 : tokens b1 == inject_Z (Z.of_nat k)).
    { unfold b1; simpl. rewrite T, Nat2Z.inj_succ. unfold Z.succ.
      rewrite inject_Z_plus. change (inject_Z 1) with 1. ring. }
    specialize (IH T1).
    destruct (consume_times (S k) now b1) as [oks b2]. simpl in IH |- *.
    rewrite IH. reflexivity.
Qed.

End BucketRunFacts.

(** X1.  A bucket built with a capacity of [n] tokens grants exactly [n]
    calls of [tryConsume] made at the time of its construction, and refuses
    the next one. *)
Theorem full_bucket_grants_capacity (n : nat) (itv : Q) (t0 : Z) :
  fst (BucketRun.consume_times (S n) t0
         (TokenBucket.create (inject_Z (Z.of_nat n)) itv t0))
  = (repeat true n ++ [false])%list.
Proof.
  apply consume_burst; [reflexivity|]. simpl. apply Qeq_refl.
Qed.

Section RateFacts.

Import TokenBucket BucketRun.

Variables cap itv : Q.
Variable t0 : Z.
Hypothesis cap_nonneg : 0 <= cap.
Hypothesis itv_pos : 0 < itv.









End RateFacts.



(* ================================================================== *)
(** * The shape of a normalized title *)

Section TitleShapeFacts.

Import JsString Regex TitleNormalizer TitleShape.

Ltac by_cases_on c :=
  destruct c as [[] [] [] [] [] [] [] []]; vm_compute;
  solve [reflexivity | discriminate | intros; discriminate
        | intros; reflexivity].

Lemma lower_allowed c :
  allowed c = true -> is_space c = false -> normal_char (lower c) = true.
Proof. by_cases_on c. Qed.

Lemma lower_space_only c : code (lower c) = 32%nat -> code c = 32%nat.
Proof. by_cases_on c. Qed.

Lemma space_is_space c : code c = 32%nat -> is_space c = true.
Proof. by_cases_on c. Qed.

Lemma In_drop_while p s c : In c (chars (drop_while p s)) -> In c (chars s).
Proof.
  induction s as [|a s IH]; simpl; [auto|].
  destruct (p a); [|auto]. intro H. right. exact (IH H).
Qed.

Lemma In_drop_while_end p s c :
  In c (chars (drop_while_end p s)) -> In c (chars s).
Proof.
  induction s as [|a s IH]; simpl; [auto|].
  destruct (is_empty (drop_while_end p s) && p a); simpl; [intros []|].
  intros [H|H]; [left; exact H|right; exact (IH H)].
Qed.

Lemma In_toLowerCase s c :
  In c (chars (toLowerCase s)) -> exists a, In a (chars s) /\ c = lower a.
Proof.
  induction s as [|a s IH]; simpl; [intros []|].
  intros [H|H]; [exists a; auto|].
  destruct (IH H) as (a' & Ha & E). exists a'. auto.
Qed.

Lemma In_removeSpecialCharacters s c :
  In c (chars (removeSpecialCharacters s)) -> allowed c = true.
Proof.
  induction s as [|a s IH]; simpl; [intros []|].
  intros [H|H]; [|exact (IH H)]. subst c.
  destruct (allowed a) eqn:E; [exact E|reflexivity].
Qed.

Lemma In_collapse_spaces b s c :
  In c (chars (collapse_spaces b s)) ->
  code c = 32%nat \/ (In c (chars s) /\ is_space c = false).
Proof.
  revert b. induction s as [|a s IH]; intro b; simpl; [intros []|].
  destruct (is_space a) eqn:E.
  - destruct b; simpl.
    + intro H. destruct (IH _ H) as [H'|[H' S]]; auto.
    + intros [H|H]; [left; subst c; reflexivity|].
      destruct (IH _ H) as [H'|[H' S]]; auto.
  - simpl. intros [H|H]; [right; subst c; auto|].
    destruct (IH _ H) as [H'|[H' S]]; auto.
Qed.

Lemma In_removeSpecialCharacters_inv s c :
  In c (chars (removeSpecialCharacters s)) ->
  c = " "%char \/ In c (chars s).
Proof.
  induction s as [|a s IH]; simpl; [intros []|].
  intros [H|H].
  - destruct (allowed a); [right; left; exact H|left; symmetry; exact H].
  - destruct (IH H) as [K|K]; [left; exact K|right; right; exact K].
Qed.

(** Removing the matches of a pattern only takes characters away. *)
Lemma In_remove_from r s c : forall skip prev,
  In c (chars (remove_from r skip prev s)) -> In c (chars s).
Proof.
  induction s as [|a s IH]; intros skip prev; simpl; [auto|].
  destruct skip as [|k].
  - destruct (match_at r prev (String a s)) as [[|k]|]; simpl;
      try (intros [H|H]; [left; exact H|right; exact (IH _ _ H)]).
    intro H. right. exact (IH _ _ H).
  - intro H. right. exact (IH _ _ H).
Qed.

Lemma In_remove_patterns ps c : forall s,
  In c (chars (fold_left (fun result pattern => remove_all pattern result) ps s)) ->
  In c (chars s).
Proof.
  induction ps as [|r ps IH]; intros s H; simpl in H; [exact H|].
  apply IH in H. exact (In_remove_from _ _ _ _ _ H).
Qed.

Lemma drop_while_end_all p s :
  (forall c, In c (chars s) -> p c = true) -> drop_while_end p s = EmptyString.
Proof.
  induction s as [|a s IH]; intro H; simpl; [reflexivity|].
  rewrite IH by (intros c Hc; apply H; right; exact Hc).
  rewrite (H a (or_introl eq_refl)). reflexivity.
Qed.

Lemma drop_while_end_idem p s :
  drop_while_end p (drop_while_end p s) = drop_while_end p s.
Proof.
  induction s as [|a s IH]; simpl; [reflexivity|].
  destruct (is_empty (drop_while_end p s) && p a) eqn:E; [reflexivity|].
  simpl. rewrite IH, E. reflexivity.
Qed.

Lemma drop_while_idem p s : drop_while p (drop_while p s) = drop_while p s.
Proof.
  induction s as [|a s IH]; simpl; [reflexivity|].
  destruct (p a) eqn:E; [exact IH|]. simpl. rewrite E. reflexivity.
Qed.

Lemma drop_while_keeps_end p s :
  drop_while_end p s = s -> drop_while_end p (drop_while p s) = drop_while p s.
Proof.
  induction s as [|a s IH]; intro H; simpl; [reflexivity|].
  destruct (p a) eqn:E; [|exact H].
  apply IH. simpl in H.
  destruct (is_empty (drop_while_end p s) && p a); [discriminate|].
  inversion H as [H']. rewrite H'. exact H'.
Qed.

Lemma single_spaced_weaken s : single_spaced true s = true ->
  single_spaced false s = true.
Proof.
  destruct s as [|a s]; simpl; [auto|].
  destruct (code a =? 32)%nat; simpl; [discriminate|auto].
Qed.

Lemma single_spaced_collapse b s :
  single_spaced b (collapse_spaces b s) = true.
Proof.
  revert b. induction s as [|a s IH]; intro b; simpl; [reflexivity|].
  destruct (is_space a) eqn:E.
  - destruct b; [exact (IH true)|]. simpl. exact (IH true).
  - simpl. destruct (code a =? 32)%nat eqn:S.
    + apply Nat.eqb_eq in S. rewrite (space_is_space _ S) in E. discriminate.
    + exact (IH false).
Qed.

Lemma single_spaced_tail b a s :
  single_spaced b (String a s) = true -> single_spaced false s = true.
Proof.
  simpl. destruct (code a =? 32)%nat.
  - intro H. apply andb_true_iff in H. apply single_spaced_weaken, H.
  - auto.
Qed.

Lemma single_spaced_drop_while p s :
  single_spaced false s = true -> single_spaced false (drop_while p s) = true.
Proof.
  induction s as [|a s IH]; intro H; simpl; [reflexivity|].
  destruct (p a); [|exact H]. apply IH. exact (single_spaced_tail _ _ _ H).
Qed.

Lemma single_spaced_drop_while_end p s : forall b,
  single_spaced b s = true -> single_spaced b (drop_while_end p s) = true.
Proof.
  induction s as [|a s IH]; intros b H; simpl; [reflexivity|].
  destruct (is_empty (drop_while_end p s) && p a); [reflexivity|].
  simpl in H |- *. destruct (code a =? 32)%nat.
  - apply andb_true_iff in H. destruct H as [H1 H2].
    rewrite H1. simpl. apply IH. exact H2.
  - apply IH. exact H.
Qed.

Lemma single_spaced_toLowerCase s : forall b,
  single_spaced b s = true -> single_spaced b (toLowerCase s) = true.
Proof.
  induction s as [|a s IH]; intros b H; simpl; [reflexivity|].
  simpl in H. destruct (code (lower a) =? 32)%nat eqn:E.
  - apply Nat.eqb_eq in E. apply lower_space_only in E.
    apply Nat.eqb_eq in E. rewrite E in H.
    apply andb_true_iff in H. destruct H as [H1 H2].
    rewrite H1. simpl. apply IH. exact H2.
  - destruct (code a =? 32)%nat.
    + apply andb_true_iff in H. apply IH, single_spaced_weaken, H.
    + apply IH. exact H.
Qed.

End TitleShapeFacts.

(** X5.  A normalized title is made of lower-case letters, digits, spaces,
    hyphens and apostrophes only; it neither starts nor ends with a space or
    a hyphen, and it has no two spaces in a row. *)
Theorem normalized_title_shape (title : string) :
  let n := TitleNormalizer.normalize title in
  (forall c, In c (JsString.chars n) -> TitleShape.normal_char c = true) /\
  JsString.drop_while TitleNormalizer.hyphen_or_space n = n /\
  JsString.drop_while_end TitleNormalizer.hyphen_or_space n = n /\
  TitleShape.single_spaced false n = true.
Proof.
  unfold TitleNormalizer.normalize.
  destruct (JsString.is_empty title); [repeat split; intros c []|].
  cbv zeta.
  set (s := TitleNormalizer.removeSpecialCharacters
              (TitleNormalizer.removeEditionSuffixes
                 (TitleNormalizer.removeRepackMarkers title))).
  split; [|split; [|split]].
  - intros c H. apply In_drop_while, In_drop_while_end in H.
    apply In_toLowerCase in H. destruct H as (a & Ha & ->).
    unfold JsString.trim in Ha.
    apply In_drop_while_end, In_drop_while in Ha.
    apply In_collapse_spaces in Ha. destruct Ha as [Ha|[Ha S]].
    + destruct a as [[] [] [] [] [] [] [] []]; vm_compute in Ha;
        try discriminate; reflexivity.
    + apply lower_allowed; [|exact S].
      exact (In_removeSpecialCharacters _ _ Ha).
  - apply drop_while_idem.
  - apply drop_while_keeps_end, drop_while_end_idem.
  - apply single_spaced_drop_while, single_spaced_drop_while_end.
    apply single_spaced_toLowerCase. unfold JsString.trim.
    apply single_spaced_drop_while_end, single_spaced_drop_while.
    apply single_spaced_collapse.
Qed.

(** X6.  A title without any letter, digit or apostrophe (white space,
    punctuation, symbols) normalizes to the empty string. *)
Theorem insignificant_title_normalizes_to_empty (title : string) :
  (forall c, In c (JsString.chars title) -> TitleShape.significant c = false) ->
  TitleNormalizer.normalize title = EmptyString.
Proof.
  intro H. unfold TitleNormalizer.normalize.
  destruct (JsString.is_empty title); [reflexivity|]. cbv zeta.
  rewrite drop_while_end_all; [reflexivity|].
  intros c Hc. apply In_toLowerCase in Hc. destruct Hc as (a & Ha & ->).
  unfold JsString.trim in Ha. apply In_drop_while_end, In_drop_while in Ha.
  apply In_collapse_spaces in Ha. destruct Ha as [Ha|[Ha S]].
  - destruct a as [[] [] [] [] [] [] [] []]; vm_compute in Ha;
      try discriminate; reflexivity.
  - pose proof (In_removeSpecialCharacters _ _ Ha) as Al.
    assert (Sg : TitleShape.significant a = false).
    { destruct (In_removeSpecialCharacters_inv _ _ Ha) as [->|K];
        [reflexivity|].
      apply H. unfold TitleNormalizer.removeEditionSuffixes,
        TitleNormalizer.removeRepackMarkers in K.
      apply In_remove_patterns, In_remove_patterns in K. exact K. }
    clear Ha. revert Al S Sg.
    destruct a as [[] [] [] [] [] [] [] []]; vm_compute;
      intros; solve [reflexivity | discriminate].
Qed.

(** A title of punctuation and spaces. *)
Lemma insignificant_title_normalizes_to_empty_witness :
  (forall c, In c (JsString.chars "?! - (*)") ->
             TitleShape.significant c = false) /\
  TitleNormalizer.normalize "?! - (*)" = EmptyString.
Proof.
  assert (H : forall c, In c (JsString.chars "?! - (*)") ->
                        TitleShape.significant c = false).
  { intros c Hc. simpl in Hc.
    repeat (destruct Hc as [<-|Hc]; [reflexivity|]). contradiction. }
  split; [exact H|].
  exact (insignificant_title_normalizes_to_empty "?! - (*)" H).
Defined.

(* ================================================================== *)
(** * Titles that differ in case *)

Section CaseFacts.

Import JsString Regex TitleNormalizer TitleShape.

Ltac all_chars c :=
  destruct c as [[] [] [] [] [] [] [] []]; vm_compute; reflexivity.

Lemma canon_idem c : canon (canon c) = canon c.
Proof. all_chars c. Qed.

Lemma is_word_canon c : is_word (canon c) = is_word c.
Proof. all_chars c. Qed.

Lemma is_space_canon c : is_space (canon c) = is_space c.
Proof. all_chars c. Qed.

Lemma hyphen_or_space_canon c : hyphen_or_space (canon c) = hyphen_or_space c.
Proof. all_chars c. Qed.

Lemma allowed_canon c :
  (if allowed (canon c) then canon c else " "%char)
  = canon (if allowed c then c else " "%char).
Proof. all_chars c. Qed.

Lemma lower_canon c : lower (canon c) = lower c.
Proof. all_chars c. Qed.

Lemma eqb_paren_canon c : Ascii.eqb (canon c) ")" = Ascii.eqb c ")".
Proof. all_chars c. Qed.

Lemma eqb_bracket_canon c : Ascii.eqb (canon c) "]" = Ascii.eqb c "]".
Proof. all_chars c. Qed.

Lemma eqb_ci_canon p c : eqb_ci p (canon c) = eqb_ci p c.
Proof. unfold eqb_ci. rewrite canon_idem. reflexivity. Qed.

Lemma is_word_opt_canon o :
  is_word_opt (option_map canon o) = is_word_opt o.
Proof. destruct o; simpl; [apply is_word_canon|reflexivity]. Qed.

Lemma head_fold_case s : head (fold_case s) = option_map canon (head s).
Proof. destruct s; reflexivity. Qed.

Lemma is_empty_fold_case s : is_empty (fold_case s) = is_empty s.
Proof. destruct s; reflexivity. Qed.

Lemma skip_not_fold_case x s : forall prev,
  Ascii.eqb x ")" || Ascii.eqb x "]" = true ->
  skip_not x (option_map canon prev) (fold_case s)
  = let '(n, prev', rest) := skip_not x prev s in
    (n, option_map canon prev', fold_case rest).
Proof.
  intros prev Hx.
  assert (E : forall c, Ascii.eqb (canon c) x = Ascii.eqb c x).
  { intro c. apply orb_true_iff in Hx.
    destruct Hx as [Hx|Hx]; apply Ascii.eqb_eq in Hx; subst x;
      [apply eqb_paren_canon|apply eqb_bracket_canon]. }
  revert prev. induction s as [|c s IH]; intro prev; simpl; [reflexivity|].
  rewrite E. destruct (Ascii.eqb c x); [reflexivity|].
  specialize (IH (Some c)). simpl in IH. rewrite IH.
  destruct (skip_not x (Some c) s) as [[n prev'] rest]. reflexivity.
Qed.

Lemma match_at_fold_case r : forall prev s,
  case_closed r = true ->
  match_at r (option_map canon prev) (fold_case s) = match_at r prev s.
Proof.
  induction r as [|a r IH]; intros prev s Hr; [reflexivity|].
  simpl in Hr. apply andb_true_iff in Hr. destruct Hr as [Ha Hr].
  destruct a as [p| |x]; simpl.
  - destruct s as [|c s]; simpl; [reflexivity|].
    rewrite eqb_ci_canon. destruct (eqb_ci p c); [|reflexivity].
    pose proof (IH (Some c) s Hr) as I. simpl in I. rewrite I. reflexivity.
  - rewrite is_word_opt_canon, head_fold_case, is_word_opt_canon.
    destruct (xorb _ _); [apply IH; exact Hr|reflexivity].
  - rewrite (skip_not_fold_case x s prev Ha).
    destruct (skip_not x prev s) as [[n prev'] rest].
    rewrite (IH prev' rest Hr). reflexivity.
Qed.

Lemma remove_from_fold_case r s : forall skip prev,
  case_closed r = true ->
  remove_from r skip (option_map canon prev) (fold_case s)
  = fold_case (remove_from r skip prev s).
Proof.
  induction s as [|c s IH]; intros skip prev Hr; simpl; [reflexivity|].
  destruct skip as [|k].
  - pose proof (match_at_fold_case r prev (String c s) Hr) as M.
    simpl in M. rewrite M.
    destruct (match_at r prev (String c s)) as [[|k]|]; simpl;
      rewrite <- (IH _ (Some c) Hr); reflexivity.
  - rewrite <- (IH _ (Some c) Hr). reflexivity.
Qed.

Lemma remove_patterns_fold_case ps : forall s,
  forallb case_closed ps = true ->
  fold_left (fun result pattern => remove_all pattern result) ps (fold_case s)
  = fold_case
      (fold_left (fun result pattern => remove_all pattern result) ps s).
Proof.
  induction ps as [|r ps IH]; intros s H; simpl; [reflexivity|].
  simpl in H. apply andb_true_iff in H. destruct H as [Hr Hps].
  pose proof (remove_from_fold_case r s O None Hr) as E. simpl in E.
  unfold remove_all. rewrite E. apply IH. exact Hps.
Qed.

Lemma removeSpecialCharacters_fold_case s :
  removeSpecialCharacters (fold_case s) = fold_case (removeSpecialCharacters s).
Proof.
  induction s as [|c s IH]; simpl; [reflexivity|].
  rewrite allowed_canon, IH. reflexivity.
Qed.

Lemma collapse_spaces_fold_case s : forall b,
  collapse_spaces b (fold_case s) = fold_case (collapse_spaces b s).
Proof.
  induction s as [|c s IH]; intro b; simpl; [reflexivity|].
  rewrite is_space_canon. destruct (is_space c).
  - destruct b; simpl; rewrite IH; reflexivity.
  - simpl. rewrite IH. reflexivity.
Qed.

Lemma drop_while_fold_case p s :
  (forall c, p (canon c) = p c) ->
  drop_while p (fold_case s) = fold_case (drop_while p s).
Proof.
  intro Hp. induction s as [|c s IH]; simpl; [reflexivity|].
  rewrite Hp. destruct (p c); [exact IH|reflexivity].
Qed.

Lemma drop_while_end_fold_case p s :
  (forall c, p (canon c) = p c) ->
  drop_while_end p (fold_case s) = fold_case (drop_while_end p s).
Proof.
  intro Hp. induction s as [|c s IH]; simpl; [reflexivity|].
  rewrite IH, is_empty_fold_case, Hp.
  destruct (is_empty (drop_while_end p s) && p c); reflexivity.
Qed.

Lemma toLowerCase_fold_case s : toLowerCase (fold_case s) = toLowerCase s.
Proof.
  induction s as [|c s IH]; simpl; [reflexivity|].
  rewrite lower_canon, IH. reflexivity.
Qed.

Lemma normalize_fold_case s : normalize (fold_case s) = normalize s.
Proof.
  unfold normalize. rewrite is_empty_fold_case.
  destruct (is_empty s); [reflexivity|]. cbv zeta.
  unfold removeRepackMarkers, removeEditionSuffixes.
  rewrite remove_patterns_fold_case by reflexivity.
  rewrite remove_patterns_fold_case by reflexivity.
  rewrite removeSpecialCharacters_fold_case, collapse_spaces_fold_case.
  unfold trim.
  rewrite (drop_while_fold_case _ _ is_space_canon).
  rewrite (drop_while_end_fold_case _ _ is_space_canon).
  rewrite toLowerCase_fold_case. reflexivity.
Qed.

End CaseFacts.

(** X7.  Normalization ignores the case of the letters a-z: two titles that
    differ only in the case of their letters have the same normal form. *)
Theorem normalize_ignores_case (title1 title2 : string) :
  TitleShape.fold_case title1 = TitleShape.fold_case title2 ->
  TitleNormalizer.normalize title1 = TitleNormalizer.normalize title2.
Proof.
  intro H. rewrite <- (normalize_fold_case title1), H.
  apply normalize_fold_case.
Qed.

(** An upper-case title with an edition suffix in lower case. *)
Lemma normalize_ignores_case_witness :
  TitleShape.fold_case "CYBERPUNK 2077 goty"
  = TitleShape.fold_case "Cyberpunk 2077 GOTY" /\
  TitleNormalizer.normalize "CYBERPUNK 2077 goty"
  = TitleNormalizer.normalize "Cyberpunk 2077 GOTY".
Proof.
  assert (H : TitleShape.fold_case "CYBERPUNK 2077 goty"
              = TitleShape.fold_case "Cyberpunk 2077 GOTY") by reflexivity.
  split; [exact H|exact (normalize_ignores_case _ _ H)].
Defined.

(* ================================================================== *)
(** * The HTTP client and its rate limiter *)

Section ApiFacts.

Lemma refill_idem now b :
  TokenBucket.refill now (TokenBucket.refill now b) = TokenBucket.refill now b.
Proof.
  apply refill_same_instant. unfold TokenBucket.refill.
  destruct (0 <? now - TokenBucket.lastRefill b)%Z eqn:E; simpl; [lia|].
  apply Z.ltb_ge in E. lia.
Qed.

Lemma refill_settled now b :
  (now <= TokenBucket.lastRefill (TokenBucket.refill now b))%Z.
Proof.
  unfold TokenBucket.refill.
  destruct (0 <? now - TokenBucket.lastRefill b)%Z eqn:E; simpl; [lia|].
  apply Z.ltb_ge in E. lia.
Qed.

(** [checkRateLimit] when a token is there: it is taken. *)
Lemma checkRateLimit_granted w :
  fst (TokenBucket.tryConsume (now w) (rateLimiter w)) = true ->
  ApiClient.checkRateLimit w
  = (Ok tt, set_rateLimiter (snd (TokenBucket.tryConsume (now w) (rateLimiter w))) w).
Proof.
  intro H. unfold ApiClient.checkRateLimit, bind, ApiClient.canMakeRequest.
  destruct (TokenBucket.tryConsume (now w) (rateLimiter w)) as [ok b].
  simpl in H. subst ok. reflexivity.
Qed.

(** [checkRateLimit] when no token is there: it throws what the constructor
    of [RateLimitError] makes of the time of the bucket, and leaves the
    refilled bucket. *)
Lemma checkRateLimit_refused w :
  fst (TokenBucket.tryConsume (now w) (rateLimiter w)) = false ->
  ApiClient.checkRateLimit w
  = (Err (newRateLimitError
            (fst (TokenBucket.getRetryAfter (now w) (now w) (rateLimiter w)))),
     set_rateLimiter (TokenBucket.refill (now w) (rateLimiter w)) w).
Proof.
  intro H. unfold ApiClient.checkRateLimit, bind, ApiClient.canMakeRequest,
    ApiClient.getRetryAfter, throw.
  unfold TokenBucket.tryConsume in *.
  destruct (num_ge (TokenBucket.tokens (TokenBucket.refill (now w) (rateLimiter w))) 1)
    eqn:E; simpl in H; [discriminate|]. simpl.
  unfold TokenBucket.getRetryAfter. rewrite refill_idem, E.
  destruct (Qeq_bool _ _); reflexivity.
Qed.

(** The time a bucket without a capacity answers is not a number, and the
    error built from it is the [RangeError]. *)
Lemma retry_time_without_capacity now now' b :
  TokenBucket.capacity b == 0 ->
  fst (TokenBucket.tryConsume now b) = false ->
  newRateLimitError (fst (TokenBucket.getRetryAfter now now' b)) = invalid_time.
Proof.
  intros C H. unfold TokenBucket.tryConsume in H. unfold TokenBucket.getRetryAfter.
  destruct (num_ge (TokenBucket.tokens (TokenBucket.refill now b)) 1);
    [discriminate|].
  rewrite refill_capacity.
  assert (Z0 : Qeq_bool (TokenBucket.capacity b) 0 = true)
    by (apply Qeq_bool_iff; exact C).
  rewrite Z0. reflexivity.
Qed.

(** The time a sane rate limiter answers is a date, not before the clock. *)
Lemma retry_time_of_sane_limiter w :
  limiter_sane w ->
  exists t,
    newRateLimitError
      (fst (TokenBucket.getRetryAfter (now w) (now w) (rateLimiter w)))
    = Custom (RateLimitError t) /\ (now w <= t)%Z.
Proof.
  intros (Hc & Hi & Hr & Hn & Hq).
  assert (Hc0 : 0 <= TokenBucket.capacity (rateLimiter w)) by lra.
  destruct (refill_in_range (now w) _ Hc0 Hi Hr) as [R0 _].
  unfold TokenBucket.getRetryAfter.
  rewrite refill_capacity, refill_interval.
  set (r := TokenBucket.tokens (TokenBucket.refill (now w) (rateLimiter w))) in *.
  destruct (num_ge r 1) eqn:G; simpl.
  - exists (now w). split; [|lia]. unfold newRateLimitError, MAX_TIME_VALUE.
    assert (L : (Z.abs (now w) <=? 8640000000000000)%Z = true)
      by (apply Z.leb_le; lia).
    rewrite L. reflexivity.
  - apply num_ge_false in G.
    assert (N0 : Qeq_bool (TokenBucket.capacity (rateLimiter w)) 0 = false).
    { destruct (Qeq_bool (TokenBucket.capacity (rateLimiter w)) 0) eqn:Z0;
        [|reflexivity].
      apply Qeq_bool_iff in Z0. lra. }
    rewrite N0. simpl.
    set (q := TokenBucket.refillInterval (rateLimiter w)
              / TokenBucket.capacity (rateLimiter w)) in *.
    assert (Q0 : 0 <= q).
    { unfold q. apply Qle_shift_div_l; [exact Hc|]. lra. }
    assert (X0 : 0 <= (1 - r) * q) by (apply Qmult_le_0_compat; lra).
    assert (X1 : (1 - r) * q <= inject_Z 4000000000000000).
    { apply Qle_trans with (1 * q); [|lra].
      apply Qmult_le_compat_r; lra. }
    assert (C0 : (0 <= Qceiling ((1 - r) * q))%Z).
    { rewrite <- (Qceiling_Z 0). apply Qceiling_resp_le. exact X0. }
    assert (C1 : (Qceiling ((1 - r) * q) <= 4000000000000000)%Z).
    { rewrite <- (Qceiling_Z 4000000000000000). apply Qceiling_resp_le.
      exact X1. }
    exists (now w + Qceiling ((1 - r) * q))%Z. split; [|lia].
    unfold newRateLimitError, MAX_TIME_VALUE.
    assert (L : (Z.abs (now w + Qceiling ((1 - r) * q)) <=? 8640000000000000)%Z
                = true) by (apply Z.leb_le; lia).
    rewrite L. reflexivity.
Qed.

Lemma sane_after_tryConsume w :
  limiter_sane w ->
  limiter_sane
    (set_rateLimiter (snd (TokenBucket.tryConsume (now w) (rateLimiter w))) w).
Proof.
  intros (Hc & Hi & Hr & Hn & Hq). unfold limiter_sane. simpl.
  rewrite tryConsume_capacity, tryConsume_interval.
  repeat split; try assumption; try lia;
    apply tryConsume_in_range; assumption || lra.
Qed.

Lemma sane_after_refill w :
  limiter_sane w ->
  limiter_sane (set_rateLimiter (TokenBucket.refill (now w) (rateLimiter w)) w).
Proof.
  intros (Hc & Hi & Hr & Hn & Hq). unfold limiter_sane. simpl.
  rewrite refill_capacity, refill_interval.
  repeat split; try assumption; try lia;
    apply refill_in_range; assumption || lra.
Qed.

End ApiFacts.

(** X8.  When the rate limiter has no token, neither [getGameDetails] nor
    [getAppList] of the HTTP client sends a request: both throw the error
    built from the retry time of the bucket, and only the bucket (refilled)
    has changed.  A details lookup of the client that misses its cache fails
    the same way.  For a sane rate limiter the error is a [RateLimitError]
    whose time is not before the clock; for a bucket without a capacity it
    is the [RangeError] of the constructor of [RateLimitError]. *)
Theorem rate_limited_call_sends_nothing (appId : string) (w : World) :
  fst (TokenBucket.tryConsume (now w) (rateLimiter w)) = false ->
  let w' := set_rateLimiter (TokenBucket.refill (now w) (rateLimiter w)) w in
  exists e,
    ApiClient.getGameDetails appId w = (Err e, w') /\
    ApiClient.getAppList w = (Err e, w') /\
    requests w' = requests w /\
    (fst (Cache.get appId (now w) (detailsCache w)) = None ->
     fst (SteamClient.getGameDetails appId w) = Err e /\
     requests (snd (SteamClient.getGameDetails appId w)) = requests w) /\
    (limiter_sane w ->
     exists t, e = Custom (RateLimitError t) /\ (now w <= t)%Z) /\
    (TokenBucket.capacity (rateLimiter w) == 0 -> e = invalid_time).
Proof.
  intros H w'.
  exists (newRateLimitError
            (fst (TokenBucket.getRetryAfter (now w) (now w) (rateLimiter w)))).
  split; [|split; [|split; [|split; [|split]]]].
  - unfold ApiClient.getGameDetails, bind.
    rewrite (checkRateLimit_refused w H). reflexivity.
  - unfold ApiClient.getAppList, bind.
    rewrite (checkRateLimit_refused w H). reflexivity.
  - reflexivity.
  - intro G. unfold SteamClient.getGameDetails, bind.
    destruct (Cache.get appId (now w) (detailsCache w)) as [[d|] c];
      simpl in G; [discriminate|].
    unfold ApiClient.getGameDetails, bind.
    rewrite (checkRateLimit_refused (set_detailsCache c w) H). simpl.
    split; reflexivity.
  - apply retry_time_of_sane_limiter.
  - intro C. apply retry_time_without_capacity; assumption.
Qed.

(** A client whose bucket of 200 tokens per 300000 ms holds no token. *)
Lemma rate_limited_call_sends_nothing_witness :
  let w := set_rateLimiter (TokenBucket.mk 200 300000 0 0) Scenario.client in
  fst (TokenBucket.tryConsume (now w) (rateLimiter w)) = false /\
  limiter_sane w /\
  exists t, fst (ApiClient.getGameDetails "570" w) = Err (Custom (RateLimitError t)) /\
            requests (snd (ApiClient.getGameDetails "570" w)) = [].
Proof.
  intro w.
  assert (H : fst (TokenBucket.tryConsume (now w) (rateLimiter w)) = false)
    by reflexivity.
  assert (S : limiter_sane w).
  { unfold limiter_sane, TokenBucket.in_range. simpl.
    repeat split; try lia; unfold Qlt, Qle; simpl; lia. }
  split; [exact H|]. split; [exact S|].
  destruct (rate_limited_call_sends_nothing "570" w H)
    as (e & A & _ & _ & _ & Sane & _).
  destruct (Sane S) as (t & -> & _).
  exists t. rewrite A. split; reflexivity.
Defined.

(* ================================================================== *)
(** * The errors of the library *)

Section ErrorFacts.

Variable P : World -> Prop.
Variable E : Thrown -> Prop.

Hypothesis E_custom : forall c, E (Custom c).
Hypothesis P_requests : forall rs w, P w -> P (set_requests rs w).
Hypothesis P_appListCache : forall c w, P w -> P (set_appListCache c w).
Hypothesis P_detailsCache : forall c w, P w -> P (set_detailsCache c w).
Hypothesis P_consume : forall w,
  P w ->
  P (set_rateLimiter (snd (TokenBucket.tryConsume (now w) (rateLimiter w))) w).
Hypothesis P_refill : forall w,
  P w -> P (set_rateLimiter (TokenBucket.refill (now w) (rateLimiter w)) w).
Hypothesis E_limit : forall w,
  P w ->
  E (newRateLimitError
       (fst (TokenBucket.getRetryAfter (now w) (now w) (rateLimiter w)))).

Lemma inv_ret {A : Type} (a : A) : keeps P (ret a).
Proof. intros w H. exact H. Qed.

Lemma inv_throw {A : Type} (e : Thrown) : keeps P (@throw A e).
Proof. intros w H. exact H. Qed.

Lemma inv_bind {A B : Type} (m : M A) (k : A -> M B) :
  keeps P m -> (forall a, keeps P (k a)) -> keeps P (bind m k).
Proof.
  intros Hm Hk w H. unfold bind. specialize (Hm w H).
  destruct (m w) as [[a|e] w1]; simpl in *; [apply Hk; exact Hm|exact Hm].
Qed.

Lemma own_keeps {A : Type} (m : M A) : throws_within P E m -> keeps P m.
Proof. intros Hm w H. exact (proj1 (Hm w H)). Qed.

Lemma own_ret {A : Type} (a : A) : throws_within P E (ret a).
Proof. intros w H. split; [exact H|]. intros e K. discriminate. Qed.

Lemma own_throw {A : Type} (e : Thrown) : E e -> throws_within P E (@throw A e).
Proof.
  intros He w H. split; [exact H|]. intros e' K. inversion K; subst. exact He.
Qed.

Lemma own_bind {A B : Type} (m : M A) (k : A -> M B) :
  throws_within P E m -> (forall a, throws_within P E (k a)) ->
  throws_within P E (bind m k).
Proof.
  intros Hm Hk w H. unfold bind. destruct (Hm w H) as [P1 E1].
  destruct (m w) as [[a|e0] w1]; simpl in *.
  - exact (Hk a w1 P1).
  - split; [exact P1|]. intros e K. apply E1. inversion K. reflexivity.
Qed.

Lemma own_try_catch {A : Type} (m : M A) (h : Thrown -> M A) :
  keeps P m -> (forall e, throws_within P E (h e)) ->
  throws_within P E (try_catch m h).
Proof.
  intros Hm Hh w H. unfold try_catch. specialize (Hm w H).
  destruct (m w) as [[a|e0] w1]; simpl in *.
  - split; [exact Hm|]. intros e K. discriminate.
  - exact (Hh e0 w1 Hm).
Qed.

Lemma own_update {A : Type} (f : World -> A * World) :
  (forall w, P w -> P (snd (f w))) ->
  throws_within P E (fun w => (Ok (fst (f w)), snd (f w))).
Proof.
  intros Hf w H. split; [exact (Hf w H)|]. intros e K. discriminate.
Qed.

Lemma own_handleError {A : Type} (error : Thrown) (context : string) :
  throws_within P E (@ApiClient.handleError A error context).
Proof.
  intros w H.
  assert (K : exists c, @ApiClient.handleError A error context w
                        = (Err (Custom c), w)).
  { unfold ApiClient.handleError, throw.
    destruct error as [c|message status|message]; eauto.
    destruct status as [[|p|p]|]; eauto.
    repeat (destruct p as [p|p|]; eauto). }
  destruct K as [c K]. rewrite K. split; [exact H|].
  intros e Q. inversion Q; subst. apply E_custom.
Qed.

Lemma own_checkRateLimit : throws_within P E ApiClient.checkRateLimit.
Proof.
  intros w H.
  destruct (fst (TokenBucket.tryConsume (now w) (rateLimiter w))) eqn:G.
  - rewrite (checkRateLimit_granted w G). split; [|intros e K; discriminate].
    apply P_consume. exact H.
  - rewrite (checkRateLimit_refused w G). split.
    + apply P_refill. exact H.
    + intros e K. inversion K; subst. apply E_limit. exact H.
Qed.

Lemma inv_send (r : request) : keeps P (ApiClient.send r).
Proof. intros w H. apply P_requests. exact H. Qed.

Lemma inv_fetchPages pages : forall allApps,
  keeps P (ApiClient.fetchPages pages allApps).
Proof.
  induction pages as [|[apps more|e] rest IH]; intro allApps; simpl.
  - apply inv_bind; [apply inv_send|]. intros _. apply inv_throw.
  - apply inv_bind; [apply inv_send|]. intros _.
    destruct more; [|apply inv_ret].
    apply inv_bind; [apply own_keeps, own_checkRateLimit|]. intros _. apply IH.
  - apply inv_bind; [apply inv_send|]. intros _. apply inv_throw.
Qed.

Lemma own_api_getAppList : throws_within P E ApiClient.getAppList.
Proof.
  unfold ApiClient.getAppList.
  apply own_bind; [apply own_checkRateLimit|]. intros _.
  apply own_try_catch.
  - intros w H. apply inv_fetchPages. exact H.
  - intro e. apply own_handleError.
Qed.

Lemma own_api_getGameDetails appId :
  throws_within P E (ApiClient.getGameDetails appId).
Proof.
  unfold ApiClient.getGameDetails.
  apply own_bind; [apply own_checkRateLimit|]. intros _.
  apply own_try_catch.
  - apply inv_bind; [apply inv_send|]. intros _ w H.
    destruct (Remote.appDetails (remote w) (now w) appId); exact H.
  - intros [[]| |]; try apply own_handleError. apply own_throw, E_custom.
Qed.

Lemma own_matcher_getAppList : throws_within P E GameMatcher.getAppList.
Proof.
  unfold GameMatcher.getAppList. apply own_bind.
  - intros w H.
    destruct (Cache.get GameMatcher.APP_LIST_CACHE_KEY (now w) (appListCache w)).
    split; [apply P_appListCache; exact H|]. intros e K. discriminate.
  - intros [appList|]; [apply own_ret|].
    apply own_bind; [apply own_api_getAppList|]. intro raw.
    apply own_bind; [|intros _; apply own_ret].
    intros w H. split; [apply P_appListCache; exact H|].
    intros e K. discriminate.
Qed.

Lemma own_getGameDetails appId :
  throws_within P E (SteamClient.getGameDetails appId).
Proof.
  unfold SteamClient.getGameDetails. apply own_bind.
  - intros w H. destruct (Cache.get appId (now w) (detailsCache w)).
    split; [apply P_detailsCache; exact H|]. intros e K. discriminate.
  - intros [d|]; [apply own_ret|].
    apply own_bind; [apply own_api_getGameDetails|]. intro d.
    apply own_bind; [|intros _; apply own_ret].
    intros w H. split; [apply P_detailsCache; exact H|].
    intros e K. discriminate.
Qed.

End ErrorFacts.

Section MatcherErrorFacts.

Variable P : World -> Prop.
Variable E : Thrown -> Prop.

Hypothesis P_fuse : forall f w, P w -> P (set_fuse f w).
Hypothesis H_getAppList : throws_within P E GameMatcher.getAppList.
Hypothesis H_getGameDetails :
  forall appId, throws_within P E (SteamClient.getGameDetails appId).

Lemma own_getExactMatch title :
  throws_within P E (GameMatcher.getExactMatch title).
Proof.
  unfold GameMatcher.getExactMatch.
  apply own_bind; [apply H_getAppList|]. intro l. apply own_ret.
Qed.

Lemma own_ensureFuseInitialized :
  throws_within P E GameMatcher.ensureFuseInitialized.
Proof.
  intros w H. unfold GameMatcher.ensureFuseInitialized.
  destruct (fuse w); [exact (own_ret P E tt w H)|].
  revert w H. apply own_bind; [apply H_getAppList|].
  intros l w H. split; [apply P_fuse; exact H|]. intros e K. discriminate.
Qed.

Lemma own_findMatches distance title limit threshold :
  throws_within P E (GameMatcher.findMatches distance title limit threshold).
Proof.
  unfold GameMatcher.findMatches.
  destruct (GameMatcher.blank title); [apply own_ret|].
  apply own_bind; [apply own_ensureFuseInitialized|].
  intros _ w H. destruct (fuse w); split; try exact H; intros e K; discriminate.
Qed.

Lemma own_findBestMatch distance title threshold :
  throws_within P E (GameMatcher.findBestMatch distance title threshold).
Proof.
  unfold GameMatcher.findBestMatch.
  destruct (GameMatcher.blank title); [apply own_ret|].
  apply own_bind; [apply own_getExactMatch|].
  intros [g|]; [apply own_ret|].
  apply own_bind; [apply own_findMatches|]. intro l. apply own_ret.
Qed.

Lemma own_isAdultContent game :
  throws_within P E (SteamClient.isAdultContent game).
Proof.
  unfold SteamClient.isAdultContent. apply own_try_catch.
  - apply inv_bind; [apply (own_keeps P E), H_getGameDetails|].
    intro d. apply inv_ret.
  - intro e. apply own_ret.
Qed.

Lemma own_searchGame distance title options :
  throws_within P E (SteamClient.searchGame distance title options).
Proof.
  unfold SteamClient.searchGame.
  apply own_bind; [apply own_findBestMatch|].
  intros [game|]; [|apply own_ret].
  destruct (negb _); [|apply own_ret].
  apply own_bind.
  - unfold SteamClient.isAdultContentFiltered.
    apply own_bind; [apply own_isAdultContent|]. intro b. apply own_ret.
  - intro b. destruct (negb b); apply own_ret.
Qed.

End MatcherErrorFacts.

(** X9.  Whatever the transport throws, an error thrown by the HTTP client,
    by the matcher or by the client is one of the library's own errors
    ([SteamApiError], [GameNotFoundError], [RateLimitError],
    [InvalidApiKeyError]), or the [RangeError] raised while a
    [RateLimitError] is built from a time that is not a date.  With a sane
    rate limiter it is always one of the library's own errors, and the rate
    limiter is still sane afterwards. *)
Theorem only_own_errors_are_thrown
  (distance : string -> string -> option Q) (w : World) (e : Thrown) :
  let own_or_range := fun e => own_error e \/ e = invalid_time in
  let thrown_by := fun (A : Type) (m : M A) =>
    (fst (m w) = Err e -> own_or_range e) /\
    (limiter_sane w ->
     limiter_sane (snd (m w)) /\ (fst (m w) = Err e -> own_error e)) in
  (forall appId, thrown_by _ (ApiClient.getGameDetails appId)) /\
  thrown_by _ ApiClient.getAppList /\
  (forall title, thrown_by _ (GameMatcher.getExactMatch title)) /\
  (forall title limit threshold,
     thrown_by _ (GameMatcher.findMatches distance title limit threshold)) /\
  (forall title threshold,
     thrown_by _ (GameMatcher.findBestMatch distance title threshold)) /\
  (forall appId, thrown_by _ (SteamClient.getGameDetails appId)) /\
  (forall title options,
     thrown_by _ (SteamClient.searchGame distance title options)) /\
  (forall title limit,
     thrown_by _ (SteamClient.searchGames distance title limit)).
Proof.
  intros own_or_range thrown_by.
  assert (U : forall (A : Type) (m : M A),
             (forall P E,
                (forall c, E (Custom c)) ->
                (forall rs w, P w -> P (set_requests rs w)) ->
                (forall c w, P w -> P (set_appListCache c w)) ->
                (forall c w, P w -> P (set_detailsCache c w)) ->
                (forall w, P w ->
                   P (set_rateLimiter
                        (snd (TokenBucket.tryConsume (now w) (rateLimiter w))) w)) ->
                (forall w, P w ->
                   P (set_rateLimiter
                        (TokenBucket.refill (now w) (rateLimiter w)) w)) ->
                (forall w, P w ->
                   E (newRateLimitError
                        (fst (TokenBucket.getRetryAfter (now w) (now w)
                                (rateLimiter w))))) ->
                (forall f w, P w -> P (set_fuse f w)) ->
                throws_within P E m) ->
             thrown_by A m).
  { intros A m H. split.
    - intro K.
      refine (proj2 (H (fun _ => True) own_or_range _ _ _ _ _ _ _ _ w I) e K);
        try (intros; exact I).
      + intro c. left. exists c. reflexivity.
      + intros w0 _. unfold own_or_range, newRateLimitError, own_error.
        destruct (fst (TokenBucket.getRetryAfter (now w0) (now w0)
                         (rateLimiter w0))) as [t|]; [|right; reflexivity].
        destruct (Z.abs t <=? MAX_TIME_VALUE)%Z; [left; eauto|right; reflexivity].
    - intro S.
      assert (T : throws_within limiter_sane own_error m).
      { apply H.
        - intro c. exists c. reflexivity.
        - intros rs w0 Hs. exact Hs.
        - intros c w0 Hs. exact Hs.
        - intros c w0 Hs. exact Hs.
        - exact sane_after_tryConsume.
        - exact sane_after_refill.
        - intros w0 Hs. destruct (retry_time_of_sane_limiter w0 Hs) as (t & -> & _).
          exists (RateLimitError t). reflexivity.
        - intros f w0 Hs. exact Hs. }
      destruct (T w S) as [T1 T2]. split; [exact T1|exact (T2 e)]. }
  assert (L : forall P E,
             (forall c, E (Custom c)) ->
             (forall rs w, P w -> P (set_requests rs w)) ->
             (forall c w, P w -> P (set_appListCache c w)) ->
             (forall w, P w ->
                P (set_rateLimiter
                     (snd (TokenBucket.tryConsume (now w) (rateLimiter w))) w)) ->
             (forall w, P w ->
                P (set_rateLimiter
                     (TokenBucket.refill (now w) (rateLimiter w)) w)) ->
             (forall w, P w ->
                E (newRateLimitError
                     (fst (TokenBucket.getRetryAfter (now w) (now w)
                             (rateLimiter w))))) ->
             throws_within P E GameMatcher.getAppList).
  { intros. apply own_matcher_getAppList; assumption. }
  assert (D : forall P E,
             (forall c, E (Custom c)) ->
             (forall rs w, P w -> P (set_requests rs w)) ->
             (forall c w, P w -> P (set_detailsCache c w)) ->
             (forall w, P w ->
                P (set_rateLimiter
                     (snd (TokenBucket.tryConsume (now w) (rateLimiter w))) w)) ->
             (forall w, P w ->
                P (set_rateLimiter
                     (TokenBucket.refill (now w) (rateLimiter w)) w)) ->
             (forall w, P w ->
                E (newRateLimitError
                     (fst (TokenBucket.getRetryAfter (now w) (now w)
                             (rateLimiter w))))) ->
             forall appId, throws_within P E (SteamClient.getGameDetails appId)).
  { intros. apply own_getGameDetails; assumption. }
  split; [intro; apply U; intros; apply own_api_getGameDetails; assumption|].
  split; [apply U; intros; apply own_api_getAppList; assumption|].
  split; [intro; apply U; intros; apply own_getExactMatch; auto|].
  split; [intros; apply U; intros; apply own_findMatches; auto|].
  split; [intros; apply U; intros; apply own_findBestMatch; auto|].
  split; [intro; apply U; intros; apply own_getGameDetails; assumption|].
  split; [intros; apply U; intros; apply own_searchGame; auto|].
  intros. apply U. intros. apply own_findMatches; auto.
Qed.

(** The time-out of the transport reaches the caller as a [SteamApiError]. *)
Lemma only_own_errors_are_thrown_witness :
  let r := SteamClient.getGameDetails "570" Scenario.client in
  limiter_sane Scenario.client /\
  exists c, fst r = Err (Custom c).
Proof.
  intro r.
  assert (S : limiter_sane Scenario.client).
  { unfold limiter_sane, TokenBucket.in_range. simpl.
    repeat split; try lia; unfold Qlt, Qle; simpl; lia. }
  split; [exact S|].
  assert (H : fst r = Err (Custom (SteamApiError
                 "Failed to fetch game details for app ID: 570: timeout" 0)))
    by (vm_compute; reflexivity).
  destruct (proj2 (proj2 (proj1 (proj2 (proj2 (proj2 (proj2 (proj2
              (only_own_errors_are_thrown Scenario.distance Scenario.client
                 _)))))) "570"%string) S) H) as [c E].
  exists c. rewrite H, E. reflexivity.
Defined.

(* ================================================================== *)
(** * Requests and tokens *)

Section RequestFacts.

Lemma repeat_shift {A : Type} (x : A) (n : nat) (l : list A) :
  (repeat x n ++ x :: l)%list = x :: (repeat x n ++ l)%list.
Proof. induction n as [|n IH]; simpl; [reflexivity|]. rewrite IH. reflexivity. Qed.

Lemma tryConsume_settled now b :
  (now <= TokenBucket.lastRefill b)%Z ->
  TokenBucket.tryConsume now b
  = if num_ge (TokenBucket.tokens b) 1
    then (true, TokenBucket.mk (TokenBucket.capacity b)
                  (TokenBucket.refillInterval b)
                  (TokenBucket.tokens b - 1) (TokenBucket.lastRefill b))
    else (false, b).
Proof.
  intro H. unfold TokenBucket.tryConsume.
  rewrite (refill_same_instant now b H). reflexivity.
Qed.

Ltac leaf :=
  exists O; unfold tokens_left, api_frame; simpl;
  change (inject_Z 0) with 0;
  repeat split; auto; try lra; try (intros; discriminate).

(** The loop of [getAppList] on a clock that stands still, entered with its
    first request paid for: it sends one request more than it takes tokens,
    and what it returns is the concatenation of the pages read. *)
Lemma fetchPages_run pages : forall allApps w,
  (now w <= TokenBucket.lastRefill (rateLimiter w))%Z ->
  let r := ApiClient.fetchPages pages allApps w in
  exists k,
    requests (snd r) = (repeat GetAppListPage (S k) ++ requests w)%list /\
    tokens_left (snd r) == tokens_left w - inject_Z (Z.of_nat k) /\
    (0 <= tokens_left w -> 0 <= tokens_left (snd r)) /\
    api_frame w (snd r) /\
    (forall apps, fst r = Ok apps ->
       exists read, read_pages pages = Some read /\
                    apps = (allApps ++ List.concat read)%list /\
                    List.length read = S k).
Proof.
  induction pages as [|[apps more|e] rest IH]; intros allApps w Hs; simpl.
  - unfold bind, ApiClient.send, throw. leaf.
  - unfold bind, ApiClient.send. simpl. destruct more.
    + unfold ApiClient.checkRateLimit, bind, ApiClient.canMakeRequest. simpl.
      rewrite (tryConsume_settled _ _ Hs).
      destruct (num_ge (TokenBucket.tokens (rateLimiter w)) 1) eqn:E; simpl.
      * set (w2 := set_rateLimiter _ (set_requests _ w)).
        destruct (IH (allApps ++ apps)%list w2 Hs)
          as (k & Rq & Tk & Pos & Fr & Res).
        exists (S k). split; [|split; [|split; [|split]]].
        -- rewrite Rq. unfold w2. simpl. f_equal. apply repeat_shift.
        -- rewrite Tk. unfold w2, tokens_left. simpl.
           rewrite ?Zpos_P_of_succ_nat, ?Nat2Z.inj_succ. unfold Z.succ.
           rewrite inject_Z_plus.
           change (inject_Z 1) with 1. ring.
        -- intro H0. apply Pos. unfold w2, tokens_left. simpl.
           apply num_ge_true in E. lra.
        -- destruct Fr as (F1 & F2 & F3 & F4 & F5).
           unfold api_frame. rewrite F1, F2, F3, F4, F5. repeat split.
        -- intros l Hl. destruct (Res l Hl) as (read & Rd & El & Len).
           exists (apps :: read). rewrite Rd. simpl.
           rewrite El, <- app_assoc, Len. auto.
      * unfold ApiClient.getRetryAfter. simpl.
        unfold TokenBucket.getRetryAfter.
        rewrite (refill_same_instant _ _ Hs), E.
        destruct (Qeq_bool _ _); simpl; unfold throw; leaf.
    + unfold ret. simpl. exists O. unfold tokens_left, api_frame. simpl.
      change (inject_Z 0) with 0.
      repeat split; auto; try lra.
      intros l Hl. inversion Hl; subst. exists [apps]. simpl.
      rewrite app_nil_r. auto.
  - unfold bind, ApiClient.send, throw. leaf.
Qed.

(** With the pages there and a token for each page after the first, the
    loop returns their concatenation. *)
Lemma fetchPages_succeeds pages : forall read allApps w,
  read_pages pages = Some read ->
  (now w <= TokenBucket.lastRefill (rateLimiter w))%Z ->
  inject_Z (Z.of_nat (List.length read)) - 1 <= tokens_left w ->
  fst (ApiClient.fetchPages pages allApps w) = Ok (allApps ++ List.concat read)%list.
Proof.
  induction pages as [|[apps more|e] rest IH]; intros read allApps w Rd Hs Ht;
    simpl in Rd; try discriminate.
  simpl. unfold bind, ApiClient.send. simpl. destruct more.
  - destruct (read_pages rest) as [read'|] eqn:Rr; [|discriminate].
    inversion Rd; subst read. simpl in Ht |- *.
    unfold ApiClient.checkRateLimit, bind, ApiClient.canMakeRequest. simpl.
    rewrite (tryConsume_settled _ _ Hs).
    assert (E : num_ge (TokenBucket.tokens (rateLimiter w)) 1 = true).
    { apply num_ge_true. unfold tokens_left in Ht.
      assert (P : 1 <= inject_Z (Z.of_nat (List.length read'))).
      { destruct read' as [|p read']; [|].
        - destruct rest as [|[a m|e] rest]; simpl in Rr; try discriminate.
          destruct m; [|discriminate].
          destruct (read_pages rest); discriminate.
        - simpl. change 1 with (inject_Z 1). rewrite <- Zle_Qle. lia. }
      rewrite Zpos_P_of_succ_nat in Ht. unfold Z.succ in Ht.
      rewrite inject_Z_plus in Ht. change (inject_Z 1) with 1 in Ht. lra. }
    rewrite E. simpl. rewrite app_assoc. apply IH; [reflexivity|exact Hs|].
    unfold tokens_left in *. simpl.
    rewrite Zpos_P_of_succ_nat in Ht. unfold Z.succ in Ht.
    rewrite inject_Z_plus in Ht. change (inject_Z 1) with 1 in Ht. lra.
  - inversion Rd; subst read. simpl. rewrite app_nil_r. reflexivity.
Qed.

End RequestFacts.

(** X11.  A details request is paid for by a token.  [getGameDetails] of
    the HTTP client sends its request exactly when the bucket, once
    refilled, holds a token, and it then leaves the bucket with exactly one
    token less; without a token it sends nothing, takes nothing and throws.
    Nothing else of the client changes. *)
Theorem every_request_costs_a_token (appId : string) (w : World) :
  let available :=
    TokenBucket.tokens (TokenBucket.refill (now w) (rateLimiter w)) in
  let w' := snd (ApiClient.getGameDetails appId w) in
  api_frame w w' /\
  (1 <= available ->
   requests w' = GetAppDetails appId :: requests w /\
   tokens_left w' == available - 1) /\
  (available < 1 ->
   requests w' = requests w /\ tokens_left w' == available /\
   exists e, fst (ApiClient.getGameDetails appId w) = Err e).
Proof.
  intros available w'.
  split; [apply api_getGameDetails_frame|]. split.
  - intro A1.
    assert (E : num_ge available 1 = true) by (apply num_ge_true; exact A1).
    assert (G : fst (TokenBucket.tryConsume (now w) (rateLimiter w)) = true).
    { unfold TokenBucket.tryConsume. fold available. rewrite E. reflexivity. }
    assert (T : TokenBucket.tokens
                  (snd (TokenBucket.tryConsume (now w) (rateLimiter w)))
                = available - 1).
    { unfold TokenBucket.tryConsume. fold available. rewrite E. reflexivity. }
    unfold w', ApiClient.getGameDetails, bind.
    rewrite (checkRateLimit_granted w G).
    unfold try_catch, ApiClient.send. simpl.
    set (w1 := set_requests _ (set_rateLimiter _ w)).
    match goal with
    | |- requests (snd ?r) = _ /\ _ => assert (S1 : snd r = w1)
    end.
    { destruct (Remote.appDetails (remote w) (now w) appId) as [e| |d];
        unfold throw, ret; simpl; try reflexivity.
      destruct e as [[]|m st|m]; unfold throw; simpl; try reflexivity.
      pose proof (respects_handleError eq (@eq_refl World)
                    (A := SteamGameDetails.t) (AxiosError m st)
                    ("Failed to fetch game details for app ID: " ++ appId)
                    w1) as R.
      symmetry. exact R. }
    rewrite S1. unfold w1, tokens_left. simpl. rewrite T.
    split; [reflexivity|apply Qeq_refl].
  - intro A0.
    assert (E : num_ge available 1 = false) by (apply num_ge_false; exact A0).
    assert (G : fst (TokenBucket.tryConsume (now w) (rateLimiter w)) = false).
    { unfold TokenBucket.tryConsume. fold available. rewrite E. reflexivity. }
    unfold w', ApiClient.getGameDetails, bind.
    rewrite (checkRateLimit_refused w G). unfold tokens_left. simpl.
    fold available. split; [reflexivity|]. split; [apply Qeq_refl|eauto].
Qed.

(** A details request on a fresh client of 200 tokens. *)
Lemma every_request_costs_a_token_witness :
  let w := Scenario2.paged_client in
  let w' := snd (ApiClient.getGameDetails "12" w) in
  1 <= TokenBucket.tokens (TokenBucket.refill (now w) (rateLimiter w)) /\
  requests w' = [GetAppDetails "12"] /\
  tokens_left w' == 199.
Proof.
  intros w w'.
  assert (H : 1 <= TokenBucket.tokens (TokenBucket.refill (now w) (rateLimiter w)))
    by (vm_compute; discriminate).
  split; [exact H|].
  destruct (proj1 (proj2 (every_request_costs_a_token "12" w)) H) as [Rq Tk].
  split; [exact Rq|]. unfold w'. rewrite Tk. vm_compute. reflexivity.
Defined.

(** X12.  When [getAppList] of the HTTP client returns, it returns the
    concatenation, in order, of the pages of the catalog up to the first one
    that announces no more results, and it has sent one request per page.
    It returns whenever the service answers these pages and the bucket
    holds a token for each. *)
Theorem catalog_download_concatenates_pages (w : World) :
  let pages := Remote.appListPages (remote w) (now w) in
  (forall apps w',
     ApiClient.getAppList w = (Ok apps, w') ->
     exists read,
       read_pages pages = Some read /\
       apps = List.concat read /\
       requests w'
       = (repeat GetAppListPage (List.length read) ++ requests w)%list) /\
  (forall read,
     read_pages pages = Some read ->
     inject_Z (Z.of_nat (List.length read))
     <= TokenBucket.tokens (TokenBucket.refill (now w) (rateLimiter w)) ->
     fst (ApiClient.getAppList w) = Ok (List.concat read)).
Proof.
  intro pages. split.
  - intros apps w' H.
    destruct (fst (TokenBucket.tryConsume (now w) (rateLimiter w))) eqn:G.
    + unfold ApiClient.getAppList, bind in H.
      rewrite (checkRateLimit_granted w G) in H. unfold try_catch in H.
      set (w1 := set_rateLimiter _ w) in *.
      assert (St : (now w1 <= TokenBucket.lastRefill (rateLimiter w1))%Z).
      { unfold w1. simpl. unfold TokenBucket.tryConsume.
        destruct (num_ge _ 1); simpl; apply refill_settled. }
      destruct (fetchPages_run (Remote.appListPages (remote w1) (now w1)) [] w1 St)
        as (k & Rq & _ & _ & _ & Res).
      destruct (ApiClient.fetchPages (Remote.appListPages (remote w1) (now w1))
                  [] w1) as [[a|e] w2] eqn:F.
      * inversion H; subst a w2. simpl in Rq, Res.
        destruct (Res apps eq_refl) as (read & Rd & El & Len).
        exists read. rewrite Len. auto.
      * exfalso. revert H. clear.
        assert (K : forall w0, fst (ApiClient.handleError (A := list Remote.RawApp)
                                      e "Failed to fetch Steam app list" w0)
                               <> Ok apps).
        { intros w0 Hk.
          destruct (ApiClient.handleError (A := list Remote.RawApp) e
                      "Failed to fetch Steam app list" w0)
            as [[a|e0] w3] eqn:Eh; [|discriminate].
          unfold ApiClient.handleError, throw in Eh.
          destruct e as [c|m st|m]; try discriminate.
          destruct st as [[|p|p]|]; try discriminate.
          repeat (destruct p as [p|p|]; try discriminate). }
        intro H. apply (K w2). rewrite H. reflexivity.
    + unfold ApiClient.getAppList, bind in H.
      rewrite (checkRateLimit_refused w G) in H. discriminate.
  - intros read Rd Ht.
    assert (P : (1 <= List.length read)%nat).
    { destruct read as [|p read]; [|simpl; lia].
      unfold pages in Rd.
      destruct (Remote.appListPages (remote w) (now w)) as [|[a m|e] rest];
        simpl in Rd; try discriminate.
      destruct m; [|discriminate]. destruct (read_pages rest); discriminate. }
    assert (G : fst (TokenBucket.tryConsume (now w) (rateLimiter w)) = true).
    { unfold TokenBucket.tryConsume.
      assert (E : num_ge (TokenBucket.tokens
                            (TokenBucket.refill (now w) (rateLimiter w))) 1 = true).
      { apply num_ge_true. eapply Qle_trans; [|exact Ht].
        change 1 with (inject_Z 1). rewrite <- Zle_Qle. lia. }
      rewrite E. reflexivity. }
    unfold ApiClient.getAppList, bind.
    rewrite (checkRateLimit_granted w G). unfold try_catch.
    set (w1 := set_rateLimiter _ w).
    assert (F : fst (ApiClient.fetchPages
                       (Remote.appListPages (remote w1) (now w1)) [] w1)
                = Ok ([] ++ List.concat read)%list).
    { apply fetchPages_succeeds; [exact Rd| |].
      - unfold w1. simpl. unfold TokenBucket.tryConsume.
        destruct (num_ge _ 1); simpl; apply refill_settled.
      - unfold w1, tokens_left. simpl. unfold TokenBucket.tryConsume in *.
        destruct (num_ge (TokenBucket.tokens
                            (TokenBucket.refill (now w) (rateLimiter w))) 1);
          simpl in G |- *; [lra|discriminate]. }
    destruct (ApiClient.fetchPages (Remote.appListPages (remote w1) (now w1))
                [] w1) as [[a|e] w2]; simpl in F |- *; [exact F|discriminate].
Qed.

(** A catalog sent in two pages. *)
Lemma catalog_download_concatenates_pages_witness :
  let w := Scenario2.paged_client in
  read_pages (Remote.appListPages (remote w) (now w))
  = Some [[Scenario.dota]; [Scenario.portal]] /\
  fst (ApiClient.getAppList w) = Ok [Scenario.dota; Scenario.portal].
Proof.
  intro w.
  assert (H : read_pages (Remote.appListPages (remote w) (now w))
              = Some [[Scenario.dota]; [Scenario.portal]]) by reflexivity.
  split; [exact H|].
  apply (proj2 (catalog_download_concatenates_pages w) _ H).
  vm_compute. discriminate.
Defined.

(* ================================================================== *)
(** * The outcomes of a details request *)

Lemma handleError_axios {A : Type} (m : string) (status : option Z)
      (context : string) (w : World) :
  @ApiClient.handleError A (AxiosError m status) context w
  = (Err (Custom
            match status with
            | Some st =>
                if (st =? 401)%Z then InvalidApiKeyError
                else SteamApiError (context ++ ": " ++ m)%string st
            | None => SteamApiError (context ++ ": " ++ m)%string 0
            end), w).
Proof.
  unfold ApiClient.handleError, throw.
  destruct status as [st|]; [|reflexivity].
  destruct (st =? 401)%Z eqn:E.
  - apply Z.eqb_eq in E. subst st. reflexivity.
  - apply Z.eqb_neq in E. destruct st as [|p|p]; try reflexivity.
    repeat (destruct p as [p|p|]; try reflexivity). congruence.
Qed.

(** X10.  With a token in the bucket, [getGameDetails] of the HTTP client
    sends its request and maps the answer: the data become the details,
    under the id that was asked for; a payload without data becomes a
    [GameNotFoundError] naming the id; a transport error with the status 401
    becomes an [InvalidApiKeyError]; any other transport error becomes a
    [SteamApiError] with the status of the response, or 0 without one; any
    other exception becomes a [SteamApiError] with the status 0. *)
Theorem details_request_outcomes (appId : string) (w : World) :
  fst (TokenBucket.tryConsume (now w) (rateLimiter w)) = true ->
  let r := ApiClient.getGameDetails appId w in
  let context :=
    ("Failed to fetch game details for app ID: " ++ appId)%string in
  requests (snd r) = GetAppDetails appId :: requests w /\
  match Remote.appDetails (remote w) (now w) appId with
  | Remote.DetailsData data =>
      fst r = Ok (SteamGameDetails.with_appId appId data)
  | Remote.DetailsMissing =>
      fst r = Err (Custom (GameNotFoundError ("App ID: " ++ appId)%string))
  | Remote.DetailsFail (Custom c) => fst r = Err (Custom c)
  | Remote.DetailsFail (OtherError m) =>
      fst r = Err (Custom (SteamApiError (context ++ ": " ++ m)%string 0))
  | Remote.DetailsFail (AxiosError m None) =>
      fst r = Err (Custom (SteamApiError (context ++ ": " ++ m)%string 0))
  | Remote.DetailsFail (AxiosError m (Some st)) =>
      fst r = Err (Custom (if (st =? 401)%Z then InvalidApiKeyError
                           else SteamApiError (context ++ ": " ++ m)%string st))
  end.
Proof.
  intros G r context. unfold r, ApiClient.getGameDetails, bind.
  rewrite (checkRateLimit_granted w G). unfold try_catch, ApiClient.send.
  simpl.
  destruct (Remote.appDetails (remote w) (now w) appId) as [e| |d];
    unfold throw, ret; simpl; [|split; reflexivity|split; reflexivity].
  destruct e as [c|m st|m].
  - destruct c; split; reflexivity.
  - rewrite handleError_axios. destruct st; split; reflexivity.
  - split; reflexivity.
Qed.

(** A service without data for the application. *)
Lemma details_request_outcomes_witness :
  let w := Scenario2.paged_client in
  fst (TokenBucket.tryConsume (now w) (rateLimiter w)) = true /\
  fst (ApiClient.getGameDetails "12" w)
  = Err (Custom (GameNotFoundError "App ID: 12")).
Proof.
  intro w.
  assert (G : fst (TokenBucket.tryConsume (now w) (rateLimiter w)) = true)
    by reflexivity.
  split; [exact G|].
  exact (proj2 (details_request_outcomes "12" w G)).
Defined.

(* ================================================================== *)
(** * The adult filter of a search *)

(** X13.  What [searchGame] returns, case by case.  An error of the matcher
    is passed on and the absence of a match is returned as such.  With the
    adult filter off ([includeAdult: true]) the match is returned without
    any details lookup.  With the filter on, the details of the match are
    looked up: the match is dropped when they are those of an adult game and
    returned when they are not. *)
Theorem search_filters_adult_games
  (distance : string -> string -> option Q)
  (title : string) (options : SearchOptions.t) (w : World) :
  let threshold :=
    match SearchOptions.fuzzyThreshold options with
    | Some x => x
    | None => SteamClient.DEFAULT_fuzzyThreshold
    end in
  let found := GameMatcher.findBestMatch distance title threshold w in
  let r := SteamClient.searchGame distance title options w in
  (forall e w1, found = (Err e, w1) -> r = (Err e, w1)) /\
  (forall w1, found = (Ok None, w1) -> r = (Ok None, w1)) /\
  (SearchOptions.includeAdult options = Some true -> r = found) /\
  (forall game w1 details w2,
     SearchOptions.includeAdult options <> Some true ->
     found = (Ok (Some game), w1) ->
     SteamClient.getGameDetails (SteamGame.appId game) w1 = (Ok details, w2) ->
     r = (Ok (if AdultContentDetector.isAdult details then None else Some game),
          w2)).
Proof.
  intros threshold found r. unfold r, SteamClient.searchGame, bind.
  fold threshold. fold found.
  split; [|split; [|split]].
  - intros e w1 H. rewrite H. reflexivity.
  - intros w1 H. rewrite H. reflexivity.
  - intro H. rewrite H. simpl.
    destruct found as [[[g|]|e] w1]; reflexivity.
  - intros game w1 details w2 Hopt Hf Hd. rewrite Hf.
    assert (Hadult : match SearchOptions.includeAdult options with
                     | Some x => x
                     | None => SteamClient.DEFAULT_includeAdult
                     end = false).
    { destruct (SearchOptions.includeAdult options) as [[|]|];
        [congruence|reflexivity|reflexivity]. }
    rewrite Hadult. simpl.
    unfold SteamClient.isAdultContentFiltered, SteamClient.isAdultContent,
      bind, try_catch.
    rewrite Hd. unfold ret.
    destruct (AdultContentDetector.isAdult details); reflexivity.
Qed.

(** A catalog whose only entry is a game for adults: the default search
    drops it, the search with [includeAdult: true] returns it. *)
Lemma search_filters_adult_games_witness :
  let w := Scenario2.adult_client in
  let game := SteamGame.mk "999" "Night Shift" (Some 1) in
  fst (SteamClient.searchGame Scenario.distance "Night Shift"
         SearchOptions.none w) = Ok None /\
  fst (SteamClient.searchGame Scenario.distance "Night Shift"
         (SearchOptions.mk None (Some true) None) w) = Ok (Some game).
Proof.
  intros w game. split.
  - set (w1 := snd (GameMatcher.findBestMatch Scenario.distance "Night Shift"
                      SteamClient.DEFAULT_fuzzyThreshold w)).
    set (w2 := snd (SteamClient.getGameDetails "999" w1)).
    rewrite (proj2 (proj2 (proj2 (search_filters_adult_games Scenario.distance
               "Night Shift" SearchOptions.none w)))
               game w1 (SteamGameDetails.with_appId "999" Scenario2.adult_game) w2);
      [reflexivity|discriminate|vm_compute; reflexivity|vm_compute; reflexivity].
  - rewrite (proj1 (proj2 (proj2 (search_filters_adult_games Scenario.distance
               "Night Shift" (SearchOptions.mk None (Some true) None) w)))
               eq_refl).
    vm_compute. reflexivity.
Defined.

(* ================================================================== *)
(** * What the caches give back *)

Section CacheRoundTrip.

Variable V : Type.

Lemma lru_get_keeps_config (k : string) (t : Z) (c : LRUCache.t V) :
  LRUCache.max (snd (LRUCache.get k t c)) = LRUCache.max c /\
  LRUCache.ttl (snd (LRUCache.get k t c)) = LRUCache.ttl c.
Proof.
  unfold LRUCache.get. destruct (LRUCache.lookup k (LRUCache.entries c));
    [destruct (LRUCache.live t e)|]; split; reflexivity.
Qed.

Lemma cache_get_keeps_config (k : string) (t : Z) (c : Cache.t V) :
  LRUCache.max (Cache.cache (snd (Cache.get k t c)))
  = LRUCache.max (Cache.cache c) /\
  LRUCache.ttl (Cache.cache (snd (Cache.get k t c)))
  = LRUCache.ttl (Cache.cache c).
Proof.
  unfold Cache.get.
  pose proof (lru_get_keeps_config k t (Cache.cache c)) as H.
  destruct (LRUCache.get k t (Cache.cache c)) as [[v|] lru]; exact H.
Qed.

(** A value that was set is found until its time to live has passed,
    provided the cache can hold an entry at all. *)
Lemma cache_get_after_set (k : string) (v : V) (ttl : option Z) (now t : Z)
      (c : Cache.t V) :
  (1 <= LRUCache.max (Cache.cache c))%nat ->
  (t < now + match ttl with
             | Some x => x
             | None => LRUCache.ttl (Cache.cache c)
             end)%Z ->
  fst (Cache.get k t (Cache.set k v ttl now c)) = Some v.
Proof.
  intros Hm Ht. unfold Cache.get, Cache.set, LRUCache.get, LRUCache.set,
                  LRUCache.lookup. simpl.
  destruct (LRUCache.max (Cache.cache c)) as [|n]; [lia|]. simpl.
  rewrite String.eqb_refl. unfold LRUCache.live. simpl.
  apply Z.ltb_lt in Ht. rewrite Ht. reflexivity.
Qed.

End CacheRoundTrip.

Section HeldFacts.

Variable V : Type.

Lemma lookup_skip (k : string) (front l : list (LRUCache.entry V)) :
  Forall (fun x => LRUCache.key x <> k) front ->
  LRUCache.lookup k (front ++ l) = LRUCache.lookup k l.
Proof.
  unfold LRUCache.lookup. induction 1 as [|x front Hx _ IH]; simpl; [reflexivity|].
  destruct (String.eqb_spec (LRUCache.key x) k) as [E|N]; [contradiction|exact IH].
Qed.

Lemma lookup_key (k : string) (es : list (LRUCache.entry V)) (e : LRUCache.entry V) :
  LRUCache.lookup k es = Some e -> LRUCache.key e = k.
Proof.
  unfold LRUCache.lookup. intro H. apply find_some in H.
  apply String.eqb_eq. apply H.
Qed.

Lemma remove_app (k : string) (a b : list (LRUCache.entry V)) :
  LRUCache.remove k (a ++ b) = (LRUCache.remove k a ++ LRUCache.remove k b)%list.
Proof. unfold LRUCache.remove. apply filter_app. Qed.

Lemma remove_other_head (k k' : string) (e : LRUCache.entry V)
      (l : list (LRUCache.entry V)) :
  LRUCache.key e = k -> k' <> k ->
  LRUCache.remove k' (e :: l) = e :: LRUCache.remove k' l.
Proof.
  intros E N. unfold LRUCache.remove. simpl.
  destruct (String.eqb_spec (LRUCache.key e) k') as [E'|_]; [congruence|reflexivity].
Qed.

Lemma remove_shorter (k : string) (l : list (LRUCache.entry V)) :
  (List.length (LRUCache.remove k l) <= List.length l)%nat.
Proof. unfold LRUCache.remove. apply filter_length. Qed.

Lemma remove_none (k : string) (front : list (LRUCache.entry V)) :
  Forall (fun x => LRUCache.key x <> k) front -> LRUCache.remove k front = front.
Proof.
  unfold LRUCache.remove. induction 1 as [|x front Hx _ IH]; simpl; [reflexivity|].
  destruct (String.eqb_spec (LRUCache.key x) k) as [E|N]; [contradiction|].
  simpl. rewrite IH. reflexivity.
Qed.

Lemma remove_keeps (k k' : string) (front : list (LRUCache.entry V)) :
  Forall (fun x => LRUCache.key x <> k) front ->
  Forall (fun x => LRUCache.key x <> k) (LRUCache.remove k' front).
Proof.
  rewrite !Forall_forall. intros H x Hx. unfold LRUCache.remove in Hx.
  apply filter_In in Hx. apply H. tauto.
Qed.

Lemma firstn_keeps (n : nat) (a b : list (LRUCache.entry V))
      (e : LRUCache.entry V) :
  (List.length a < n)%nat ->
  exists b', firstn n (a ++ e :: b) = (a ++ e :: b')%list.
Proof.
  intro H. rewrite firstn_app.
  rewrite (firstn_all2 (n := n) a) by lia.
  destruct (n - List.length a)%nat as [|m] eqn:D; [lia|].
  simpl. eauto.
Qed.

Lemma held_weaken k (v : V) T room c :
  held k v T (S room) c -> held k v T room c.
Proof.
  intros (front & e & back & En & Ek & Ev & Et & Fr & Len).
  exists front, e, back. repeat split; try assumption. lia.
Qed.

(** A value that was set is held, with room for every other entry the cache
    can take. *)
Lemma held_after_set k (v : V) ttl now room c :
  (room < LRUCache.max (Cache.cache c))%nat ->
  held k v (now + match ttl with
                  | Some x => x
                  | None => LRUCache.ttl (Cache.cache c)
                  end) room (Cache.set k v ttl now c).
Proof.
  intro H. unfold held, Cache.set, LRUCache.set. simpl.
  destruct (LRUCache.max (Cache.cache c)) as [|n] eqn:M; [lia|]. simpl.
  eexists [], _, _. simpl. repeat split; try reflexivity; [constructor|lia].
Qed.

(** A lookup of the key in time finds the value and keeps it held. *)
Lemma held_get_same k (v : V) T room t c :
  held k v T room c -> (t < T)%Z ->
  fst (Cache.get k t c) = Some v /\ held k v T room (snd (Cache.get k t c)).
Proof.
  intros (front & e & back & En & Ek & Ev & Et & Fr & Len) Ht.
  unfold Cache.get, LRUCache.get. rewrite En, (lookup_skip k front _ Fr).
  unfold LRUCache.lookup at 1. simpl.
  destruct (String.eqb_spec (LRUCache.key e) k) as [_|N]; [|contradiction].
  unfold LRUCache.live. rewrite Et.
  assert (L : (t <? T)%Z = true) by (apply Z.ltb_lt; exact Ht).
  rewrite L. simpl. split; [congruence|].
  unfold held. simpl. exists [], e, (LRUCache.remove k (front ++ e :: back)).
  simpl. repeat split; try assumption; [constructor|lia].
Qed.

(** A lookup of another key puts one entry at most in front. *)
Lemma held_get_other k k' (v : V) T room t c :
  k' <> k -> held k v T (S room) c ->
  held k v T room (snd (Cache.get k' t c)) /\
  (fst (Cache.get k' t c) = None -> held k v T (S room) (snd (Cache.get k' t c))).
Proof.
  intros N (front & e & back & En & Ek & Ev & Et & Fr & Len).
  unfold Cache.get, LRUCache.get.
  destruct (LRUCache.lookup k' (LRUCache.entries (Cache.cache c))) as [e'|] eqn:L.
  - assert (Ke : LRUCache.key e' = k') by exact (lookup_key _ _ _ L).
    assert (R : LRUCache.remove k' (LRUCache.entries (Cache.cache c))
                = (LRUCache.remove k' front ++ e :: LRUCache.remove k' back)%list).
    { rewrite En, remove_app, (remove_other_head k k' e back Ek N). reflexivity. }
    pose proof (remove_shorter k' front) as Sh.
    pose proof (remove_keeps k k' front Fr) as Kp.
    destruct (LRUCache.live t e'); simpl.
    + split; [|discriminate]. unfold held. simpl.
      exists (e' :: LRUCache.remove k' front), e, (LRUCache.remove k' back).
      rewrite R. simpl. repeat split; try assumption; [|lia].
      constructor; [congruence|exact Kp].
    + assert (Hh : forall r, (List.length front + r < LRUCache.max (Cache.cache c))%nat ->
                 held k v T r
                   (Cache.mk (LRUCache.mk (LRUCache.max (Cache.cache c))
                                (LRUCache.ttl (Cache.cache c))
                                (LRUCache.remove k'
                                   (LRUCache.entries (Cache.cache c))))
                             (Cache.hits c) (S (Cache.misses c)))).
      { intros r Hr. unfold held. simpl.
        exists (LRUCache.remove k' front), e, (LRUCache.remove k' back).
        rewrite R. repeat split; try assumption. lia. }
      split; [apply Hh; lia|intros _; apply Hh; lia].
  - simpl.
    assert (Hh : forall r, (List.length front + r < LRUCache.max (Cache.cache c))%nat ->
               held k v T r (Cache.mk (Cache.cache c) (Cache.hits c)
                                      (S (Cache.misses c)))).
    { intros r Hr. unfold held. simpl. exists front, e, back.
      repeat split; assumption. }
    split; [apply Hh; lia|intros _; apply Hh; lia].
Qed.

(** Setting another key puts one entry in front and evicts nothing that is
    held with room. *)
Lemma held_set_other k k' (v v' : V) T room ttl t c :
  k' <> k -> held k v T (S room) c ->
  held k v T room (Cache.set k' v' ttl t c).
Proof.
  intros N (front & e & back & En & Ek & Ev & Et & Fr & Len).
  unfold held, Cache.set, LRUCache.set. simpl.
  set (new := LRUCache.mkEntry k' v' _).
  assert (R : LRUCache.remove k' (LRUCache.entries (Cache.cache c))
              = (LRUCache.remove k' front ++ e :: LRUCache.remove k' back)%list).
  { rewrite En, remove_app, (remove_other_head k k' e back Ek N). reflexivity. }
  pose proof (remove_shorter k' front) as Sh.
  pose proof (remove_keeps k k' front Fr) as Kp.
  rewrite R.
  destruct (firstn_keeps (LRUCache.max (Cache.cache c))
              (new :: LRUCache.remove k' front) (LRUCache.remove k' back) e)
    as [b' Eb]; [simpl; lia|].
  exists (new :: LRUCache.remove k' front), e, b'.
  split; [exact Eb|]. repeat split; try assumption; [|simpl; lia].
  constructor; [simpl; congruence|exact Kp].
Qed.

End HeldFacts.

Section CachedFacts.

Variable distance : string -> string -> option Q.

(** The calls of the matcher leave the clock and the details cache alone,
    and so does a call of the HTTP client. *)
Lemma matcher_frame (c : Cache.t SteamGameDetails.t) (t : Z) :
  let P := fun w => detailsCache w = c /\ now w = t in
  (forall title, keeps P (GameMatcher.getExactMatch title)) /\
  (forall title limit threshold,
     keeps P (GameMatcher.findMatches distance title limit threshold)) /\
  (forall title threshold,
     keeps P (GameMatcher.findBestMatch distance title threshold)).
Proof.
  intro P.
  assert (L : throws_within P (fun _ => True) GameMatcher.getAppList).
  { apply own_matcher_getAppList; try (intros; exact I);
      intros; unfold P in *; simpl; tauto. }
  assert (F : forall f w, P w -> P (set_fuse f w))
    by (intros; unfold P in *; simpl; tauto).
  split; [|split]; intros; apply (own_keeps P (fun _ => True)).
  - apply own_getExactMatch; assumption.
  - apply own_findMatches; assumption.
  - apply own_findBestMatch; assumption.
Qed.

(** No call moves the clock. *)
Lemma step_clock (o : SteamClient.op) (w : World) :
  quiet o -> (now w <= now (SteamClient.step distance w o))%Z.
Proof.
  intro Q.
  set (P := fun w' => now w' = now w).
  assert (K : forall (A : Type) (m : M A),
             throws_within P (fun _ => True) m -> (now w <= now (snd (m w)))%Z).
  { intros A m H. destruct (H w eq_refl) as [E _]. unfold P in E. lia. }
  assert (L : throws_within P (fun _ => True) GameMatcher.getAppList).
  { apply own_matcher_getAppList; try (intros; exact I);
      intros; unfold P in *; simpl; tauto. }
  assert (D : forall appId,
             throws_within P (fun _ => True) (SteamClient.getGameDetails appId)).
  { intro appId. apply own_getGameDetails; try (intros; exact I);
      intros; unfold P in *; simpl; tauto. }
  assert (F : forall f w0, P w0 -> P (set_fuse f w0))
    by (intros; unfold P in *; simpl; tauto).
  destruct o; simpl in Q |- *; try lia; apply K.
  - apply own_getExactMatch; assumption.
  - apply own_findBestMatch; assumption.
  - apply own_findMatches; assumption.
  - apply own_searchGame; assumption.
  - apply own_findMatches; assumption.
  - apply D.
  - apply own_isAdultContent; assumption.
Qed.

Lemma run_clock (ops : list SteamClient.op) : forall w,
  Forall quiet ops -> (now w <= now (SteamClient.run distance ops w))%Z.
Proof.
  unfold SteamClient.run. induction ops as [|o ops IH]; intros w Q; simpl; [lia|].
  inversion Q as [|? ? Qo Qs]; subst.
  pose proof (step_clock o w Qo).
  specialize (IH (SteamClient.step distance w o) Qs). lia.
Qed.

(** ** The catalog *)

(** With the catalog held, the matcher reads it from the cache. *)
Lemma getAppList_held (appList : list SteamGame.t) (T : Z) (w : World) :
  held GameMatcher.APP_LIST_CACHE_KEY appList T 0 (appListCache w) ->
  (now w < T)%Z ->
  let c := snd (Cache.get GameMatcher.APP_LIST_CACHE_KEY (now w) (appListCache w)) in
  GameMatcher.getAppList w = (Ok appList, set_appListCache c w) /\
  held GameMatcher.APP_LIST_CACHE_KEY appList T 0 c.
Proof.
  intros H Ht c.
  destruct (held_get_same _ _ _ _ _ _ _ H Ht) as [G Hh].
  split; [|exact Hh].
  unfold GameMatcher.getAppList, bind, ret. unfold c.
  destruct (Cache.get GameMatcher.APP_LIST_CACHE_KEY (now w) (appListCache w))
    as [v c0]. simpl in G. subst v. reflexivity.
Qed.

Lemma step_keeps_catalog (appList : list SteamGame.t) (T : Z)
      (o : SteamClient.op) (w : World) :
  quiet o ->
  held GameMatcher.APP_LIST_CACHE_KEY appList T 0 (appListCache w) ->
  (now w < T)%Z ->
  held GameMatcher.APP_LIST_CACHE_KEY appList T 0
       (appListCache (SteamClient.step distance w o)).
Proof.
  intros Q H Ht.
  set (P := fun w' =>
              held GameMatcher.APP_LIST_CACHE_KEY appList T 0 (appListCache w') /\
              now w' = now w).
  assert (K : forall (A : Type) (m : M A),
             throws_within P (fun _ => True) m ->
             held GameMatcher.APP_LIST_CACHE_KEY appList T 0
                  (appListCache (snd (m w)))).
  { intros A m Hm. exact (proj1 (proj1 (Hm w (conj H eq_refl)))). }
  assert (L : throws_within P (fun _ => True) GameMatcher.getAppList).
  { intros w0 [H0 N0].
    destruct (getAppList_held appList T w0 H0 ltac:(lia)) as [G Hh].
    rewrite G. simpl. split; [split; assumption|discriminate]. }
  assert (D : forall appId,
             throws_within P (fun _ => True) (SteamClient.getGameDetails appId)).
  { intro appId. apply own_getGameDetails; try (intros; exact I);
      intros; unfold P in *; simpl; tauto. }
  assert (F : forall f w0, P w0 -> P (set_fuse f w0))
    by (intros; unfold P in *; simpl; tauto).
  destruct o; simpl in Q |- *; try assumption; try contradiction; apply K.
  - apply own_getExactMatch; assumption.
  - apply own_findBestMatch; assumption.
  - apply own_findMatches; assumption.
  - apply own_searchGame; assumption.
  - apply own_findMatches; assumption.
  - apply D.
  - apply own_isAdultContent; assumption.
Qed.

Lemma run_keeps_catalog (appList : list SteamGame.t) (T : Z)
      (ops : list SteamClient.op) : forall w,
  Forall quiet ops ->
  held GameMatcher.APP_LIST_CACHE_KEY appList T 0 (appListCache w) ->
  (now (SteamClient.run distance ops w) < T)%Z ->
  held GameMatcher.APP_LIST_CACHE_KEY appList T 0
       (appListCache (SteamClient.run distance ops w)).
Proof.
  induction ops as [|o ops IH]; intros w Q H Ht; [exact H|].
  inversion Q as [|? ? Qo Qs]; subst.
  pose proof (run_clock (o :: ops) w Q) as C.
  change (SteamClient.run distance (o :: ops) w)
    with (SteamClient.run distance ops (SteamClient.step distance w o)) in *.
  apply IH; [exact Qs| |exact Ht].
  apply step_keeps_catalog; [exact Qo|exact H|lia].
Qed.

(** ** The details of an application *)

Lemma getGameDetails_held_same (appId : string) (details : SteamGameDetails.t)
      (T : Z) (room : nat) (w : World) :
  held appId details T room (detailsCache w) -> (now w < T)%Z ->
  let c := snd (Cache.get appId (now w) (detailsCache w)) in
  SteamClient.getGameDetails appId w = (Ok details, set_detailsCache c w) /\
  held appId details T room c.
Proof.
  intros H Ht c.
  destruct (held_get_same _ _ _ _ _ _ _ H Ht) as [G Hh].
  split; [|exact Hh].
  unfold SteamClient.getGameDetails, bind, ret. unfold c.
  destruct (Cache.get appId (now w) (detailsCache w)) as [v c0].
  simpl in G. subst v. reflexivity.
Qed.

Lemma getGameDetails_held_other (id appId : string)
      (details : SteamGameDetails.t) (T : Z) (room : nat) (w : World) :
  id <> appId ->
  held appId details T (S room) (detailsCache w) ->
  held appId details T room
       (detailsCache (snd (SteamClient.getGameDetails id w))).
Proof.
  intros N H.
  destruct (held_get_other _ appId id details T room (now w) (detailsCache w) N H)
    as [Hit Miss].
  unfold SteamClient.getGameDetails, bind, ret.
  destruct (Cache.get id (now w) (detailsCache w)) as [[d|] c];
    simpl in Hit, Miss |- *; [exact Hit|].
  specialize (Miss eq_refl).
  pose proof (api_getGameDetails_frame id (set_detailsCache c w))
    as (F1 & _ & _ & F4 & _).
  destruct (ApiClient.getGameDetails id (set_detailsCache c w)) as [[d|e] w0];
    simpl in F1, F4 |- *; rewrite F4.
  - apply held_set_other; assumption.
  - apply held_weaken. exact Miss.
Qed.

Lemma isAdultContent_state (game : SteamGame.t) (w : World) :
  snd (SteamClient.isAdultContent game w)
  = snd (SteamClient.getGameDetails (SteamGame.appId game) w).
Proof.
  unfold SteamClient.isAdultContent, try_catch, bind, ret.
  destruct (SteamClient.getGameDetails (SteamGame.appId game) w) as [[d|e] w0];
    reflexivity.
Qed.

(** A details lookup keeps the entry held, at the cost of one place when it
    is for another application. *)
Lemma lookup_keeps_details (id appId : string) (details : SteamGameDetails.t)
      (T : Z) (room : nat) (w : World) :
  held appId details T
       ((if String.eqb id appId then 0 else 1) + room) (detailsCache w) ->
  (now w < T)%Z ->
  held appId details T room
       (detailsCache (snd (SteamClient.getGameDetails id w))).
Proof.
  intros H Ht. destruct (String.eqb_spec id appId) as [->|N]; simpl in H.
  - destruct (getGameDetails_held_same appId details T room w H Ht) as [G Hh].
    rewrite G. exact Hh.
  - apply getGameDetails_held_other; assumption.
Qed.

Lemma step_keeps_details (appId : string) (details : SteamGameDetails.t)
      (T : Z) (room : nat) (o : SteamClient.op) (w : World) :
  quiet o ->
  held appId details T (other_lookups appId o + room) (detailsCache w) ->
  (now w < T)%Z ->
  held appId details T room (detailsCache (SteamClient.step distance w o)).
Proof.
  intros Q H Ht.
  destruct (matcher_frame (detailsCache w) (now w)) as (M1 & M2 & M3).
  assert (K : forall (A : Type) (m : M A),
             keeps (fun w' => detailsCache w' = detailsCache w /\ now w' = now w) m ->
             detailsCache (snd (m w)) = detailsCache w /\ now (snd (m w)) = now w).
  { intros A m Hm. exact (Hm w (conj eq_refl eq_refl)). }
  destruct o; simpl in Q, H |- *; try assumption; try contradiction.
  - rewrite (proj1 (K _ _ (M1 title))). exact H.
  - rewrite (proj1 (K _ _ (M3 title threshold))). exact H.
  - rewrite (proj1 (K _ _ (M2 title limit threshold))). exact H.
  - destruct (K _ _ (M3 title
                       match SearchOptions.fuzzyThreshold options with
                       | Some x => x
                       | None => SteamClient.DEFAULT_fuzzyThreshold
                       end)) as [Kc Kn].
    unfold SteamClient.searchGame, bind.
    destruct (GameMatcher.findBestMatch distance title _ w) as [[[game|]|e] w1];
      simpl in Kc, Kn |- *.
    + destruct (SearchOptions.includeAdult options) as [[|]|]; simpl in H |- *;
        try (rewrite Kc; exact H);
        unfold SteamClient.isAdultContentFiltered, bind, ret;
        pose proof (isAdultContent_state game w1) as St;
        destruct (SteamClient.isAdultContent game w1) as [[b|e] w2];
        simpl in St |- *;
        try (destruct (negb b); simpl);
        rewrite St;
        (destruct (String.eqb_spec (SteamGame.appId game) appId) as [Eq|Ne];
         [ rewrite Eq;
           destruct (getGameDetails_held_same appId details T room w1) as [G Hh];
           [rewrite Kc; apply held_weaken; exact H|lia|rewrite G; exact Hh]
         | apply getGameDetails_held_other; [exact Ne|rewrite Kc; exact H] ]).
    + rewrite Kc.
      destruct (SearchOptions.includeAdult options) as [[|]|]; simpl in H;
        try exact H; apply held_weaken; exact H.
    + rewrite Kc.
      destruct (SearchOptions.includeAdult options) as [[|]|]; simpl in H;
        try exact H; apply held_weaken; exact H.
  - unfold SteamClient.searchGames.
    rewrite (proj1 (K _ _ (M2 title limit SteamClient.DEFAULT_fuzzyThreshold))).
    exact H.
  - apply lookup_keeps_details; assumption.
  - rewrite isAdultContent_state. apply lookup_keeps_details; assumption.
Qed.

Lemma run_keeps_details (appId : string) (details : SteamGameDetails.t)
      (T : Z) (ops : list SteamClient.op) : forall w,
  Forall quiet ops ->
  held appId details T (list_sum (map (other_lookups appId) ops)) (detailsCache w) ->
  (now (SteamClient.run distance ops w) < T)%Z ->
  held appId details T 0 (detailsCache (SteamClient.run distance ops w)).
Proof.
  induction ops as [|o ops IH]; intros w Q H Ht; [exact H|].
  inversion Q as [|? ? Qo Qs]; subst.
  pose proof (run_clock (o :: ops) w Q) as C.
  change (SteamClient.run distance (o :: ops) w)
    with (SteamClient.run distance ops (SteamClient.step distance w o)) in *.
  apply IH; [exact Qs| |exact Ht].
  apply step_keeps_details; [exact Qo|exact H|lia].
Qed.

End CachedFacts.

(** X14.  Details that were fetched stay in the cache.  After a
    [getGameDetails] that missed the cache and fetched, let any calls
    follow that do not clear the caches, while the clock never goes back:
    as long as the time to live of the cache has not passed and fewer
    details lookups for other applications were made than the cache has
    places, a call for the same id returns the same details, sends no
    request and takes no token. *)
Theorem fetched_details_are_cached
  (distance : string -> string -> option Q)
  (appId : string) (w w1 : World) (details : SteamGameDetails.t)
  (ops : list SteamClient.op) :
  fst (Cache.get appId (now w) (detailsCache w)) = None ->
  SteamClient.getGameDetails appId w = (Ok details, w1) ->
  Forall quiet ops ->
  (list_sum (map (other_lookups appId) ops)
   < LRUCache.max (Cache.cache (detailsCache w)))%nat ->
  let w2 := SteamClient.run distance ops w1 in
  (now w2 < now w + LRUCache.ttl (Cache.cache (detailsCache w)))%Z ->
  let r := SteamClient.getGameDetails appId w2 in
  fst r = Ok details /\
  requests (snd r) = requests w2 /\
  rateLimiter (snd r) = rateLimiter w2.
Proof.
  intros Hmiss H Q Hn w2 Ht r.
  unfold SteamClient.getGameDetails, bind in H.
  pose proof (cache_get_keeps_config _ appId (now w) (detailsCache w)) as [Cm Ct].
  destruct (Cache.get appId (now w) (detailsCache w)) as [[d|] c];
    simpl in Hmiss, Cm, Ct; [discriminate|].
  pose proof (api_getGameDetails_frame appId (set_detailsCache c w))
    as (F1 & _ & _ & F4 & _).
  destruct (ApiClient.getGameDetails appId (set_detailsCache c w))
    as [[d|e] w0]; simpl in H, F1, F4; [|discriminate].
  inversion H; subst d w1. clear H.
  assert (H1 : held appId details
                 (now w + LRUCache.ttl (Cache.cache (detailsCache w)))
                 (list_sum (map (other_lookups appId) ops))
                 (detailsCache
                    (set_detailsCache
                       (Cache.set appId details None (now w0) (detailsCache w0))
                       w0))).
  { simpl. rewrite F4, F1, <- Ct.
    apply (held_after_set _ appId details None (now w)). rewrite Cm. exact Hn. }
  pose proof (run_keeps_details distance appId details _ ops _ Q H1 Ht) as H2.
  destruct (getGameDetails_held_same appId details _ 0 w2 H2 Ht) as [G _].
  unfold r. rewrite G. repeat split.
Qed.

(** The details of "Dota 2" are fetched at the time 0; half an hour passes,
    the catalog is searched and the details of another game are asked for;
    the details of "Dota 2" are still served from the cache. *)
Lemma fetched_details_are_cached_witness :
  let w := Scenario2.dota_client in
  let w1 := snd (SteamClient.getGameDetails "570" w) in
  let ops := [SteamClient.Advance 1800000; SteamClient.GetExactMatch "dota 2";
              SteamClient.GetGameDetails "400"] in
  let w2 := SteamClient.run Scenario.distance ops w1 in
  Forall quiet ops /\
  requests w2 = [GetAppDetails "400"; GetAppListPage; GetAppDetails "570"] /\
  fst (SteamClient.getGameDetails "570" w2) = Ok Scenario.free_game /\
  requests (snd (SteamClient.getGameDetails "570" w2)) = requests w2.
Proof.
  intros w w1 ops w2.
  assert (Q : Forall quiet ops) by (repeat constructor; simpl; lia).
  split; [exact Q|]. split; [vm_compute; reflexivity|].
  destruct (fetched_details_are_cached Scenario.distance "570" w w1
              Scenario.free_game ops eq_refl ltac:(vm_compute; reflexivity) Q
              ltac:(vm_compute; lia) ltac:(vm_compute; reflexivity))
    as (A & B & _).
  split; [exact A|exact B].
Defined.

(** X15.  A catalog that was fetched stays in the cache for twenty-four
    hours.  After a [getAppList] of the matcher that missed the cache and
    fetched, let any calls follow that do not clear the caches, while the
    clock never goes back: less than 86400000 ms after the fetch a
    [getAppList] returns the same catalog, sends no request and takes no
    token.  This needs a cache that can hold an entry. *)
Theorem fetched_catalog_is_cached
  (distance : string -> string -> option Q)
  (w w1 : World) (appList : list SteamGame.t) (ops : list SteamClient.op) :
  (1 <= LRUCache.max (Cache.cache (appListCache w)))%nat ->
  fst (Cache.get GameMatcher.APP_LIST_CACHE_KEY (now w) (appListCache w)) = None ->
  GameMatcher.getAppList w = (Ok appList, w1) ->
  Forall quiet ops ->
  let w2 := SteamClient.run distance ops w1 in
  (now w2 < now w + 86400000)%Z ->
  let r := GameMatcher.getAppList w2 in
  fst r = Ok appList /\
  requests (snd r) = requests w2 /\
  rateLimiter (snd r) = rateLimiter w2.
Proof.
  intros Hm Hmiss H Q w2 Ht r.
  unfold GameMatcher.getAppList, bind in H.
  pose proof (cache_get_keeps_config _ GameMatcher.APP_LIST_CACHE_KEY (now w)
                (appListCache w)) as [Cm Ct].
  destruct (Cache.get GameMatcher.APP_LIST_CACHE_KEY (now w) (appListCache w))
    as [[l|] c]; simpl in Hmiss, Cm, Ct; [discriminate|].
  pose proof (api_getAppList_frame (set_appListCache c w))
    as (F1 & _ & F3 & _ & _).
  destruct (ApiClient.getAppList (set_appListCache c w))
    as [[raw|e] w0]; simpl in H, F1, F3; [|discriminate].
  inversion H; subst appList w1. clear H.
  set (l := map _ raw) in *.
  assert (H1 : held GameMatcher.APP_LIST_CACHE_KEY l (now w + 86400000) 0
                 (appListCache
                    (set_appListCache
                       (Cache.set GameMatcher.APP_LIST_CACHE_KEY l
                          (Some 86400000%Z) (now w0) (appListCache w0)) w0))).
  { simpl. rewrite F3, F1.
    apply (held_after_set _ GameMatcher.APP_LIST_CACHE_KEY l
             (Some 86400000%Z) (now w)). rewrite Cm. lia. }
  pose proof (run_keeps_catalog distance l _ ops _ Q H1 Ht) as H2.
  destruct (getAppList_held l _ w2 H2 Ht) as [G _].
  unfold r. rewrite G. repeat split.
Qed.

(** The catalog is fetched at the time 0; twelve hours pass, details are
    asked for and the catalog is searched; it is still served from the
    cache. *)
Lemma fetched_catalog_is_cached_witness :
  let w := Scenario2.dota_client in
  let w1 := snd (GameMatcher.getAppList w) in
  let ops := [SteamClient.Advance 43200000; SteamClient.GetGameDetails "570";
              SteamClient.SearchGames "dota" 5] in
  let w2 := SteamClient.run Scenario.distance ops w1 in
  (1 <= LRUCache.max (Cache.cache (appListCache w)))%nat /\
  Forall quiet ops /\
  requests w2 = [GetAppDetails "570"; GetAppListPage] /\
  fst (GameMatcher.getAppList w2) = Ok [SteamGame.mk "570" "Dota 2" None] /\
  requests (snd (GameMatcher.getAppList w2)) = requests w2.
Proof.
  intros w w1 ops w2.
  assert (Hm : (1 <= LRUCache.max (Cache.cache (appListCache w)))%nat)
    by (vm_compute; lia).
  assert (Q : Forall quiet ops) by (repeat constructor; simpl; lia).
  split; [exact Hm|]. split; [exact Q|]. split; [vm_compute; reflexivity|].
  destruct (fetched_catalog_is_cached Scenario.distance w w1
              [SteamGame.mk "570" "Dota 2" None] ops Hm eq_refl
              ltac:(vm_compute; reflexivity) Q ltac:(vm_compute; reflexivity))
    as (A & B & _).
  split; [exact A|exact B].
Defined.

(* ================================================================== *)
(** * Clearing the caches and reading their statistics *)

(** X16.  [clearCache] empties both caches: their sizes and the hit rate
    read zero and every lookup misses, at any time; the rate limiter, the
    requests sent, the clock and the search index are left as they were. *)
Theorem clear_cache_empties_both (w : World) :
  let w' := snd (SteamClient.clearCache w) in
  fst (SteamClient.clearCache w) = Ok tt /\
  SteamClient.getCacheStats w' = CacheStats.mk 0 0 0 /\
  (forall k t, fst (Cache.get k t (detailsCache w')) = None) /\
  (forall k t, fst (Cache.get k t (appListCache w')) = None) /\
  rateLimiter w' = rateLimiter w /\ requests w' = requests w /\
  now w' = now w /\ fuse w' = fuse w.
Proof.
  intro w'. repeat split.
Qed.

Section HitRateFacts.

Lemma nat_ratio_bounds (h t : nat) :
  (h <= t)%nat -> (0 < t)%nat ->
  0 <= inject_Z (Z.of_nat h) / inject_Z (Z.of_nat t) /\
  inject_Z (Z.of_nat h) / inject_Z (Z.of_nat t) <= 1.
Proof.
  intros Hle Hpos.
  assert (Tp : 0 < inject_Z (Z.of_nat t)).
  { change 0 with (inject_Z 0). rewrite <- Zlt_Qlt. lia. }
  assert (Hn : 0 <= inject_Z (Z.of_nat h)).
  { change 0 with (inject_Z 0). rewrite <- Zle_Qle. lia. }
  assert (Hl : inject_Z (Z.of_nat h) <= inject_Z (Z.of_nat t)).
  { rewrite <- Zle_Qle. lia. }
  split.
  - apply Qle_shift_div_l; [exact Tp|]. lra.
  - apply Qle_shift_div_r; [exact Tp|]. lra.
Qed.

Lemma getStats_bounds {V : Type} (c : Cache.t V) :
  0 <= snd (Cache.getStats c) /\ snd (Cache.getStats c) <= 1.
Proof.
  unfold Cache.getStats. simpl.
  destruct (0 <? Cache.hits c + Cache.misses c)%nat eqn:E.
  - apply Nat.ltb_lt in E. apply nat_ratio_bounds; lia.
  - split; lra.
Qed.

End HitRateFacts.

(** X17.  The hit rate of a cache and the combined hit rate of a client are
    proportions: they lie between 0 and 1. *)
Theorem hit_rates_are_proportions (w : World) :
  (forall (V : Type) (c : Cache.t V),
     0 <= snd (Cache.getStats c) /\ snd (Cache.getStats c) <= 1) /\
  0 <= CacheStats.hitRate (SteamClient.getCacheStats w) /\
  CacheStats.hitRate (SteamClient.getCacheStats w) <= 1.
Proof.
  split; [intros V c; apply getStats_bounds|].
  unfold SteamClient.getCacheStats. cbv zeta.
  cbn [CacheStats.hitRate].
  destruct (getStats_bounds (appListCache w)) as [A0 A1].
  destruct (getStats_bounds (detailsCache w)) as [D0 D1].
  set (ra := snd (Cache.getStats (appListCache w))) in *.
  set (rd := snd (Cache.getStats (detailsCache w))) in *.
  set (na := fst (Cache.getStats (appListCache w))).
  set (nd := fst (Cache.getStats (detailsCache w))).
  destruct (0 <? na + nd)%nat eqn:E; [|split; lra].
  apply Nat.ltb_lt in E.
  assert (Sa : 0 <= inject_Z (Z.of_nat na)).
  { change 0 with (inject_Z 0). rewrite <- Zle_Qle. lia. }
  assert (Sd : 0 <= inject_Z (Z.of_nat nd)).
  { change 0 with (inject_Z 0). rewrite <- Zle_Qle. lia. }
  assert (Tp : 0 < inject_Z (Z.of_nat (na + nd))).
  { change 0 with (inject_Z 0). rewrite <- Zlt_Qlt. lia. }
  assert (Ts : inject_Z (Z.of_nat (na + nd))
               == inject_Z (Z.of_nat na) + inject_Z (Z.of_nat nd)).
  { rewrite Nat2Z.inj_add, inject_Z_plus. reflexivity. }
  pose proof (Qmult_le_0_compat _ _ A0 Sa) as P1.
  pose proof (Qmult_le_0_compat _ _ D0 Sd) as P2.
  assert (U1 : ra * inject_Z (Z.of_nat na) <= inject_Z (Z.of_nat na)).
  { rewrite <- (Qmult_1_l (inject_Z (Z.of_nat na))) at 2.
    apply Qmult_le_compat_r; assumption. }
  assert (U2 : rd * inject_Z (Z.of_nat nd) <= inject_Z (Z.of_nat nd)).
  { rewrite <- (Qmult_1_l (inject_Z (Z.of_nat nd))) at 2.
    apply Qmult_le_compat_r; assumption. }
  split.
  - apply Qle_shift_div_l; [exact Tp|]. lra.
  - apply Qle_shift_div_r; [exact Tp|]. lra.
Qed.

(* ================================================================== *)
(** * The extracted metadata *)

(** X18.  [extractScreenshots] returns the full-size paths of the first
    [limit] screenshots, in their order: never more than [limit] and never
    more than there are; the metadata carry three at most. *)
Theorem screenshots_are_a_prefix (details : SteamGameDetails.t) (limit : nat) :
  let shots := SteamGameDetails.screenshots details in
  MetadataExtractor.extractScreenshots details limit
  = map Screenshot.pathFull (firstn limit shots) /\
  List.length (MetadataExtractor.extractScreenshots details limit)
  = Nat.min limit (List.length shots) /\
  (forall urls,
     EnrichedGameData.screenshots (MetadataExtractor.extractMetadata details)
     = Some urls -> (List.length urls <= 3)%nat).
Proof.
  intro shots.
  assert (E : MetadataExtractor.extractScreenshots details limit
              = map Screenshot.pathFull (firstn limit shots)).
  { unfold MetadataExtractor.extractScreenshots. fold shots.
    destruct shots; [rewrite firstn_nil|]; reflexivity. }
  split; [exact E|]. split.
  - rewrite E, length_map, length_firstn. reflexivity.
  - intros urls H. simpl in H. inversion H; subst urls.
    unfold MetadataExtractor.extractScreenshots,
      MetadataExtractor.DEFAULT_SCREENSHOT_LIMIT.
    destruct (SteamGameDetails.screenshots details) as [|s l];
      [simpl; lia|].
    rewrite length_map, length_firstn. lia.
Qed.

(** X19.  The rating of the metadata is absent exactly when the game has
    neither a Metacritic score other than 0 nor recommendations other than
    0.  When there are recommendations, the Steam rating carries their total
    and the percentage 0. *)
Theorem rating_is_absent_without_scores (details : SteamGameDetails.t) :
  let unrated (o : option Z) := o = None \/ o = Some 0%Z in
  (MetadataExtractor.extractRating details = None <->
   unrated (SteamGameDetails.metacritic details) /\
   unrated (SteamGameDetails.recommendations details)) /\
  (forall rating steam,
     MetadataExtractor.extractRating details = Some rating ->
     Rating.steam rating = Some steam ->
     SteamRating.percent steam = 0%Z /\
     SteamGameDetails.recommendations details = Some (SteamRating.total steam) /\
     SteamRating.total steam <> 0%Z) /\
  (forall rating,
     MetadataExtractor.extractRating details = Some rating ->
     Rating.metacritic rating = SteamGameDetails.metacritic details).
Proof.
  intro unrated. unfold unrated, MetadataExtractor.extractRating,
                   MetadataExtractor.calculateSteamRating.
  destruct (SteamGameDetails.metacritic details) as [m|];
    destruct (SteamGameDetails.recommendations details) as [t|];
    try destruct (Z.eqb_spec m 0); try destruct (Z.eqb_spec t 0);
    subst; simpl; repeat split;
    try (intros; discriminate); try tauto;
    try (intros [[H|H] [H'|H']]; congruence);
    try (intros [[H|H] _]; congruence);
    try (intros [_ [H|H]]; congruence);
    try (intros r s H1 H2; inversion H1; subst; simpl in H2;
         inversion H2; subst; simpl; solve [auto | discriminate]);
    try (intros r H1; inversion H1; reflexivity);
    try (match goal with
         | H : Some _ = Some ?r, H0 : Rating.steam ?r = Some _ |- _ =>
             inversion H; subst; simpl in H0; inversion H0; subst; simpl;
             solve [auto | congruence]
         end).
Qed.

(* ================================================================== *)
(** * What the matcher returns *)

Section MatchFacts.

Variable distance : string -> string -> option Q.

Lemma not_blank title :
  GameMatcher.blank title = false -> ~ JsString.whitespace_only title.
Proof. intros H W. apply blank_iff in W. congruence. Qed.

(** What [findMatches] returns for a title that is not blank. *)
Lemma findMatches_result title limit threshold w res w' :
  GameMatcher.blank title = false ->
  GameMatcher.findMatches distance title limit threshold w = (Ok res, w') ->
  exists f,
    fuse w' = Some f /\
    res = map GameMatcher.toGame
            (filter (GameMatcher.withinThreshold threshold)
               (Fuse.search distance f (TitleNormalizer.normalize title) limit)).
Proof.
  intros Hb H. unfold GameMatcher.findMatches in H. rewrite Hb in H.
  unfold GameMatcher.ensureFuseInitialized in H. unfold bind, ret in H.
  destruct (fuse w) as [f|] eqn:F.
  - rewrite F in H. cbv iota in H. inversion H; subst. eauto.
  - destruct (GameMatcher.getAppList w) as [[appList|e] w1];
      simpl in H; [|discriminate].
    inversion H; subst. simpl. eauto.
Qed.

Lemma getExactMatch_found title w g w' :
  GameMatcher.getExactMatch title w = (Ok (Some g), w') ->
  TitleNormalizer.normalize (SteamGame.name g)
  = TitleNormalizer.normalize title.
Proof.
  unfold GameMatcher.getExactMatch, bind, ret. intro H.
  destruct (GameMatcher.getAppList w) as [[appList|e] w1]; [|discriminate].
  inversion H as [[F W]]. apply find_some in F.
  apply String.eqb_eq. apply F.
Qed.

End MatchFacts.

(** X20.  A best match always carries a score, and the score clears the
    threshold: it is 1 for an entry whose normalized name is the normalized
    title, and otherwise 1 - d for an entry at a distance d of at most the
    threshold; in both cases it is at least 1 - threshold.  No match is
    returned for a blank title. *)
Theorem best_match_clears_threshold
  (distance : string -> string -> option Q)
  (title : string) (threshold : Q) (w w' : World) (g : SteamGame.t) :
  0 <= threshold ->
  GameMatcher.findBestMatch distance title threshold w = (Ok (Some g), w') ->
  ~ JsString.whitespace_only title /\
  exists s,
    SteamGame.matchScore g = Some s /\
    1 - threshold <= s /\
    ((s = 1 /\
      TitleNormalizer.normalize (SteamGame.name g)
      = TitleNormalizer.normalize title) \/
     (exists d,
        distance (TitleNormalizer.normalize title) (SteamGame.name g) = Some d /\
        d <= threshold /\ s = 1 - d)).
Proof.
  intros Ht H. unfold GameMatcher.findBestMatch in H.
  destruct (GameMatcher.blank title) eqn:Hb; [discriminate|].
  split; [exact (not_blank title Hb)|].
  unfold bind in H.
  destruct (GameMatcher.getExactMatch title w) as [[[e|]|err] w1] eqn:E;
    [| |discriminate].
  - inversion H; subst. simpl. exists 1. split; [reflexivity|].
    split; [lra|]. left. split; [reflexivity|].
    exact (getExactMatch_found title w e w' E).
  - destruct (GameMatcher.findMatches distance title 1 threshold w1)
      as [[l|err] w2] eqn:F; [|discriminate].
    inversion H as [[Hd W]]. subst w2.
    destruct (findMatches_result distance title 1 threshold w1 l w' Hb F)
      as (f & _ & El).
    destruct (ranked_results distance f (TitleNormalizer.normalize title) 1
                threshold ltac:(lia)) as (hits & Eh & _ & P & _).
    rewrite Eh in El. subst l.
    destruct hits as [|h hits]; [discriminate|].
    simpl in Hd. inversion Hd; subst g. simpl.
    inversion P as [|? ? (_ & D & T) _]; subst.
    exists (1 - Fuse.h_score h). split; [reflexivity|]. split; [lra|].
    right. exists (Fuse.h_score h). auto.
Qed.

(** The search for "dota 2" in a catalog that holds "Dota 2". *)
Lemma best_match_clears_threshold_witness :
  let r := GameMatcher.findBestMatch Scenario.distance "dota 2" (3 # 10)
             Scenario.client in
  0 <= 3 # 10 /\
  exists s, fst r = Ok (Some (SteamGame.mk "570" "Dota 2" (Some s))) /\
            1 - (3 # 10) <= s.
Proof.
  intro r.
  assert (Ht : 0 <= 3 # 10) by (unfold Qle; simpl; lia).
  split; [exact Ht|].
  assert (E : r = (Ok (Some (SteamGame.mk "570" "Dota 2" (Some 1))), snd r))
    by (vm_compute; reflexivity).
  destruct (proj2 (best_match_clears_threshold Scenario.distance "dota 2"
                     (3 # 10) Scenario.client (snd r) _ Ht E))
    as (s & Es & Hs & _).
  simpl in Es. inversion Es; subst s.
  exists 1. split; [rewrite E; reflexivity|exact Hs].
Defined.

(** X21.  An exact match is found whatever the case of the letters of the
    title: two titles that differ only in case get the same answer, and the
    entry returned has the normalized name of the normalized title. *)
Theorem exact_match_ignores_case (title1 title2 : string) (w : World) :
  TitleShape.fold_case title1 = TitleShape.fold_case title2 ->
  GameMatcher.getExactMatch title1 w = GameMatcher.getExactMatch title2 w /\
  (forall g w',
     GameMatcher.getExactMatch title1 w = (Ok (Some g), w') ->
     TitleNormalizer.normalize (SteamGame.name g)
     = TitleNormalizer.normalize title2).
Proof.
  intro H.
  assert (N : TitleNormalizer.normalize title1
              = TitleNormalizer.normalize title2).
  { rewrite <- (normalize_fold_case title1), H. apply normalize_fold_case. }
  split.
  - unfold GameMatcher.getExactMatch. rewrite N. reflexivity.
  - intros g w' E. rewrite <- N. exact (getExactMatch_found title1 w g w' E).
Qed.

(** "DOTA 2" and "dota 2" in a catalog that holds "Dota 2". *)
Lemma exact_match_ignores_case_witness :
  TitleShape.fold_case "DOTA 2" = TitleShape.fold_case "dota 2" /\
  fst (GameMatcher.getExactMatch "DOTA 2" Scenario.client)
  = Ok (Some (SteamGame.mk "570" "Dota 2" None)).
Proof.
  assert (H : TitleShape.fold_case "DOTA 2" = TitleShape.fold_case "dota 2")
    by reflexivity.
  split; [exact H|].
  rewrite (proj1 (exact_match_ignores_case "DOTA 2" "dota 2" Scenario.client H)).
  vm_compute. reflexivity.
Defined.

(* ================================================================== *)
(** * The signals of adult content *)

(** X22.  A game is flagged as adult exactly when one of the three signals
    is there: a required age of 18 or more, the content descriptor 3, or a
    category whose description contains "adult only" in any case. *)
Theorem adult_signals (details : SteamGameDetails.t) :
  AdultContentDetector.isAdult details = true <->
  (18 <= SteamGameDetails.requiredAge details)%Z \/
  In 3%Z (SteamGameDetails.contentDescriptors details) \/
  (exists cat,
     In cat (SteamGameDetails.categories details) /\
     JsString.includes "adult only"
       (JsString.toLowerCase (Category.description cat)) = true).
Proof.
  unfold AdultContentDetector.isAdult, AdultContentDetector.hasAgeRestriction,
    AdultContentDetector.hasAdultDescriptor,
    AdultContentDetector.hasAdultCategory,
    AdultContentDetector.ADULT_AGE_THRESHOLD,
    AdultContentDetector.ADULT_DESCRIPTOR_ID.
  destruct (18 <=? SteamGameDetails.requiredAge details)%Z eqn:A.
  { apply Z.leb_le in A. tauto. }
  apply Z.leb_gt in A.
  destruct (existsb (Z.eqb 3) (SteamGameDetails.contentDescriptors details))
    eqn:D.
  { apply existsb_exists in D. destruct D as (x & Hx & Ex).
    apply Z.eqb_eq in Ex. subst x. tauto. }
  assert (ND : ~ In 3%Z (SteamGameDetails.contentDescriptors details)).
  { intro Hin.
    assert (X : existsb (Z.eqb 3) (SteamGameDetails.contentDescriptors details)
                = true).
    { apply existsb_exists. exists 3%Z. split; [exact Hin|reflexivity]. }
    congruence. }
  destruct (existsb _ (SteamGameDetails.categories details)) eqn:C.
  - apply existsb_exists in C. split; [intros _|reflexivity].
    right. right. exact C.
  - split; [discriminate|]. intros [H|[H|H]]; [lia|contradiction|].
    apply existsb_exists in H. congruence.
Qed.

(* ================================================================== *)
(** * Instances *)

(** The normal form of a repack title. *)
Lemma normalized_title_shape_witness :
  let n := TitleNormalizer.normalize "  The Witcher 3: Wild Hunt - GOTY " in
  In "w"%char (JsString.chars n) /\ TitleShape.normal_char "w" = true /\
  TitleShape.single_spaced false n = true.
Proof.
  intro n.
  assert (H : In "w"%char (JsString.chars n)) by (vm_compute; tauto).
  split; [exact H|]. split.
  - exact (proj1 (normalized_title_shape "  The Witcher 3: Wild Hunt - GOTY ")
             "w"%char H).
  - exact (proj2 (proj2 (proj2
             (normalized_title_shape "  The Witcher 3: Wild Hunt - GOTY ")))).
Defined.

(** The metadata of a game without screenshots and without scores. *)
Lemma screenshots_are_a_prefix_witness :
  EnrichedGameData.screenshots
    (MetadataExtractor.extractMetadata Scenario.free_game) = Some [] /\
  (List.length (@nil string) <= 3)%nat.
Proof.
  assert (H : EnrichedGameData.screenshots
                (MetadataExtractor.extractMetadata Scenario.free_game)
              = Some []) by reflexivity.
  split; [exact H|].
  exact (proj2 (proj2 (screenshots_are_a_prefix Scenario.free_game 3)) [] H).
Defined.

Lemma rating_is_absent_without_scores_witness :
  (SteamGameDetails.metacritic Scenario.free_game = None \/
   SteamGameDetails.metacritic Scenario.free_game = Some 0%Z) /\
  MetadataExtractor.extractRating Scenario.free_game = None.
Proof.
  assert (H : SteamGameDetails.metacritic Scenario.free_game = None \/
              SteamGameDetails.metacritic Scenario.free_game = Some 0%Z)
    by (left; reflexivity).
  split; [exact H|].
  apply (proj1 (rating_is_absent_without_scores Scenario.free_game)).
  split; [exact H|left; reflexivity].
Defined.

(** A game with a required age of 18. *)
Lemma adult_signals_witness :
  (18 <= SteamGameDetails.requiredAge Scenario2.adult_game)%Z /\
  AdultContentDetector.isAdult Scenario2.adult_game = true.
Proof.
  assert (H : (18 <= SteamGameDetails.requiredAge Scenario2.adult_game)%Z)
    by (simpl; lia).
  split; [exact H|].
  apply (proj2 (adult_signals Scenario2.adult_game)). left. exact H.
Defined.
